(** * Pacer: phase-gated robot state store, friction estimator, joint table

    A shallow embedding of
      - [Pacer::Robot] (include/Pacer/robot.h): the controller-phase state
        machine, the joint state store, the contact map and the generic data
        map;
      - [solve_qp] and [friction_estimation] (estimatefrict.cpp);
      - [Robot::compile] (src/robot.cc), the joint table of the robot.

    Conventions.
      - [double] is IEEE-754 binary64, as the Standard Library's [spec_float]
        with precision 53 and maximal exponent 1024.  (A [spec_float] has a
        single NaN; payloads of NaNs are not represented.)
      - [std::map<K,V>] is a [gmap K V]; [operator[]] is written out with its
        default insertion; iteration is over the keys in ascending order.
      - A C++ exception is an outcome [Throw e]; the object state at the time
        of the throw is kept, as in C++.
      - Logging statements and mutex operations carry no data and are left
        out. *)

From Stdlib Require Import ZArith Floats.SpecFloat.
From stdpp Require Import base option list gmap strings sorting.

Open Scope Z_scope.
Open Scope nat_scope.

(** ** Scalars *)

Abbreviation double := spec_float (only parsing).

Definition prec : Z := 53.
Definition emax : Z := 1024.

Definition dadd : double -> double -> double := SFadd prec emax.
Definition dsub : double -> double -> double := SFsub prec emax.
Definition dmul : double -> double -> double := SFmul prec emax.
Definition ddiv : double -> double -> double := SFdiv prec emax.
Definition dsqrt : double -> double := SFsqrt prec emax.
Definition dneg : double -> double := SFopp.
Definition dabs : double -> double := SFabs.
Definition dltb : double -> double -> bool := SFltb.
Definition dleb : double -> double -> bool := SFleb.

Definition d0 : double := S754_zero false.
Definition d1 : double := S754_finite false 4503599627370496 (-52).
Definition dm1 : double := S754_finite true 4503599627370496 (-52).

(** [std::isfinite] *)
Definition isfinite (x : double) : bool :=
  match x with
  | S754_zero _ | S754_finite _ _ _ => true
  | S754_infinity _ | S754_nan => false
  end.

Definition isnan (x : double) : bool :=
  match x with S754_nan => true | _ => false end.

(** ** Exceptions and the state-and-exception monad *)

(** Every [throw std::runtime_error(msg)] of the sources is one of these, by
    the message it carries:
      - [PhaseViolation]: the messages of [check_phase] and [increment_phase];
      - [DOFMismatch]: "Missized dofs in joint ..." and
        "Missized generalized vector ...";
      - [KeyNotFound]: "Variable: ... not found in data!";
      - [TypeMismatch]: "... was requested as ... but is actually ...";
      - [InvalidIndex]: an element access outside a vector or matrix
        (Ravelin and Moby raise their index exception; for [std::vector] the
        access is undefined and is modelled as the same fault);
      - [Missize]: an operation of the linear-algebra library on operands of
        non-conforming dimensions;
      - [NumericFailure]: a non-finite value found by [check_finite]. *)
Inductive exn : Set :=
| PhaseViolation
| DOFMismatch
| KeyNotFound
| TypeMismatch
| InvalidIndex
| Missize
| NumericFailure.

Inductive outcome (A : Type) : Type :=
| Ret (a : A)
| Throw (e : exn).
Arguments Ret {A} a.
Arguments Throw {A} e.

Definition Exec (S A : Type) : Type := S -> outcome A * S.

Definition ret {S A} (a : A) : Exec S A := fun s => (Ret a, s).
Definition throw {S A} (e : exn) : Exec S A := fun s => (Throw e, s).
Definition bind {S A B} (m : Exec S A) (k : A -> Exec S B) : Exec S B :=
  fun s => match m s with
           | (Ret a, s') => k a s'
           | (Throw e, s') => (Throw e, s')
           end.
Definition gets {S A} (f : S -> A) : Exec S A := fun s => (Ret (f s), s).
Definition modify {S} (f : S -> S) : Exec S unit := fun s => (Ret tt, f s).

Declare Scope monad_scope.
Delimit Scope monad_scope with monad.
Notation "x <- m ;; k" := (bind m (fun x => k))
  (at level 100, m at next level, k at level 200, right associativity) : monad_scope.
Notation "m ;; k" := (bind m (fun _ => k))
  (at level 100, k at level 200, right associativity) : monad_scope.
Open Scope monad_scope.

(** [for(i = 0; i < xs.size(); i++) body(xs[i])]: the body runs on each
    element in turn and the first exception ends the loop. *)
Fixpoint for_each {S A} (body : A -> Exec S unit) (xs : list A) : Exec S unit :=
  match xs with
  | [] => ret tt
  | x :: xs' => body x ;; for_each body xs'
  end.

(** ** Vectors *)

(** [Ravelin::VectorNd] *)
Abbreviation VectorNd := (list double) (only parsing).

(** [v[i]] for an [int] (or [unsigned]) index: a negative [int] converts to
    an index beyond every vector. *)
Definition vec_at (v : VectorNd) (i : Z) : option double :=
  if bool_decide (0 <= i)%Z then v !! Z.to_nat i else None.

(** [v[i] = x]; [None] when the index is outside the vector. *)
Definition vec_store (v : VectorNd) (i : Z) (x : double) : option VectorNd :=
  if bool_decide (0 <= i)%Z && bool_decide (Z.to_nat i < length v)
  then Some (<[Z.to_nat i := x]> v) else None.

(** [v.set_zero(n)] *)
Definition set_zero (n : nat) : VectorNd := replicate n d0.

(** [Ravelin::Origin3d], [Ravelin::Vector3d] *)
Record Origin3d : Type := mkOrigin3d { ox : double; oy : double; oz : double }.
Abbreviation Vector3d := Origin3d (only parsing).
Definition Origin3d_zero : Origin3d := mkOrigin3d d0 d0 d0.

(** ** The data model of [Pacer::Robot] *)

Inductive unit_e : Set :=
| misc_sensor
| position
| velocity
| acceleration
| load
| misc_planner
| position_goal
| velocity_goal
| acceleration_goal
| misc_controller
| load_goal
| initialization
| clean_up.

Inductive ControllerPhase : Set :=
| INITIALIZATION
| PERCEPTION
| PLANNING
| CONTROL
| WAITING
| INCREMENT.

Global Instance unit_e_eq_dec : EqDecision unit_e.
Proof. solve_decision. Defined.

Global Instance ControllerPhase_eq_dec : EqDecision ControllerPhase.
Proof. solve_decision. Defined.

(** The enumerators' integer values. *)
Definition unit_e_value (u : unit_e) : nat :=
  match u with
  | misc_sensor => 0 | position => 1 | velocity => 2 | acceleration => 3
  | load => 4 | misc_planner => 5 | position_goal => 6 | velocity_goal => 7
  | acceleration_goal => 8 | misc_controller => 9 | load_goal => 10
  | initialization => 11 | clean_up => 12
  end.

Definition unit_e_of_value (n : nat) : option unit_e :=
  match n with
  | 0 => Some misc_sensor | 1 => Some position | 2 => Some velocity
  | 3 => Some acceleration | 4 => Some load | 5 => Some misc_planner
  | 6 => Some position_goal | 7 => Some velocity_goal
  | 8 => Some acceleration_goal | 9 => Some misc_controller
  | 10 => Some load_goal | 11 => Some initialization | 12 => Some clean_up
  | _ => None
  end.

Global Instance unit_e_countable : Countable unit_e :=
  inj_countable unit_e_value unit_e_of_value
    ltac:(intros u; destruct u; reflexivity).

(** [struct contact_t] *)
Record contact_t : Type := mkContact {
  id : string;
  point : Vector3d;
  normal : Vector3d;
  tangent : Vector3d;
  impulse : Vector3d;
  mu_coulomb : double;
  mu_viscous : double;
  restitution : double;
  compliant : bool;
}.

(** [boost::any], over the types the plugins exchange. *)
Inductive ty : Set := TyBool | TyInt | TyDouble | TyString | TyVectorNd.

Global Instance ty_eq_dec : EqDecision ty.
Proof. solve_decision. Defined.

Definition ty_denote (t : ty) : Type :=
  match t with
  | TyBool => bool
  | TyInt => Z
  | TyDouble => double
  | TyString => string
  | TyVectorNd => VectorNd
  end.

Definition any : Type := { t : ty & ty_denote t }.

(** [boost::any_cast<T>]: [None] is [bad_any_cast]. *)
Definition any_cast (T : ty) (operand : any) : option (ty_denote T) :=
  match decide (projT1 operand = T) with
  | left e => Some (eq_rect (projT1 operand) ty_denote (projT2 operand) T e)
  | right _ => None
  end.

Record Robot : Type := mkRobot {
  controller_phase : ControllerPhase;
  _data_map : gmap string any;
  _id_contacts_map : gmap string (list contact_t);
  _state : gmap unit_e (gmap string VectorNd);
  _base_state : gmap unit_e VectorNd;
  _foot_state : gmap unit_e (gmap string Origin3d);
  _foot_is_set : gmap string bool;
  _id_dof_coord_map : gmap string (list Z);
  _link_ids : list string;
  _joint_ids : list string;
  _foot_ids : list string;
  NUM_JOINT_DOFS : nat;
}.

Abbreviation Rob := (Exec Robot) (only parsing).

Definition with_controller_phase (p : ControllerPhase) (r : Robot) : Robot :=
  mkRobot p (_data_map r) (_id_contacts_map r) (_state r) (_base_state r)
    (_foot_state r) (_foot_is_set r) (_id_dof_coord_map r) (_link_ids r)
    (_joint_ids r) (_foot_ids r) (NUM_JOINT_DOFS r).

Definition with_data_map (d : gmap string any) (r : Robot) : Robot :=
  mkRobot (controller_phase r) d (_id_contacts_map r) (_state r) (_base_state r)
    (_foot_state r) (_foot_is_set r) (_id_dof_coord_map r) (_link_ids r)
    (_joint_ids r) (_foot_ids r) (NUM_JOINT_DOFS r).

Definition with_id_contacts_map (c : gmap string (list contact_t)) (r : Robot) : Robot :=
  mkRobot (controller_phase r) (_data_map r) c (_state r) (_base_state r)
    (_foot_state r) (_foot_is_set r) (_id_dof_coord_map r) (_link_ids r)
    (_joint_ids r) (_foot_ids r) (NUM_JOINT_DOFS r).

Definition with_state (s : gmap unit_e (gmap string VectorNd)) (r : Robot) : Robot :=
  mkRobot (controller_phase r) (_data_map r) (_id_contacts_map r) s (_base_state r)
    (_foot_state r) (_foot_is_set r) (_id_dof_coord_map r) (_link_ids r)
    (_joint_ids r) (_foot_ids r) (NUM_JOINT_DOFS r).

Definition with_foot_state (s : gmap unit_e (gmap string Origin3d)) (r : Robot) : Robot :=
  mkRobot (controller_phase r) (_data_map r) (_id_contacts_map r) (_state r) (_base_state r)
    s (_foot_is_set r) (_id_dof_coord_map r) (_link_ids r)
    (_joint_ids r) (_foot_ids r) (NUM_JOINT_DOFS r).

Definition with_foot_is_set (s : gmap string bool) (r : Robot) : Robot :=
  mkRobot (controller_phase r) (_data_map r) (_id_contacts_map r) (_state r) (_base_state r)
    (_foot_state r) s (_id_dof_coord_map r) (_link_ids r)
    (_joint_ids r) (_foot_ids r) (NUM_JOINT_DOFS r).

Definition with_id_dof_coord_map (d : gmap string (list Z)) (r : Robot) : Robot :=
  mkRobot (controller_phase r) (_data_map r) (_id_contacts_map r) (_state r) (_base_state r)
    (_foot_state r) (_foot_is_set r) d (_link_ids r)
    (_joint_ids r) (_foot_ids r) (NUM_JOINT_DOFS r).

(** The constructor [Robot()] leaves every container empty and sets the
    phase; the kinematic tables are filled by [compile()], which is given
    here as the tables it produces. *)
Definition Robot_new (links joints feet : list string)
    (dofs : gmap string (list Z)) (ndofs : nat) : Robot :=
  mkRobot INITIALIZATION ∅ ∅ ∅ ∅ ∅ ∅ dofs links joints feet ndofs.

(** ** Generic helpers for the containers *)

(** [m[k]] on a [std::map]: a missing key is first inserted with a
    value-initialised entry, and the entry is returned. *)
Definition map_index `{Countable K} {V : Type} (dflt : V) (m : gmap K V) (k : K)
    : V * gmap K V :=
  match m !! k with
  | Some v => (v, m)
  | None => (dflt, <[k := dflt]> m)
  end.

(** The keys of a [std::map<std::string,V>] in iteration order. *)
Definition keys_in_order {V : Type} (m : gmap string V) : list string :=
  merge_sort String.le (fst <$> map_to_list m).

(** A loop that threads a local variable through its body. *)
Fixpoint foldM {S A B} (body : B -> A -> Exec S B) (xs : list A) (b : B) : Exec S B :=
  match xs with
  | [] => ret b
  | x :: xs' => b' <- body b x ;; foldM body xs' b'
  end.

(** ** The phase controller *)

Definition reset_phase : Rob unit :=
  modify (with_controller_phase PERCEPTION).

Definition increment_phase (phase : ControllerPhase) : Rob unit :=
  if bool_decide (phase = INCREMENT) then
    cp <- gets controller_phase ;;
    match cp with
    | INITIALIZATION => modify (with_controller_phase PERCEPTION)
    | WAITING => throw PhaseViolation
    | PERCEPTION => modify (with_controller_phase PLANNING)
    | PLANNING => modify (with_controller_phase CONTROL)
    | CONTROL => modify (with_controller_phase WAITING)
    | INCREMENT => throw PhaseViolation
    end
  else
    modify (with_controller_phase phase).

(** Enforce that values are only being assigned during the correct phase. *)
Definition check_phase (u : unit_e) : Rob unit :=
  cp <- gets controller_phase ;;
  match u with
  | initialization =>
      if bool_decide (cp <> INITIALIZATION) && bool_decide (cp <> WAITING)
      then throw PhaseViolation
      else ret tt
  | misc_sensor | position | velocity | acceleration | load =>
      if bool_decide (cp <> PERCEPTION) && bool_decide (cp <> INITIALIZATION)
         && bool_decide (cp <> WAITING)
      then throw PhaseViolation
      else ret tt
  | misc_planner | position_goal | velocity_goal | acceleration_goal =>
      if bool_decide (cp <> PLANNING) && bool_decide (cp <> INITIALIZATION)
         && bool_decide (cp <> WAITING)
      then
        if bool_decide (cp = PERCEPTION) then increment_phase PLANNING
        else throw PhaseViolation
      else ret tt
  | misc_controller | load_goal =>
      if bool_decide (cp <> CONTROL) && bool_decide (cp <> INITIALIZATION)
         && bool_decide (cp <> WAITING)
      then
        if bool_decide (cp = PLANNING) then increment_phase CONTROL
        else if bool_decide (cp = PERCEPTION) then increment_phase CONTROL
        else throw PhaseViolation
      else ret tt
  | clean_up =>
      if bool_decide (cp <> WAITING) && bool_decide (cp <> INITIALIZATION)
      then throw PhaseViolation
      else ret tt
  end.

(** ** The generic data map *)

Definition remove_data (n : string) : Rob unit :=
  modify (fun r => with_data_map (delete n (_data_map r)) r).

(** [get_data<T>(n)] *)
Definition get_data (T : ty) (n : string) : Rob (ty_denote T) :=
  d <- gets _data_map ;;
  match d !! n with
  | Some operand =>
      match any_cast T operand with
      | Some v => ret v
      | None => throw TypeMismatch
      end
  | None => throw KeyNotFound
  end.

(** [get_data<T>(n, val)]: get data we're not sure exists; [false], and
    [val] untouched, when it does not. *)
Definition get_data_try (T : ty) (n : string) (val : ty_denote T)
    : Rob (bool * ty_denote T) :=
  fun r => match get_data T n r with
           | (Ret v, r') => (Ret (true, v), r')
           | (Throw _, r') => (Ret (false, val), r')
           end.

(** ** Contacts *)

Definition create_contact (id : string) (point normal tangent impulse : Vector3d)
    (mu_coulomb mu_viscous restitution : double) (compliant : bool) : contact_t :=
  mkContact id point normal tangent impulse mu_coulomb mu_viscous restitution compliant.

(** [_id_contacts_map[id].push_back(c)] *)
Definition contacts_push_back (id : string) (c : contact_t) : Rob unit :=
  modify (fun r =>
    let '(cs, m) := map_index [] (_id_contacts_map r) id in
    with_id_contacts_map (<[id := cs ++ [c]]> m) r).

Definition add_contact (id : string) (point normal tangent impulse : Vector3d)
    (mu_coulomb mu_viscous restitution : double) (compliant : bool) : Rob unit :=
  check_phase misc_sensor ;;
  contacts_push_back id
    (create_contact id point normal tangent impulse mu_coulomb mu_viscous
       restitution compliant).

(** [add_contact(boost::shared_ptr<const contact_t>& c)] *)
Definition add_contact_ptr (c : contact_t) : Rob unit :=
  check_phase misc_sensor ;;
  contacts_push_back (id c) c.

Definition get_contacts : Rob (gmap string (list contact_t)) :=
  gets _id_contacts_map.

(** [_id_contacts_map[link_id]] *)
Definition contacts_index (link_id : string) : Rob (list contact_t) :=
  fun r =>
    let '(cs, m) := map_index [] (_id_contacts_map r) link_id in
    (Ret cs, with_id_contacts_map m r).

(** [get_all_contacts(contacts)]: appends to the caller's vector and returns
    its new size. *)
Definition get_all_contacts (contacts : list contact_t) : Rob (list contact_t * nat) :=
  links <- gets _link_ids ;;
  contacts' <- foldM (fun acc link => c <- contacts_index link ;; ret (acc ++ c))
                 links contacts ;;
  ret (contacts', length contacts').

Definition get_link_contacts (link_id : string) : Rob (list contact_t) :=
  contacts_index link_id.

Definition reset_contact : Rob unit :=
  check_phase clean_up ;;
  modify (with_id_contacts_map ∅).

(** ** The joint state store *)

(** [_id_dof_coord_map[id]] *)
Definition dof_index (id : string) : Rob (list Z) :=
  fun r =>
    let '(dof, m) := map_index [] (_id_dof_coord_map r) id in
    (Ret dof, with_id_dof_coord_map m r).

Definition get_joint_dofs (id : string) : Rob nat :=
  dof <- dof_index id ;;
  ret (length dof).

(** [_state[u]] *)
Definition state_unit_index (u : unit_e) : Rob (gmap string VectorNd) :=
  fun r =>
    let '(inner, outer) := map_index ∅ (_state r) u in
    (Ret inner, with_state outer r).

(** [_state[u][id]] *)
Definition state_index (u : unit_e) (id : string) : Rob VectorNd :=
  inner <- state_unit_index u ;;
  fun r =>
    let '(v, inner') := map_index [] inner id in
    (Ret v, with_state (<[u := inner']> (_state r)) r).

(** Assignment through the reference [_state[u][id]] obtained before. *)
Definition state_assign (u : unit_e) (id : string) (v : VectorNd) : Rob unit :=
  modify (fun r =>
    with_state (<[u := <[id := v]> (default ∅ (_state r !! u))]> (_state r)) r).

(** [double get_joint_value(id, u, dof)] *)
Definition get_joint_value_dof (id : string) (u : unit_e) (dof : Z) : Rob double :=
  v <- state_index u id ;;
  match vec_at v dof with
  | Some x => ret x
  | None => throw InvalidIndex
  end.

(** [Ravelin::VectorNd get_joint_value(id, u)] *)
Definition get_joint_value (id : string) (u : unit_e) : Rob VectorNd :=
  state_index u id.

(** [void get_joint_value(id, u, Ravelin::VectorNd& dof_val)]: the caller's
    vector is assigned the entry; the result is what it holds on return. *)
Definition get_joint_value_into (id : string) (u : unit_e) (dof_val : VectorNd)
    : Rob VectorNd :=
  state_index u id.

(** [void get_joint_value(id, u, std::vector<double>& dof_val)]: the
    caller's vector is resized to the rows of the entry and filled
    coordinate by coordinate. *)
Definition get_joint_value_std (id : string) (u : unit_e) (dof_val : list double)
    : Rob (list double) :=
  dof <- state_index u id ;;
  foldM (fun (out : list double) (i : nat) =>
           match dof !! i with
           | Some x => ret (<[i := x]> out)
           | None => throw InvalidIndex
           end)
        (seq 0 (length dof)) (resize (length dof) d0 dof_val).

(** [void set_joint_value(id, u, dof, val)] *)
Definition set_joint_value_dof (id : string) (u : unit_e) (dof : Z) (val : double)
    : Rob unit :=
  check_phase u ;;
  v <- state_index u id ;;
  match vec_store v dof val with
  | Some v' => state_assign u id v'
  | None => throw InvalidIndex
  end.

(** [void set_joint_value(id, u, const Ravelin::VectorNd& dof_val)] *)
Definition set_joint_value (id : string) (u : unit_e) (dof_val : VectorNd) : Rob unit :=
  check_phase u ;;
  dof <- state_index u id ;;
  if bool_decide (length dof <> length dof_val) then throw DOFMismatch
  else state_assign u id dof_val.

(** The body of the loop of [set_joint_generalized_value] for the joint
    [key]: [dof_val] is the reference [_state[u][key]], so each assignment
    to [dof_val[j]] is a write to the store. *)
Definition scatter_joint (u : unit_e) (generalized_vec : VectorNd) (key : string)
    : Rob unit :=
  dof <- dof_index key ;;
  dof_val <- state_index u key ;;
  if bool_decide (length dof <> length dof_val) then throw DOFMismatch
  else
    foldM (fun (dof_val : VectorNd) (j : nat) =>
             match dof !! j with
             | None => throw InvalidIndex
             | Some k =>
                 match vec_at generalized_vec k with
                 | None => throw InvalidIndex
                 | Some x =>
                     state_assign u key (<[j := x]> dof_val) ;;
                     ret (<[j := x]> dof_val)
                 end
             end)
          (seq 0 (length dof)) dof_val ;;
    ret tt.

(** [void set_joint_generalized_value(u, generalized_vec)] *)
Definition set_joint_generalized_value (u : unit_e) (generalized_vec : VectorNd)
    : Rob unit :=
  check_phase u ;;
  n <- gets NUM_JOINT_DOFS ;;
  if bool_decide (length generalized_vec <> n) then throw DOFMismatch
  else
    keys <- gets _joint_ids ;;
    for_each (scatter_joint u generalized_vec) keys.

(** The body of the loop of [get_joint_generalized_value] for the entry
    [(id, dof_val)] of [_state[u]]. *)
Definition gather_joint (generalized_vec : VectorNd) (id : string) (dof_val : VectorNd)
    : Rob VectorNd :=
  dof <- dof_index id ;;
  foldM (fun (g : VectorNd) (j : nat) =>
           match dof !! j, dof_val !! j with
           | Some k, Some x =>
               match vec_store g k x with
               | Some g' => ret g'
               | None => throw InvalidIndex
               end
           | _, _ => throw InvalidIndex
           end)
        (seq 0 (length dof_val)) generalized_vec.

(** [Ravelin::VectorNd get_joint_generalized_value(u)] *)
Definition get_joint_generalized_value (u : unit_e) : Rob VectorNd :=
  n <- gets NUM_JOINT_DOFS ;;
  inner <- state_unit_index u ;;
  foldM (fun g id => gather_joint g id (default [] (inner !! id)))
        (keys_in_order inner) (set_zero n).

(** [init_state()] and [reset_state()] *)
Definition state_units : list unit_e :=
  [position; position_goal; velocity; velocity_goal;
   acceleration; acceleration_goal; load; load_goal].

Definition zero_feet (u : unit_e) : Rob unit :=
  foot_keys <- gets _foot_ids ;;
  for_each (fun foot =>
    modify (fun r =>
      with_foot_is_set (<[foot := false]> (_foot_is_set r))
        (with_foot_state
           (<[u := <[foot := Origin3d_zero]> (default ∅ (_foot_state r !! u))]>
              (_foot_state r)) r))) foot_keys.

Definition zero_joints (u : unit_e) : Rob unit :=
  keys <- gets _joint_ids ;;
  for_each (fun key =>
    N <- get_joint_dofs key ;;
    state_index u key ;;
    state_assign u key (set_zero N)) keys.

Definition init_state : Rob unit :=
  check_phase initialization ;;
  reset_contact ;;
  for_each (fun u =>
    modify (fun r => with_foot_state (<[u := ∅]> (_foot_state r)) r) ;;
    zero_feet u ;;
    modify (fun r => with_state (<[u := ∅]> (_state r)) r) ;;
    zero_joints u) state_units.

Definition reset_state : Rob unit :=
  check_phase clean_up ;;
  reset_contact ;;
  for_each (fun u => zero_feet u ;; zero_joints u) state_units.

(** ** Dense vectors and matrices (the interface of Moby's VectorN and MatrixN
    that estimatefrict.cpp uses) *)

(** [Moby::VectorN] *)
Abbreviation Vec := (list double) (only parsing).

(** [Moby::MatrixN]: the dimensions and the elements, row by row. *)
Record Mat : Type := mkMat {
  rows : nat;
  columns : nat;
  elts : list (list double);
}.

(** The elements fill the dimensions. *)
Definition mat_wf (M : Mat) : Prop :=
  length (elts M) = rows M /\ Forall (fun row => length row = columns M) (elts M).

(** [M.set_zero(r, c)] *)
Definition mat_zero (r c : nat) : Mat := mkMat r c (replicate r (replicate c d0)).

(** [M(i,j)] as a value; [None] outside the matrix. *)
Definition mat_get (M : Mat) (i j : nat) : option double :=
  elts M !! i ≫= (.!! j).

(** [M(i,j) = x]; [None] outside the matrix. *)
Definition mat_set (M : Mat) (i j : nat) (x : double) : option Mat :=
  if bool_decide (i < rows M) && bool_decide (j < columns M)
  then Some (mkMat (rows M) (columns M) (alter (<[j := x]>) i (elts M)))
  else None.

(** [M.negate()], [v.negate()] *)
Definition mat_negate (M : Mat) : Mat :=
  mkMat (rows M) (columns M) ((fun row : list double => dneg <$> row) <$> elts M).
Definition vec_negate (v : Vec) : Vec := dneg <$> v.

(** [Mat::transpose(A, AT)] *)
Definition mat_transpose (A : Mat) : Mat :=
  mkMat (columns A) (rows A)
    ((fun j => (fun row => default d0 (row !! j)) <$> elts A) <$> seq 0 (columns A)).

(** [v.resize(n)]: the library leaves the elements unspecified; the model
    keeps those it has and fills with zeros. *)
Definition vec_resize (v : Vec) (n : nat) : Vec :=
  take n v ++ replicate (n - length v) d0.

(** [w.set_sub_vec(start, v)]; [None] when [v] does not fit. *)
Definition set_sub_vec (start : nat) (v w : Vec) : option Vec :=
  if bool_decide (start + length v <= length w)
  then Some (take start w ++ v ++ drop (start + length v) w)
  else None.

(** [v.get_sub_vec(start, stop)] *)
Definition get_sub_vec (start stop : nat) (v : Vec) : option Vec :=
  if bool_decide (start <= stop) && bool_decide (stop <= length v)
  then Some (take (stop - start) (drop start v))
  else None.

(** [M.get_sub_mat(r0, r1, c0, c1)] *)
Definition get_sub_mat (r0 r1 c0 c1 : nat) (M : Mat) : option Mat :=
  if bool_decide (r0 <= r1) && bool_decide (r1 <= rows M)
     && bool_decide (c0 <= c1) && bool_decide (c1 <= columns M)
  then Some (mkMat (r1 - r0) (c1 - c0)
               ((fun row => take (c1 - c0) (drop c0 row))
                  <$> take (r1 - r0) (drop r0 (elts M))))
  else None.

(** [A.set_row(i, v)] *)
Definition set_row (i : nat) (v : Vec) (A : Mat) : option Mat :=
  if bool_decide (i < rows A) && bool_decide (length v = columns A)
  then Some (mkMat (rows A) (columns A) (<[i := v]> (elts A)))
  else None.

(** [A.set_sub_mat(r0, c0, B)] *)
Definition set_sub_mat (r0 c0 : nat) (B A : Mat) : option Mat :=
  if bool_decide (r0 + rows B <= rows A) && bool_decide (c0 + columns B <= columns A)
  then Some (mkMat (rows A) (columns A)
               (imap (fun i row =>
                        if bool_decide (r0 <= i) && bool_decide (i < r0 + rows B)
                        then take c0 row
                             ++ default [] (elts B !! (i - r0))
                             ++ drop (c0 + columns B) row
                        else row) (elts A)))
  else None.

(** Sums of products are accumulated from the left, starting from zero. *)
Definition dot (a b : Vec) : double :=
  foldl (fun acc xy => dadd acc (dmul xy.1 xy.2)) d0 (zip a b).

(** [M.mult(v, result)] *)
Definition mat_mult_vec (M : Mat) (v : Vec) : option Vec :=
  if bool_decide (columns M = length v)
  then Some ((fun row => dot row v) <$> elts M)
  else None.

(** [R.transpose_mult(v, result)] *)
Definition transpose_mult_vec (R : Mat) (v : Vec) : option Vec :=
  if bool_decide (rows R = length v)
  then mat_mult_vec (mat_transpose R) v
  else None.

(** [R.transpose_mult(S, result)] *)
Definition transpose_mult_mat (R S : Mat) : option Mat :=
  if bool_decide (rows R = rows S)
  then Some (mkMat (columns R) (columns S)
               ((fun rcol => (fun scol => dot rcol scol) <$> elts (mat_transpose S))
                  <$> elts (mat_transpose R)))
  else None.

(** [a - b], [a -= b], [a += b] *)
Definition vec_sub (a b : Vec) : option Vec :=
  if bool_decide (length a = length b)
  then Some (zip_with dsub a b) else None.
Definition vec_add (a b : Vec) : option Vec :=
  if bool_decide (length a = length b)
  then Some (zip_with dadd a b) else None.

(** [v *= s] *)
Definition vec_scale (s : double) (v : Vec) : Vec := (fun x => dmul x s) <$> v.

(** [v.norm()] *)
Definition vec_norm (v : Vec) : double := dsqrt (dot v v).

(** The conversion of an integer to [double]. *)
Definition double_of_Z (z : Z) : double := binary_normalize prec emax z 0 false.

(** [std::numeric_limits<double>::epsilon()] *)
Definition epsilon : double := S754_finite false 4503599627370496 (-104).

(** [sqrt(-1)] *)
Definition sqrt_minus_one : double := dsqrt dm1.

(** An [option] from the library becomes the library's exception. *)
Definition lift {S A} (e : exn) (o : option A) : Exec S A :=
  match o with
  | Some a => ret a
  | None => throw e
  end.

(** A computation on a local variable, inside a computation on [S]. *)
Definition on_local {S L} (m : Exec L unit) (l : L) : Exec S L :=
  fun s => match m l with
           | (Ret _, l') => (Ret l', s)
           | (Throw e, _) => (Throw e, s)
           end.

(** ** estimatefrict.cpp *)

(** [void setblock(Mat& M, int I, int J, int P, int Q, const Mat& m)] *)
Definition setblock (I J P Q : nat) (m : Mat) : Exec Mat unit :=
  for_each (fun i =>
    for_each (fun j =>
      x <- lift InvalidIndex (mat_get m i j) ;;
      MM <- gets (fun MM : Mat => MM) ;;
      MM' <- lift InvalidIndex (mat_set MM (I + i) (J + j) x) ;;
      modify (fun _ => MM')) (seq 0 Q)) (seq 0 P).

(** [M(i,j) = x] on the matrix that a loop works on. *)
Definition mat_store (i j : nat) (x : double) : Exec Mat unit :=
  MM <- gets (fun MM : Mat => MM) ;;
  MM' <- lift InvalidIndex (mat_set MM i j x) ;;
  modify (fun _ => MM').

(** The reference arguments of [solve_qp]. *)
Record qp_refs : Type := mkQp {
  qp_Q : Mat;
  qp_c : Vec;
  qp_A : Mat;
  qp_b : Vec;
  qp_x : Vec;
}.

(** The objects that [friction_estimation] keeps or writes: its statics
    [ITER], [v_] and [f_], the global [first], and the caller's [MU] and
    [cf]. *)
Record fe_refs : Type := mkFe {
  ITER : Z;
  v_ : Vec;
  f_ : Vec;
  first : bool;
  MU : Mat;
  cf : Vec;
}.

(** Lines 162-173: [ST] holds the columns [S] and [T] of [D], without the
    negated ones. *)
Definition fill_ST (D : Mat) (nc ngc nk : nat) : Exec Mat unit :=
  for_each (fun i =>
    for_each (fun j =>
      s <- lift InvalidIndex (mat_get D j (i * nk)) ;;
      mat_store j i s ;;
      t <- lift InvalidIndex (mat_get D j (i * nk + 1)) ;;
      mat_store j (nc + i) t) (seq 0 ngc)) (seq 0 nc).

(** Lines 252-254: the number of trailing singular values that are not
    above the tolerance; [rs] is [S] from its last element to its first. *)
Fixpoint count_zero_singular (tol : double) (rs : list double) (m : nat) : nat :=
  match rs with
  | [] => m
  | x :: rs' => if dltb tol x then m else count_zero_singular tol rs' (S m)
  end.

(** Lines 267-347: the Stage-II program in [w], built from the null-space
    basis [P], the vector [c] as the caller holds it, and [z]. *)
Definition stage_II_problem (P : Mat) (c z : Vec) (nc m : nat) : option qp_refs :=
  cN ← get_sub_vec 0 nc z ;
  P_nc ← get_sub_mat 0 nc 0 m P ;
  Q2 ← transpose_mult_mat P P ;
  c2 ← transpose_mult_vec P z ;
  let A := mat_zero (nc + 1) m in
  let b := set_zero (nc + 1) in
  cP ← transpose_mult_vec P c ;
  A ← set_row 0 cP A ;
  let b := <[0 := d0]> b in
  A ← set_sub_mat 1 0 P_nc A ;
  let cN := vec_negate cN in
  b ← set_sub_vec 1 cN b ;
  Some (mkQp Q2 c2 A b (set_zero m)).

(** Lines 383-391: the coefficient of each contact. *)
Definition estimate_mu (nc : nat) : Exec fe_refs unit :=
  for_each (fun i =>
    cf0 <- gets cf ;;
    cn <- lift InvalidIndex (cf0 !! i) ;;
    (if dltb d0 cn then
       bs <- lift InvalidIndex (cf0 !! (nc + i)) ;;
       bt <- lift InvalidIndex (cf0 !! (nc * 2 + i)) ;;
       MU0 <- gets MU ;;
       MU1 <- lift InvalidIndex
                (mat_set MU0 i 0 (ddiv (dsqrt (dadd (dmul bs bs) (dmul bt bt))) cn)) ;;
       modify (fun s => mkFe (ITER s) (v_ s) (f_ s) (first s) MU1 (cf s))
     else
       MU0 <- gets MU ;;
       MU1 <- lift InvalidIndex (mat_set MU0 i 0 sqrt_minus_one) ;;
       modify (fun s => mkFe (ITER s) (v_ s) (f_ s) (first s) MU1 (cf s))) ;;
    (* the values that are printed *)
    lift InvalidIndex (cf0 !! (i + nc)) ;;
    lift InvalidIndex (cf0 !! (i + nc * 2)) ;;
    ret tt) (seq 0 nc).

Section estimatefrict.

(** [Moby::Optimization::lcp_lemke_regularized(MMM, qqq, zzz)]: its verdict
    and the vector it leaves in [zzz]. *)
Variable lcp_lemke_regularized : Mat -> Vec -> Vec -> bool * Vec.

(** [Moby::LinAlg::svd(Q, U, S, V)] *)
Variable svd : Mat -> Mat * Vec * Mat.

(** [extern Vec cf_moby] *)
Variable cf_moby : Vec.

Definition solve_qp : Exec qp_refs bool :=
  Q <- gets qp_Q ;;
  A <- gets qp_A ;;
  let n := rows Q in
  let m := rows A in
  modify (fun s => mkQp (qp_Q s) (qp_c s) (qp_A s) (qp_b s) (vec_resize (qp_x s) n)) ;;
  (* setup the LCP matrix *)
  let MMM := mat_zero (rows Q * 2 + rows A) (rows Q * 2 + rows A) in
  MMM <- on_local (setblock 0 0 n n Q) MMM ;;
  MMM <- on_local (setblock n n n n Q) MMM ;;
  modify (fun s => mkQp (mat_negate (qp_Q s)) (qp_c s) (qp_A s) (qp_b s) (qp_x s)) ;;
  Q <- gets qp_Q ;;
  MMM <- on_local (setblock 0 n n n Q) MMM ;;
  MMM <- on_local (setblock n 0 n n Q) MMM ;;
  (* setup linear inequality constraints in LCP matrix *)
  let AT := mat_transpose A in
  MMM <- on_local (setblock n (n * 2) n m AT) MMM ;;
  let AT := mat_negate AT in
  MMM <- on_local (setblock 0 (n * 2) n m AT) MMM ;;
  MMM <- on_local (setblock (n * 2) 0 m n A) MMM ;;
  modify (fun s => mkQp (qp_Q s) (qp_c s) (mat_negate (qp_A s)) (qp_b s) (qp_x s)) ;;
  A <- gets qp_A ;;
  MMM <- on_local (setblock (n * 2) n m n A) MMM ;;
  (* setup LCP vector *)
  let qqq := vec_resize [] (rows MMM) in
  c <- gets qp_c ;;
  qqq <- lift Missize (set_sub_vec 0 c qqq) ;;
  modify (fun s => mkQp (qp_Q s) (vec_negate (qp_c s)) (qp_A s) (qp_b s) (qp_x s)) ;;
  c <- gets qp_c ;;
  qqq <- lift Missize (set_sub_vec n c qqq) ;;
  modify (fun s => mkQp (qp_Q s) (qp_c s) (qp_A s) (vec_negate (qp_b s)) (qp_x s)) ;;
  b <- gets qp_b ;;
  qqq <- lift Missize (set_sub_vec (2 * n) b qqq) ;;
  (* solve the LCP *)
  let zzz := set_zero (length qqq) in
  let '(solved, zzz) := lcp_lemke_regularized MMM qqq zzz in
  let SOLVE_FLAG := if solved then true else false in
  (* extract x *)
  for_each (fun i =>
    zi <- lift InvalidIndex (zzz !! i) ;;
    zni <- lift InvalidIndex (zzz !! (n + i)) ;;
    x <- gets qp_x ;;
    if bool_decide (i < length x)
    then modify (fun s => mkQp (qp_Q s) (qp_c s) (qp_A s) (qp_b s)
                            (<[i := dsub zi zni]> (qp_x s)))
    else throw InvalidIndex) (seq 0 n) ;;
  ret SOLVE_FLAG.

(** Lines 105-199: the impulse error [jstar] and the Stage-I program
    [min |R z - jstar|^2] with [A z >= b] on the normal impulses.  The
    matrix [R] is declared without initial values; the model starts it at
    zero. *)
Definition stage_I_problem (v : Vec) (dt : double) (N D M : Mat)
    : Exec fe_refs (Mat * Vec * qp_refs) :=
  let nc := columns N in
  f0 <- gets f_ ;;
  let ngc := length f0 in
  let nk := columns D / nc in
  modify (fun s => mkFe (ITER s) (v_ s) (f_ s) (first s) (MU s)
                     (vec_resize (cf s) (nc + nc * (nk / 2)))) ;;
  v0 <- gets v_ ;;
  dv <- lift Missize (vec_sub v v0) ;;
  (* effective force (t-1 ==> t) *)
  jstar <- lift Missize (mat_mult_vec M dv) ;;
  (* acting force (last timestep) *)
  modify (fun s => mkFe (ITER s) (v_ s) (vec_scale dt (f_ s)) (first s) (MU s) (cf s)) ;;
  f1 <- gets f_ ;;
  (* error in impulse (obs - exp) = err *)
  jstar <- lift Missize (vec_sub jstar f1) ;;
  ST <- on_local (fill_ST D nc ngc nk) (mat_zero (rows D) (columns D / 2)) ;;
  let n := columns N + columns ST in
  let R := mat_zero ngc n in
  R <- on_local (setblock 0 0 (rows N) (columns N) N) R ;;
  R <- on_local (setblock 0 (columns N) (rows ST) (columns ST) ST) R ;;
  (* Q = R'R *)
  Q <- lift Missize (transpose_mult_mat R R) ;;
  (* c = R' M (v_{t} - v_{t-1}) *)
  c <- lift Missize (transpose_mult_vec R jstar) ;;
  let c := vec_negate c in
  let A := mat_zero nc n in
  let b := set_zero nc in
  A <- on_local (for_each (fun i => mat_store i i d1) (seq 0 nc)) A ;;
  let z := set_zero n in
  ret (R, jstar, mkQp Q c A b z).

(** Lines 239-259: the null space of [Q] from its singular value
    decomposition. *)
Definition nullspace (Q : Mat) : Exec fe_refs (nat * Mat) :=
  let '(U, Sv, V) := svd Q in
  match Sv with
  | [] => ret (0, mkMat 0 0 [])
  | S0 :: _ =>
      let ZERO_TOL := dmul (dmul epsilon (double_of_Z (Z.of_nat (rows Q)))) S0 in
      let m := count_zero_singular ZERO_TOL (reverse Sv) 0 in
      if bool_decide (m <= columns V) then
        P <- lift Missize (get_sub_mat 0 (rows V) (columns V - m) (columns V) V) ;;
        ret (m, P)
      else throw Missize
  end.

(** Lines 204-232 and 239-370: what follows a successful Stage-I solve, on
    the variables [Q], [c] and [z] as [solve_qp] left them.  It yields the
    final [z] and the error norm. *)
Definition stage_II (R : Mat) (jstar : Vec) (Q : Mat) (c z : Vec) (nc : nat)
    : Exec fe_refs (Vec * double) :=
  err <- lift Missize (mat_mult_vec R z) ;;
  err <- lift Missize (vec_sub err jstar) ;;
  let norm_error := vec_norm err in
  (* test against the force of the simulator *)
  err <- lift Missize (mat_mult_vec R cf_moby) ;;
  err <- lift Missize (vec_sub err jstar) ;;
  let norm_error := vec_norm err in
  mP <- nullspace Q ;;
  let m := mP.1 in
  let P := mP.2 in
  if bool_decide (m <> 0) then
    problem <- lift Missize (stage_II_problem P c z nc m) ;;
    match solve_qp problem with
    | (Throw e, _) => throw e
    | (Ret false, _) => ret (z, norm_error)
    | (Ret true, after) =>
        let w := qp_x after in
        z2 <- lift Missize (mat_mult_vec P w) ;;
        z <- lift Missize (vec_add z z2) ;;
        err <- lift Missize (mat_mult_vec R z) ;;
        err <- lift Missize (vec_sub err jstar) ;;
        ret (z, vec_norm err)
    end
  else ret (z, norm_error).

(** Lines 94-372: the contact impulses [z] and the error norm. *)
Definition contact_impulses (v : Vec) (dt : double) (N D M : Mat)
    : Exec fe_refs (Vec * double) :=
  modify (fun s => mkFe (ITER s + 1)%Z (v_ s) (f_ s) (first s) (MU s) (cf s)) ;;
  problem <- stage_I_problem v dt N D M ;;
  let R := problem.1.1 in
  let jstar := problem.1.2 in
  match solve_qp problem.2 with
  | (Throw e, _) => throw e
  | (Ret false, after) => ret (qp_x after, dm1)
  | (Ret true, after) =>
      stage_II R jstar (qp_Q after) (qp_c after) (qp_x after) (columns N)
  end.

(** [double friction_estimation(v, f, dt, N, D, M, post_event, MU, cf)] *)
Definition friction_estimation (v f : Vec) (dt : double) (N D M : Mat)
    (post_event : bool) : Exec fe_refs double :=
  let nc := columns N in
  norm_error <-
    (if post_event then
       norm_error <-
         (if bool_decide (0 < nc) then
            zn <- contact_impulses v dt N D M ;;
            modify (fun s => mkFe (ITER s) (v_ s) (f_ s) (first s) (MU s) zn.1) ;;
            estimate_mu nc ;;
            ret zn.2
          else ret dm1) ;;
       modify (fun s => mkFe (ITER s) v (f_ s) (first s) (MU s) (cf s)) ;;
       ret norm_error
     else
       modify (fun s => mkFe (ITER s) (v_ s) f (first s) (MU s) (cf s)) ;;
       ret dm1) ;;
  modify (fun s => mkFe (ITER s) (v_ s) (f_ s) false (MU s) (cf s)) ;;
  ret norm_error.

End estimatefrict.

(** * [Robot::compile()] (src/robot.cc) *)

Module MobyRobot.

(** What [compile()] reads of a [Moby::Joint]: its name, the rows of its
    coordinate vector [q] (none for a fixed joint) and its coordinate
    index. *)
Record joint : Type := mkJoint {
  joint_id : string;
  q_rows : nat;
  coord_index : nat;
}.

(** The members that [compile()] writes.  An element of [joints_] is a
    shared pointer, null until a joint is stored in it. *)
Record t : Type := mk {
  joints_ : list (option joint);
  joint_names_ : list string;
  NUM_FIXED_JOINTS : nat;
  links_ : list string;
}.

(** [std::vector::resize(n)]: the elements kept, new ones null. *)
Definition resize (js : list (option joint)) (n : nat) : list (option joint) :=
  take n js ++ replicate (n - length js) None.

(** The first loop: a fixed joint is counted, a movable one is stored at its
    coordinate index. *)
Definition place (j : joint) : Exec t unit :=
  if bool_decide (q_rows j = 0) then
    modify (fun s => mk (joints_ s) (joint_names_ s) (NUM_FIXED_JOINTS s + 1) (links_ s))
  else
    js <- gets joints_ ;;
    if bool_decide (coord_index j < length js) then
      modify (fun s => mk (<[coord_index j := Some j]> (joints_ s)) (joint_names_ s)
                          (NUM_FIXED_JOINTS s) (links_ s))
    else throw InvalidIndex.

(** The second loop: the name of the joint at index [i]; a null pointer
    cannot be read. *)
Definition name_at (i : nat) : Exec t unit :=
  js <- gets joints_ ;;
  match js !! i with
  | Some (Some j) =>
      if bool_decide (q_rows j = 0) then ret tt
      else modify (fun s => mk (joints_ s) (joint_names_ s ++ [joint_id j])
                               (NUM_FIXED_JOINTS s) (links_ s))
  | _ => throw InvalidIndex
  end.

(** [void Robot::compile()], for the joints and links that the articulated
    body reports. *)
Definition compile (joints : list joint) (links : list string) : Exec t unit :=
  modify (fun s => mk (resize (joints_ s) (length joints)) (joint_names_ s)
                      (NUM_FIXED_JOINTS s) (links_ s)) ;;
  modify (fun s => mk (joints_ s) (joint_names_ s) 0 (links_ s)) ;;
  for_each place joints ;;
  js <- gets joints_ ;;
  fixed <- gets NUM_FIXED_JOINTS ;;
  for_each name_at (seq 0 (length js - fixed)) ;;
  (* Set up link references *)
  modify (fun s => mk (joints_ s) (joint_names_ s) (NUM_FIXED_JOINTS s) links).

(** A robot on which [compile()] has not run. *)
Definition fresh : t := mk [] [] 0 [].

End MobyRobot.

(** * More of the state store of [Pacer::Robot] (robot.h) *)

(** [static const unsigned NSPATIAL = 6, NEULER = 7] *)
Definition NSPATIAL : nat := 6.
Definition NEULER : nat := 7.

Definition with_base_state (b : gmap unit_e VectorNd) (r : Robot) : Robot :=
  mkRobot (controller_phase r) (_data_map r) (_id_contacts_map r) (_state r) b
    (_foot_state r) (_foot_is_set r) (_id_dof_coord_map r) (_link_ids r)
    (_joint_ids r) (_foot_ids r) (NUM_JOINT_DOFS r).

(** ** Joint values, a map at a time *)

(** [void set_joint_value(unit_e u, const std::map<std::string,
    Ravelin::VectorNd>& id_dof_val_map)].  This overload does not call
    [check_phase]. *)
Definition set_joint_value_map (u : unit_e) (id_dof_val_map : gmap string VectorNd)
    : Rob unit :=
  for_each (fun key =>
    dof_val_internal <- state_index u key ;;
    let dof_val := default [] (id_dof_val_map !! key) in
    if bool_decide (length dof_val_internal <> length dof_val)
    then throw DOFMismatch
    else state_assign u key dof_val)
    (keys_in_order id_dof_val_map).

(** [void get_joint_value(unit_e u, std::map<std::string,Ravelin::VectorNd>&
    id_dof_val_map)]: the entries of the joints of [_joint_ids], written
    into the caller's map. *)
Definition get_joint_value_map (u : unit_e) (id_dof_val_map : gmap string VectorNd)
    : Rob (gmap string VectorNd) :=
  keys <- gets _joint_ids ;;
  foldM (fun (m : gmap string VectorNd) key =>
           dof_val_internal <- state_index u key ;;
           ret (<[key := dof_val_internal]> m))
        keys id_dof_val_map.

(** ** Conversions between maps of joint values and generalized vectors *)

(** [void convert_to_generalized(const std::map<std::string,
    Ravelin::VectorNd>& id_dof_val_map, Ravelin::VectorNd& generalized_vec)] *)
Definition convert_to_generalized (id_dof_val_map : gmap string VectorNd)
    : Rob VectorNd :=
  n <- gets NUM_JOINT_DOFS ;;
  foldM (fun (generalized_vec : VectorNd) key =>
           dof <- dof_index key ;;
           let dof_val := default [] (id_dof_val_map !! key) in
           if bool_decide (length dof <> length dof_val) then throw DOFMismatch
           else
             foldM (fun (g : VectorNd) (j : nat) =>
                      match dof !! j, dof_val !! j with
                      | Some k, Some x =>
                          match vec_store g k x with
                          | Some g' => ret g'
                          | None => throw InvalidIndex
                          end
                      | _, _ => throw InvalidIndex
                      end)
                   (seq 0 (length dof_val)) generalized_vec)
        (keys_in_order id_dof_val_map) (set_zero n).

(** [std::vector<K> get_map_keys(const std::map<K,V>& m)] *)
Definition get_map_keys {V : Type} (m : gmap string V) : list string :=
  keys_in_order m.

(** [void convert_from_generalized(const Ravelin::VectorNd& generalized_vec,
    std::map<std::string,Ravelin::VectorNd>& id_dof_val_map)].  [resize]
    keeps the elements the entry has and fills with zeros; every element is
    then overwritten. *)
Definition convert_from_generalized (generalized_vec : VectorNd)
    (id_dof_val_map : gmap string VectorNd) : Rob (gmap string VectorNd) :=
  n <- gets NUM_JOINT_DOFS ;;
  if bool_decide (length generalized_vec <> n) then throw DOFMismatch
  else
    keys <- gets (fun r => get_map_keys (_id_dof_coord_map r)) ;;
    foldM (fun (m : gmap string VectorNd) key =>
             dof <- dof_index key ;;
             let dof_val := default [] (m !! key) in
             let dof_val := take (length dof) dof_val
                            ++ replicate (length dof - length dof_val) d0 in
             dof_val <-
               foldM (fun (dof_val : VectorNd) (j : nat) =>
                        match dof !! j with
                        | None => throw InvalidIndex
                        | Some k =>
                            match vec_at generalized_vec k with
                            | None => throw InvalidIndex
                            | Some x => ret (<[j := x]> dof_val)
                            end
                        end)
                     (seq 0 (length dof)) dof_val ;;
             ret (<[key := dof_val]> m))
          keys id_dof_val_map.

(** ** The base *)

(** [void set_base_value(unit_e u, const Ravelin::VectorNd& vec)] *)
Definition set_base_value (u : unit_e) (vec : VectorNd) : Rob unit :=
  check_phase u ;;
  match u with
  | position_goal | position =>
      if bool_decide (length vec <> NEULER) then throw DOFMismatch else ret tt
  | _ =>
      if bool_decide (length vec <> NSPATIAL) then throw DOFMismatch else ret tt
  end ;;
  modify (fun r => with_base_state (<[u := vec]> (_base_state r)) r).

(** [Ravelin::VectorNd get_base_value(unit_e u)], which reads
    [_base_state[u]]. *)
Definition get_base_value (u : unit_e) : Rob VectorNd :=
  fun r =>
    let '(vec, m) := map_index [] (_base_state r) u in
    (Ret vec, with_base_state m r).

(** ** Joints and base together *)

(** [void set_generalized_value(unit_e u, const Ravelin::VectorNd&
    generalized_vec)]; [segment(a, b)] is the sub-vector from [a] up to, not
    including, [b]. *)
Definition set_generalized_value (u : unit_e) (generalized_vec : VectorNd)
    : Rob unit :=
  check_phase u ;;
  n <- gets NUM_JOINT_DOFS ;;
  match u with
  | position_goal | position =>
      base <- lift InvalidIndex (get_sub_vec n (n + NEULER) generalized_vec) ;;
      set_base_value u base
  | _ =>
      base <- lift InvalidIndex (get_sub_vec n (n + NSPATIAL) generalized_vec) ;;
      set_base_value u base
  end ;;
  joints <- lift InvalidIndex (get_sub_vec 0 n generalized_vec) ;;
  set_joint_generalized_value u joints.

(** [Ravelin::VectorNd get_generalized_value(unit_e u)] *)
Definition get_generalized_value (u : unit_e) : Rob VectorNd :=
  n <- gets NUM_JOINT_DOFS ;;
  let generalized_vec :=
    match u with
    | position_goal | position => set_zero (n + NEULER)
    | _ => set_zero (n + NSPATIAL)
    end in
  joints <- get_joint_generalized_value u ;;
  generalized_vec <- lift Missize (set_sub_vec 0 joints generalized_vec) ;;
  base <- get_base_value u ;;
  lift Missize (set_sub_vec n base generalized_vec).

(** ** The feet *)

(** [_foot_state[u]] *)
Definition foot_unit_index (u : unit_e) : Rob (gmap string Origin3d) :=
  fun r =>
    let '(inner, outer) := map_index ∅ (_foot_state r) u in
    (Ret inner, with_foot_state outer r).

(** [void set_foot_value(const std::string& id, unit_e u, const
    Ravelin::Origin3d& val)] *)
Definition set_foot_value (id : string) (u : unit_e) (val : Origin3d) : Rob unit :=
  check_phase u ;;
  inner <- foot_unit_index u ;;
  modify (fun r => with_foot_state (<[u := <[id := val]> inner]> (_foot_state r)) r) ;;
  modify (fun r => with_foot_is_set (<[id := true]> (_foot_is_set r)) r).

(** [Ravelin::Origin3d get_foot_value(const std::string& id, unit_e u)],
    which reads [_foot_state[u][id]]. *)
Definition get_foot_value (id : string) (u : unit_e) : Rob Origin3d :=
  inner <- foot_unit_index u ;;
  fun r =>
    let '(val, inner') := map_index Origin3d_zero inner id in
    (Ret val, with_foot_state (<[u := inner']> (_foot_state r)) r).

(** The body of the loop of the map overload of [set_foot_value] for the
    entry [key] of [val]: [find] in [_foot_state[u]], and a write when the
    foot is there. *)
Definition set_foot_value_entry (u : unit_e) (val : gmap string Origin3d)
    (key : string) : Rob unit :=
  inner <- foot_unit_index u ;;
  match inner !! key with
  | Some _ =>
      modify (fun r =>
        with_foot_state (<[u := <[key := default Origin3d_zero (val !! key)]> inner]>
                           (_foot_state r)) r) ;;
      modify (fun r => with_foot_is_set (<[key := true]> (_foot_is_set r)) r)
  | None => ret tt
  end.

(** [void set_foot_value(unit_e u, const std::map<std::string,
    Ravelin::Origin3d>& val)]: only the feet that [_foot_state[u]] already
    holds are written. *)
Definition set_foot_value_map (u : unit_e) (val : gmap string Origin3d) : Rob unit :=
  check_phase u ;;
  for_each (set_foot_value_entry u val) (keys_in_order val).

(** [std::map<std::string,Ravelin::Origin3d> get_foot_value(unit_e u)] *)
Definition get_foot_value_map (u : unit_e) : Rob (gmap string Origin3d) :=
  inner <- foot_unit_index u ;;
  ret (foldl (fun (val : gmap string Origin3d) key =>
                <[key := default Origin3d_zero (inner !! key)]> val)
             ∅ (keys_in_order inner)).

Definition get_foot_ids : Rob (list string) := gets _foot_ids.

(** ** A small robot used in the examples

    Two joints, ["hip"] with the generalized coordinate 0 and ["knee"] with
    the coordinates 1 and 2, two links and one foot. *)
Definition example_dofs : gmap string (list Z) :=
  <["hip" := [0%Z]]> (<["knee" := [1%Z; 2%Z]]> ∅).

Definition example_robot : Robot :=
  Robot_new ["body"; "foot"] ["hip"; "knee"] ["foot"] example_dofs 3.

(** The robot after [init_state()]: still in INITIALIZATION. *)
Definition example_initialised : Robot := snd (init_state example_robot).

(** ... and after the end of the initialisation: PERCEPTION. *)
Definition example_perceiving : Robot :=
  snd (increment_phase INCREMENT example_initialised).

Definition example_planning : Robot :=
  snd (increment_phase INCREMENT example_perceiving).

Definition example_controlling : Robot :=
  snd (increment_phase INCREMENT example_planning).

Definition example_waiting : Robot :=
  snd (increment_phase INCREMENT example_controlling).

(** A robot whose tables leave the generalized coordinate 3 to no joint,
    initialised and in PERCEPTION. *)
Definition example_uncovered : Robot :=
  snd (increment_phase INCREMENT
         (snd (init_state
                 (Robot_new ["body"; "foot"] ["hip"; "knee"] ["foot"]
                    example_dofs 4)))).

Definition example_contact (link : string) (x : double) : contact_t :=
  create_contact link (mkOrigin3d x d0 d0) (mkOrigin3d d0 d0 d1)
    (mkOrigin3d d1 d0 d0) Origin3d_zero d1 d0 d0 false.

(** The robot at the start of the next tick: the contacts are cleared in
    WAITING and the phase is reset. *)
Definition example_next_tick : Robot :=
  snd (reset_phase (snd (reset_contact example_waiting))).

Definition example_contacts : list contact_t :=
  [example_contact "foot" d1; example_contact "body" d0; example_contact "foot" d0].

(** A small quadratic program, [min x^2/2 - x] subject to [x >= 0], and a
    solver that answers with the solution [z = (1, 0, 0)] of its LCP. *)
Definition example_qp : qp_refs :=
  mkQp (mkMat 1 1 [[d1]]) [dm1] (mkMat 1 1 [[d1]]) [d0] [].

Definition example_lemke (MMM : Mat) (qqq zzz : Vec) : bool * Vec :=
  (true, [d1; d0; d0]).

(** One contact on a body with six generalized coordinates: the normal is
    the first coordinate axis and the tangents are the second and third;
    unit inertia; the velocity changes by (1, -1, 0, 0, 0, 0) over the
    event and no external force acts. *)
Definition unit_column (n k : nat) (x : double) : list (list double) :=
  (fun i => [if bool_decide (i = k) then x else d0]) <$> seq 0 n.

Definition example_N : Mat := mkMat 6 1 (unit_column 6 0 d1).

Definition example_D : Mat :=
  mkMat 6 4
    (zip_with app (unit_column 6 1 d1)
       (zip_with app (unit_column 6 2 d1)
          (zip_with app (unit_column 6 1 dm1) (unit_column 6 2 dm1)))).

Definition example_M : Mat :=
  mkMat 6 6 ((fun i => (fun j => if bool_decide (i = j) then d1 else d0) <$> seq 0 6)
               <$> seq 0 6).

Definition example_v : Vec := [d1; dm1; d0; d0; d0; d0].

Definition example_fe : fe_refs :=
  mkFe 0 (set_zero 6) (set_zero 6) true (mat_zero 1 2) [].

(** A solver that answers the Stage-I program of the example with the
    solution [z+ = (1, 0, 0)], [z- = (0, 1, 0)], multiplier 0, of its LCP. *)
Definition example_lemke_I (MMM : Mat) (qqq zzz : Vec) : bool * Vec :=
  (true, [d1; d0; d0; d0; d1; d0; d0]).

(** A decomposition of a matrix of full rank three: no null space. *)
Definition example_svd (Q : Mat) : Mat * Vec * Mat :=
  let I3 := mkMat 3 3 [[d1; d0; d0]; [d0; d1; d0]; [d0; d0; d1]] in
  (I3, [d1; d1; d1], I3).

Definition example_dt : double := S754_finite false 5764607523034235 (-59).

(** The simulator's impulses for the example contact. *)
Definition example_cf_moby : Vec := [d1; dm1; d0].

(** The estimator's variables after one post-event call on the example. *)
Definition example_estimated : fe_refs :=
  Eval vm_compute in
    (friction_estimation example_lemke_I example_svd example_cf_moby
       example_v [] example_dt example_N example_D example_M true example_fe).2.



(** A solver that fails and leaves the start vector as it is, and the
    estimator's variables after a post-event call with it. *)
Definition example_lemke_failing (MMM : Mat) (qqq zzz : Vec) : bool * Vec :=
  (false, zzz).

Definition example_failed : fe_refs :=
  Eval vm_compute in
    (friction_estimation example_lemke_failing example_svd example_cf_moby
       example_v [] example_dt example_N example_D example_M true example_fe).2.

(** The example robot with one entry in the data map, a string. *)
Definition example_datum : any := existT TyString "trot".
Definition example_with_data : Robot :=
  with_data_map {["gait" := example_datum]} example_robot.

(** The joints of a leg as the articulated body may report them: out of
    order, with a fixed joint in between. *)
Definition example_joints : list MobyRobot.joint :=
  [MobyRobot.mkJoint "knee" 1 1; MobyRobot.mkJoint "weld" 0 0;
   MobyRobot.mkJoint "hip" 1 0].

(** ** Vocabulary of the statements *)

(** The phases in which [check_phase u] returns, with the phase it leaves
    the controller in; [None] where it throws. *)
Definition phase_after_check (u : unit_e) (cp : ControllerPhase)
    : option ControllerPhase :=
  match u, cp with
  | initialization, (INITIALIZATION | WAITING) => Some cp
  | (misc_sensor | position | velocity | acceleration | load),
    (PERCEPTION | INITIALIZATION | WAITING) => Some cp
  | (misc_planner | position_goal | velocity_goal | acceleration_goal),
    (PLANNING | INITIALIZATION | WAITING) => Some cp
  | (misc_planner | position_goal | velocity_goal | acceleration_goal),
    PERCEPTION => Some PLANNING
  | (misc_controller | load_goal), (CONTROL | INITIALIZATION | WAITING) => Some cp
  | (misc_controller | load_goal), (PLANNING | PERCEPTION) => Some CONTROL
  | clean_up, (WAITING | INITIALIZATION) => Some cp
  | _, _ => None
  end.

(** The entry of the store for [(u, id)], empty when there is none. *)
Definition state_entry (r : Robot) (u : unit_e) (id : string) : option VectorNd :=
  _state r !! u ≫= (.!! id).

(** The operations that move the controller phase. *)
Inductive phase_op : Set :=
| op_check (u : unit_e)
| op_increment (phase : ControllerPhase)
| op_reset.

Definition run_phase_op (o : phase_op) : Rob unit :=
  match o with
  | op_check u => check_phase u
  | op_increment phase => increment_phase phase
  | op_reset => reset_phase
  end.

(** Operation [o] takes a controller in phase [p] to phase [p'] without
    raising. *)
Definition accepts (o : phase_op) (p p' : ControllerPhase) : Prop :=
  forall r : Robot, controller_phase r = p ->
    exists r', run_phase_op o r = (Ret tt, r') /\ controller_phase r' = p'.

(** Adding the contacts of a list, one call of [add_contact] each. *)
Definition add_contacts (cs : list contact_t) : Rob unit :=
  for_each (fun c =>
    add_contact (id c) (point c) (normal c) (tangent c) (impulse c)
      (mu_coulomb c) (mu_viscous c) (restitution c) (compliant c)) cs.

(** The contacts of a list that lie on a link, in their order. *)
Definition contacts_on (link : string) (cs : list contact_t) : list contact_t :=
  filter (fun c => id c = link) cs.

(** The generalized coordinates of a joint, none for an unknown joint. *)
Definition dofs_of (r : Robot) (id : string) : list Z :=
  default [] (_id_dof_coord_map r !! id).

(** The kinematic tables as [compile()] leaves them: the coordinates of the
    joints of [_joint_ids] lie below NUM_JOINT_DOFS and cover it, and no
    joint outside [_joint_ids] owns a coordinate. *)
Record model_wf (r : Robot) : Prop := {
  wf_in_range : forall id k, id ∈ _joint_ids r -> k ∈ dofs_of r id ->
                  (0 <= k < Z.of_nat (NUM_JOINT_DOFS r))%Z;
  wf_cover : forall i, i < NUM_JOINT_DOFS r ->
               exists id, id ∈ _joint_ids r /\ Z.of_nat i ∈ dofs_of r id;
  wf_known : forall id, dofs_of r id <> [] -> id ∈ _joint_ids r;
}.

(** Every joint entry of unit [u] in the store is sized to the joint's DOF
    count, and every joint of [_joint_ids] with a coordinate has one. *)
Definition store_sized (r : Robot) (u : unit_e) : Prop :=
  forall id, (id ∈ _joint_ids r \/ is_Some (state_entry r u id)) ->
    length (default [] (state_entry r u id)) = length (dofs_of r id).

(** The values a generalized vector holds at the coordinates of a joint. *)
Definition select (v : VectorNd) (dof : list Z) : VectorNd :=
  (fun k => default d0 (vec_at v k)) <$> dof.

(** Two robots with the same kinematic tables. *)
Definition same_model (r r' : Robot) : Prop :=
  (forall id, dofs_of r' id = dofs_of r id)
  /\ _joint_ids r' = _joint_ids r
  /\ NUM_JOINT_DOFS r' = NUM_JOINT_DOFS r.

(** The LCP data of the reduction, in the words of the specification: the
    block matrix [[Q, -Q, -A'], [-Q, Q, A'], [A, -A, 0]] for Q of size n x n
    and A of size m x n, and the vector [c, -c, -b]. *)
Definition lcp_matrix (Q A : Mat) (i j : nat) : double :=
  let n := rows Q in
  let q i j := default d0 (mat_get Q i j) in
  let a i j := default d0 (mat_get A i j) in
  if i <? n then
    if j <? n then q i j
    else if j <? n * 2 then dneg (q i (j - n))
    else dneg (a (j - n * 2) i)
  else if i <? n * 2 then
    if j <? n then dneg (q (i - n) j)
    else if j <? n * 2 then q (i - n) (j - n)
    else a (j - n * 2) (i - n)
  else
    if j <? n then a (i - n * 2) j
    else if j <? n * 2 then dneg (a (i - n * 2) (j - n))
    else d0.

Definition lcp_vector (c b : Vec) : Vec :=
  c ++ vec_negate c ++ vec_negate b.

(** [x_i = z_i - z_{n+i}] for [i < n]. *)
Definition lcp_extract (n : nat) (zzz : Vec) : Vec :=
  (fun i => dsub (default d0 (zzz !! i)) (default d0 (zzz !! (n + i)))) <$> seq 0 n.

(** The coefficient of friction of a contact with normal impulse [cn] and
    tangential impulses [bs] and [bt], as the estimator derives it. *)
Definition mu_value (cn bs bt : double) : double :=
  if dltb d0 cn
  then ddiv (dsqrt (dadd (dmul bs bs) (dmul bt bt))) cn
  else sqrt_minus_one.

(** A computation leaves a component of the state as it found it, whether
    it returns or throws. *)
Definition preserves {S A X : Type} (proj : S -> X) (m : Exec S A) : Prop :=
  forall s o s', m s = (o, s') -> proj s' = proj s.

(** The rows a base vector of unit [u] has: seven for a pose (position and
    quaternion), six for a spatial vector. *)
Definition base_rows (u : unit_e) : nat :=
  match u with
  | position | position_goal => NEULER
  | _ => NSPATIAL
  end.

(** The entry of the foot store for [(u, id)]. *)
Definition foot_entry (r : Robot) (u : unit_e) (id : string) : option Origin3d :=
  _foot_state r !! u ≫= (.!! id).

(** What the operations on the joint store leave alone: every member but
    the phase, the joint store and the table of coordinates (which a read
    of an unknown joint extends by an empty entry). *)
Definition beside_joint_store (r : Robot) :=
  (_data_map r, _id_contacts_map r, _base_state r, _foot_state r,
   _foot_is_set r, _link_ids r, _joint_ids r, _foot_ids r, NUM_JOINT_DOFS r).

(** What the operations on the foot store leave alone. *)
Definition beside_foot_store (r : Robot) :=
  (controller_phase r, _data_map r, _id_contacts_map r, _state r, _base_state r,
   _id_dof_coord_map r, _link_ids r, _joint_ids r, _foot_ids r, NUM_JOINT_DOFS r).

(** The movable joints of a list, those with a coordinate. *)
Definition movable (joints : list MobyRobot.joint) : list MobyRobot.joint :=
  filter (fun j => MobyRobot.q_rows j <> 0) joints.

(** The name of the joint stored at an index of [joints_]. *)
Definition name_of (js : list (option MobyRobot.joint)) (i : nat) : string :=
  match js !! i with
  | Some (Some j) => MobyRobot.joint_id j
  | _ => ""
  end.

(** * Properties *)

(** Closed decidable facts are settled by evaluation. *)
Ltac by_evaluation :=
  refine (bool_decide_unpack _ _); vm_compute; exact I.
Ltac refute_by_evaluation H :=
  apply (bool_decide_pack _) in H; vm_compute in H; destruct H.
Ltac settle_closed :=
  first [ reflexivity
        | discriminate
        | by_evaluation
        | match goal with H : _ |- _ => solve [refute_by_evaluation H] end ].

(** ** The phase controller *)

Section monad_laws.
Context {S A B : Type}.

Lemma bind_run (m : Exec S A) (k : A -> Exec S B) (s : S) :
  bind m k s =
    match m s with
    | (Ret a, s') => k a s'
    | (Throw e, s') => (Throw e, s')
    end.
Proof. reflexivity. Qed.

Lemma bind_ret (m : Exec S A) (k : A -> Exec S B) (s s' : S) (a : A) :
  m s = (Ret a, s') -> bind m k s = k a s'.
Proof. intros H. by rewrite bind_run, H. Qed.

Lemma bind_throw (m : Exec S A) (k : A -> Exec S B) (s s' : S) (e : exn) :
  m s = (Throw e, s') -> bind m k s = (Throw e, s').
Proof. intros H. by rewrite bind_run, H. Qed.

End monad_laws.

Section phase_controller.

Lemma with_controller_phase_same (r : Robot) :
  with_controller_phase (controller_phase r) r = r.
Proof. by destruct r. Qed.

Lemma check_phase_run (u : unit_e) (r : Robot) :
  check_phase u r =
    match phase_after_check u (controller_phase r) with
    | Some p => (Ret tt, with_controller_phase p r)
    | None => (Throw PhaseViolation, r)
    end.
Proof.
  destruct r as [cp ? ? ? ? ? ? ? ? ? ? ?].
  unfold check_phase, bind, gets; cbn.
  destruct cp, u; reflexivity.
Qed.

End phase_controller.

(** ** Writes of single joint values *)

Section joint_writes.

Lemma state_entry_with_controller_phase (p : ControllerPhase) (r : Robot) u id :
  state_entry (with_controller_phase p r) u id = state_entry r u id.
Proof. reflexivity. Qed.

(** [_state[u][id]] returns the entry, empty when it was missing, and
    leaves an entry behind. *)
Lemma state_index_run (u : unit_e) (id : string) (r : Robot) :
  exists r',
    state_index u id r = (Ret (default [] (state_entry r u id)), r')
    /\ state_entry r' u id = Some (default [] (state_entry r u id))
    /\ controller_phase r' = controller_phase r
    /\ _id_contacts_map r' = _id_contacts_map r
    /\ _id_dof_coord_map r' = _id_dof_coord_map r
    /\ _joint_ids r' = _joint_ids r
    /\ NUM_JOINT_DOFS r' = NUM_JOINT_DOFS r
    /\ (forall u' id', (u', id') <> (u, id) ->
          state_entry r' u' id' = state_entry r u' id').
Proof.
  unfold state_index, state_unit_index, bind, map_index, state_entry.
  destruct (_state r !! u) as [inner|] eqn:Hu; cbn.
  - destruct (inner !! id) as [v|] eqn:Hid; cbn.
    + eexists; split; [reflexivity|]; cbn.
      rewrite lookup_insert_eq; cbn. rewrite Hid.
      repeat split; try done.
      intros u' id' Hne. destruct (decide (u' = u)) as [->|Hu'].
      * rewrite lookup_insert_eq, Hu. done.
      * by rewrite lookup_insert_ne.
    + eexists; split; [reflexivity|]; cbn.
      rewrite lookup_insert_eq; cbn. rewrite lookup_insert_eq.
      repeat split; try done.
      intros u' id' Hne. destruct (decide (u' = u)) as [->|Hu'].
      * rewrite lookup_insert_eq, Hu; cbn.
        rewrite lookup_insert_ne; [done|congruence].
      * by rewrite lookup_insert_ne.
  - rewrite lookup_empty; cbn.
    eexists; split; [reflexivity|]; cbn.
    rewrite lookup_insert_eq; cbn. rewrite lookup_insert_eq.
    repeat split; try done.
    intros u' id' Hne. destruct (decide (u' = u)) as [->|Hu'].
    + rewrite lookup_insert_eq, Hu; cbn.
      rewrite lookup_insert_ne; [|congruence]. by rewrite lookup_empty.
    + rewrite lookup_insert_ne; [|done]. by rewrite lookup_insert_ne.
Qed.

Lemma state_assign_run (u : unit_e) (id : string) (v : VectorNd) (r : Robot) :
  exists r',
    state_assign u id v r = (Ret tt, r')
    /\ state_entry r' u id = Some v
    /\ controller_phase r' = controller_phase r
    /\ _id_contacts_map r' = _id_contacts_map r
    /\ _id_dof_coord_map r' = _id_dof_coord_map r
    /\ _joint_ids r' = _joint_ids r
    /\ NUM_JOINT_DOFS r' = NUM_JOINT_DOFS r
    /\ (forall u' id', (u', id') <> (u, id) ->
          state_entry r' u' id' = state_entry r u' id').
Proof.
  unfold state_assign, modify, state_entry.
  eexists; split; [reflexivity|]; cbn.
  rewrite lookup_insert_eq; cbn. rewrite lookup_insert_eq.
  repeat split; try done.
  intros u' id' Hne. destruct (decide (u' = u)) as [->|Hu'].
  - rewrite lookup_insert_eq; cbn.
    rewrite lookup_insert_ne; [|congruence].
    by destruct (_state r !! u).
  - by rewrite lookup_insert_ne.
Qed.

(** What a write of one value does, by the phase and by the index. *)
Lemma set_joint_value_dof_run (id : string) (u : unit_e) (dof : Z) (val : double)
    (r : Robot) :
  match phase_after_check u (controller_phase r) with
  | None => set_joint_value_dof id u dof val r = (Throw PhaseViolation, r)
  | Some p =>
      match vec_store (default [] (state_entry r u id)) dof val with
      | None =>
          fst (set_joint_value_dof id u dof val r) = Throw InvalidIndex
          /\ controller_phase (snd (set_joint_value_dof id u dof val r)) = p
      | Some v' =>
          fst (set_joint_value_dof id u dof val r) = Ret tt
          /\ controller_phase (snd (set_joint_value_dof id u dof val r)) = p
          /\ state_entry (snd (set_joint_value_dof id u dof val r)) u id = Some v'
      end
  end.
Proof.
  unfold set_joint_value_dof. rewrite bind_run, check_phase_run.
  destruct (phase_after_check u (controller_phase r)) as [p|]; [|reflexivity].
  rewrite bind_run.
  destruct (state_index_run u id (with_controller_phase p r))
    as (r1 & -> & He & Hp & _).
  rewrite state_entry_with_controller_phase.
  destruct (vec_store (default [] (state_entry r u id)) dof val) as [v'|].
  - destruct (state_assign_run u id v' r1) as (r2 & -> & He2 & Hp2 & _).
    cbn. rewrite Hp2, Hp. by repeat split.
  - cbn. by rewrite Hp.
Qed.

End joint_writes.

(** ** The transitions of the phase state machine *)

Section phase_transitions.

Lemma increment_phase_run (phase : ControllerPhase) (r : Robot) :
  increment_phase phase r =
    if bool_decide (phase = INCREMENT) then
      match controller_phase r with
      | INITIALIZATION => (Ret tt, with_controller_phase PERCEPTION r)
      | PERCEPTION => (Ret tt, with_controller_phase PLANNING r)
      | PLANNING => (Ret tt, with_controller_phase CONTROL r)
      | CONTROL => (Ret tt, with_controller_phase WAITING r)
      | WAITING | INCREMENT => (Throw PhaseViolation, r)
      end
    else (Ret tt, with_controller_phase phase r).
Proof.
  unfold increment_phase. case_bool_decide; [|reflexivity].
  rewrite bind_run; cbn. by destruct (controller_phase r).
Qed.

Lemma accepts_in_phase (o : phase_op) (p p' : ControllerPhase) :
  accepts o p p' <->
  exists r', run_phase_op o (with_controller_phase p example_robot) = (Ret tt, r')
             /\ controller_phase r' = p'.
Proof.
  split.
  - intros H. by apply H.
  - intros (r0 & Hrun & Hp) r Hr. subst p.
    destruct o as [u|q|]; cbn [run_phase_op] in *.
    + rewrite check_phase_run in *. cbn in Hrun.
      destruct (phase_after_check u (controller_phase r)); [|done].
      eexists; split; [done|]. by simplify_eq.
    + rewrite increment_phase_run in *. cbn in Hrun.
      case_bool_decide.
      * destruct (controller_phase r); simplify_eq; by eexists.
      * eexists; split; [done|]. by simplify_eq.
    + eexists; split; [done|]. unfold reset_phase, modify in Hrun. by simplify_eq.
Qed.

Lemma accepts_increment (p p' : ControllerPhase) :
  accepts (op_increment INCREMENT) p p' <->
  (p, p') ∈ [(INITIALIZATION, PERCEPTION); (PERCEPTION, PLANNING);
             (PLANNING, CONTROL); (CONTROL, WAITING)].
Proof.
  rewrite accepts_in_phase. cbn [run_phase_op]. rewrite increment_phase_run.
  rewrite bool_decide_eq_true_2 by done. cbn. split.
  - intros (r' & Hrun & Hp). destruct p; simplify_eq; by_evaluation.
  - intros H. destruct p, p'; try (refute_by_evaluation H); by eexists.
Qed.

Lemma accepts_explicit_target (p p' : ControllerPhase) :
  p' <> INCREMENT -> accepts (op_increment p') p p'.
Proof.
  intros Hne. rewrite accepts_in_phase. cbn [run_phase_op]. rewrite increment_phase_run.
  rewrite bool_decide_eq_false_2 by done. by eexists.
Qed.

Lemma accepts_reset (p : ControllerPhase) : accepts op_reset p PERCEPTION.
Proof. rewrite accepts_in_phase. by eexists. Qed.

Lemma accepts_check (p p' : ControllerPhase) :
  p <> p' ->
  ((exists u, accepts (op_check u) p p') <->
   (p, p') ∈ [(PERCEPTION, PLANNING); (PLANNING, CONTROL); (PERCEPTION, CONTROL)]).
Proof.
  intros Hne. split.
  - intros (u & H). rewrite accepts_in_phase in H. destruct H as (r' & Hrun & Hp).
    cbn [run_phase_op] in Hrun. rewrite check_phase_run in Hrun. cbn in Hrun.
    destruct u, p; cbn in Hrun; simplify_eq; cbn in Hne; try done; by_evaluation.
  - intros H. destruct p, p'; try (refute_by_evaluation H).
    + exists position_goal. rewrite accepts_in_phase. by eexists.
    + exists load_goal. rewrite accepts_in_phase. by eexists.
    + exists load_goal. rewrite accepts_in_phase. by eexists.
Qed.

End phase_transitions.

(** C1 (amended).  A write of [load_goal] while the controller is in
    PERCEPTION does not raise: [check_phase] moves the controller straight to
    CONTROL and the value is stored (given an index inside the joint's
    entry).  The phase machine steps by [increment_phase(INCREMENT)] through
    INITIALIZATION -> PERCEPTION -> PLANNING -> CONTROL -> WAITING and raises
    in WAITING; [reset_phase] takes every phase, WAITING included, to
    PERCEPTION; a phase check itself performs PERCEPTION -> PLANNING,
    PLANNING -> CONTROL and PERCEPTION -> CONTROL; and [increment_phase] with
    an explicit target performs any transition. *)
Theorem C1_load_goal_from_perception
    (id : string) (dof : Z) (val : double) (r : Robot) (v' : VectorNd) :
  controller_phase r = PERCEPTION ->
  vec_store (default [] (state_entry r load_goal id)) dof val = Some v' ->
  (fst (set_joint_value_dof id load_goal dof val r) = Ret tt
   /\ controller_phase (snd (set_joint_value_dof id load_goal dof val r)) = CONTROL
   /\ state_entry (snd (set_joint_value_dof id load_goal dof val r)) load_goal id
      = Some v')
  /\ (forall p p',
        accepts (op_increment INCREMENT) p p' <->
        (p, p') ∈ [(INITIALIZATION, PERCEPTION); (PERCEPTION, PLANNING);
                   (PLANNING, CONTROL); (CONTROL, WAITING)])
  /\ (forall p, accepts op_reset p PERCEPTION)
  /\ (forall p p', p <> p' ->
        ((exists u, accepts (op_check u) p p') <->
         (p, p') ∈ [(PERCEPTION, PLANNING); (PLANNING, CONTROL);
                    (PERCEPTION, CONTROL)]))
  /\ (forall p p', p' <> INCREMENT -> accepts (op_increment p') p p').
Proof.
  intros Hp Hstore. split; [|split; [|split; [|split]]].
  - pose proof (set_joint_value_dof_run id load_goal dof val r) as H.
    rewrite Hp in H. cbn [phase_after_check] in H. by rewrite Hstore in H.
  - apply accepts_increment.
  - apply accepts_reset.
  - apply accepts_check.
  - apply accepts_explicit_target.
Qed.

Lemma C1_load_goal_from_perception_witness :
  controller_phase example_perceiving = PERCEPTION
  /\ fst (set_joint_value_dof "hip" load_goal 0 d1 example_perceiving) = Ret tt
  /\ controller_phase
       (snd (set_joint_value_dof "hip" load_goal 0 d1 example_perceiving)) = CONTROL.
Proof.
  split; [reflexivity|].
  assert (Hs : vec_store (default [] (state_entry example_perceiving load_goal "hip"))
                 0 d1 = Some [d1]) by (vm_compute; reflexivity).
  destruct (C1_load_goal_from_perception "hip" 0 d1 example_perceiving [d1]
              eq_refl Hs) as ((H1 & H2 & _) & _).
  exact (conj H1 H2).
Defined.

(** C1 as stated fails: in PERCEPTION the write of [load_goal] returns
    normally, the torque is stored, and the controller has made the
    transition PERCEPTION -> CONTROL, which the claim's list excludes. *)
Lemma C1_counterexample :
  controller_phase example_perceiving = PERCEPTION
  /\ fst (set_joint_value_dof "hip" load_goal 0 d1 example_perceiving)
     <> Throw PhaseViolation
  /\ fst (set_joint_value_dof "hip" load_goal 0 d1 example_perceiving) = Ret tt
  /\ fst (get_joint_value "hip" load_goal
            (snd (set_joint_value_dof "hip" load_goal 0 d1 example_perceiving)))
     = Ret [d1]
  /\ controller_phase
       (snd (set_joint_value_dof "hip" load_goal 0 d1 example_perceiving)) = CONTROL
  /\ fst (increment_phase PLANNING example_controlling) = Ret tt
  /\ controller_phase (snd (increment_phase PLANNING example_controlling)) = PLANNING.
Proof.
  assert (H : fst (set_joint_value_dof "hip" load_goal 0 d1 example_perceiving) = Ret tt)
    by (vm_compute; reflexivity).
  repeat split; try (vm_compute; reflexivity).
  rewrite H. discriminate.
Qed.

(** C2 (amended).  A write of a measured unit (position, velocity,
    acceleration, load) fails with PhaseViolation exactly in PLANNING and
    CONTROL: it passes the phase check in PERCEPTION, INITIALIZATION and
    WAITING.  A write of a goal unit fails with PhaseViolation exactly in
    CONTROL: it passes in PLANNING, INITIALIZATION and WAITING, and in
    PERCEPTION, where the check moves the controller to PLANNING.  A write of
    [load_goal] passes the phase check in each of the five phases (from
    PLANNING and from PERCEPTION the check moves the controller to CONTROL).
    A write that passes the check succeeds when its index lies inside the
    joint's entry. *)
Theorem C2_write_gate_by_phase
    (id : string) (u : unit_e) (dof : Z) (val : double) (r : Robot) :
  let result := fst (set_joint_value_dof id u dof val r) in
  (u ∈ [position; velocity; acceleration; load] ->
     (result = Throw PhaseViolation <->
      controller_phase r ∉ [PERCEPTION; INITIALIZATION; WAITING]))
  /\ (u ∈ [position_goal; velocity_goal; acceleration_goal] ->
        (result = Throw PhaseViolation <->
         controller_phase r ∉ [PLANNING; PERCEPTION; INITIALIZATION; WAITING]))
  /\ (u = load_goal ->
        (result = Throw PhaseViolation <->
         controller_phase r ∉ [CONTROL; PLANNING; PERCEPTION; INITIALIZATION; WAITING]))
  /\ (result = Ret tt <->
      result <> Throw PhaseViolation
      /\ is_Some (vec_store (default [] (state_entry r u id)) dof val)).
Proof.
  cbn zeta.
  pose proof (set_joint_value_dof_run id u dof val r) as H.
  assert (Hgate : fst (set_joint_value_dof id u dof val r) = Throw PhaseViolation
                  <-> phase_after_check u (controller_phase r) = None).
  { destruct (phase_after_check u (controller_phase r)) as [p|].
    - split; [|done].
      destruct (vec_store _ dof val); destruct H as [H _]; rewrite H; done.
    - by rewrite H. }
  split; [|split; [|split]].
  - intros Hu. rewrite Hgate.
    destruct (controller_phase r), u;
      (split; intros E; settle_closed).
  - intros Hu. rewrite Hgate.
    destruct (controller_phase r), u;
      (split; intros E; settle_closed).
  - intros ->. rewrite Hgate.
    destruct (controller_phase r);
      (split; intros E; settle_closed).
  - rewrite Hgate.
    destruct (phase_after_check u (controller_phase r)) as [p|].
    + destruct (vec_store _ dof val) as [w|].
      * destruct H as [H _]. rewrite H. split; [|done].
        intros _. split; [done|by eexists].
      * destruct H as [H _]. rewrite H. split; [done|].
        intros [_ [w Hw]]. done.
    + rewrite H. cbn. split; [done|]. intros [E _]. by destruct E.
Qed.

(** C2 as stated fails: a measured unit is written in INITIALIZATION, a
    goal unit in PERCEPTION, [load_goal] in PLANNING, and a goal unit is
    refused in CONTROL. *)
Lemma C2_counterexample :
  controller_phase example_initialised = INITIALIZATION
  /\ fst (set_joint_value_dof "hip" position 0 d1 example_initialised) = Ret tt
  /\ controller_phase example_perceiving = PERCEPTION
  /\ fst (set_joint_value_dof "hip" position_goal 0 d1 example_perceiving) = Ret tt
  /\ controller_phase example_planning = PLANNING
  /\ fst (set_joint_value_dof "hip" load_goal 0 d1 example_planning) = Ret tt
  /\ controller_phase example_controlling = CONTROL
  /\ fst (set_joint_value_dof "hip" position_goal 0 d1 example_controlling)
     = Throw PhaseViolation.
Proof. repeat split; vm_compute; reflexivity. Qed.

(** ** Reads of the joint store and of the data map *)

(** C10 (amended).  Reading a whole joint vector for a joint id (or unit)
    that has no entry in the state store does not raise: each of the three
    vector overloads of [get_joint_value] leaves a new, empty entry behind
    in the store and returns a vector of length zero, so the read changes
    the robot.  The scalar overload [get_joint_value(id, u, dof)] inserts the
    same empty entry and then raises the index error of the vector library,
    whatever [dof] is.  None of them raises the not-found error that a read
    of the generic data map raises at a missing key. *)
Theorem C10_missing_joint_read_inserts
    (id : string) (u : unit_e) (dof : Z) (dof_val : VectorNd)
    (std_val : list double) (T : ty) (n : string) (r : Robot) :
  state_entry r u id = None ->
  _data_map r !! n = None ->
  (exists r', get_joint_value id u r = (Ret [], r')
              /\ get_joint_value_into id u dof_val r = (Ret [], r')
              /\ get_joint_value_std id u std_val r = (Ret [], r')
              /\ get_joint_value_dof id u dof r = (Throw InvalidIndex, r')
              /\ state_entry r' u id = Some []
              /\ r' <> r)
  /\ get_data T n r = (Throw KeyNotFound, r).
Proof.
  intros Hmiss Hkey. split.
  - destruct (state_index_run u id r) as (r' & Hrun & He & _).
    rewrite Hmiss in Hrun, He. cbn in Hrun, He.
    exists r'. split_and!; [exact Hrun|exact Hrun| | |exact He|].
    + unfold get_joint_value_std. rewrite bind_run, Hrun. cbn [length seq foldM].
      by rewrite resize_0.
    + unfold get_joint_value_dof. rewrite bind_run, Hrun.
      unfold vec_at. by case_bool_decide.
    + intros ->. by rewrite Hmiss in He.
  - unfold get_data. rewrite bind_run. cbn. by rewrite Hkey.
Qed.

Lemma C10_missing_joint_read_inserts_witness :
  state_entry example_initialised position "tail" = None
  /\ fst (get_joint_value "tail" position example_initialised) = Ret []
  /\ fst (get_joint_value_dof "tail" position 0 example_initialised)
     = Throw InvalidIndex
  /\ state_entry (snd (get_joint_value "tail" position example_initialised))
       position "tail" = Some []
  /\ get_data TyDouble "gain" example_initialised
     = (Throw KeyNotFound, example_initialised).
Proof.
  assert (Hmiss : state_entry example_initialised position "tail" = None)
    by (vm_compute; reflexivity).
  assert (Hkey : _data_map example_initialised !! "gain" = None)
    by (vm_compute; reflexivity).
  destruct (C10_missing_joint_read_inserts "tail" position 0 [] [] TyDouble "gain"
              example_initialised Hmiss Hkey)
    as ((r' & Hrun & _ & _ & Hdof & He & _) & Hdata).
  rewrite Hrun, Hdof. cbn [fst snd].
  exact (conj Hmiss (conj eq_refl (conj eq_refl (conj He Hdata)))).
Defined.

(** C10 as stated fails: the read of one coordinate of a joint that has no
    entry raises, after it has inserted the empty entry. *)
Lemma C10_counterexample :
  state_entry example_initialised position "tail" = None
  /\ fst (get_joint_value_dof "tail" position 0 example_initialised)
     = Throw InvalidIndex
  /\ state_entry (snd (get_joint_value_dof "tail" position 0 example_initialised))
       position "tail" = Some [].
Proof. split_and!; vm_compute; reflexivity. Qed.

(** ** The contact map *)

Section contacts.

Implicit Types (r : Robot) (c : contact_t) (cs : list contact_t) (link : string).

Lemma create_contact_eta c :
  create_contact (id c) (point c) (normal c) (tangent c) (impulse c)
    (mu_coulomb c) (mu_viscous c) (restitution c) (compliant c) = c.
Proof. by destruct c. Qed.

Lemma contacts_push_back_run link c r :
  exists r',
    contacts_push_back link c r = (Ret tt, r')
    /\ _id_contacts_map r' !! link
       = Some (default [] (_id_contacts_map r !! link) ++ [c])
    /\ (forall l, l <> link -> _id_contacts_map r' !! l = _id_contacts_map r !! l)
    /\ controller_phase r' = controller_phase r
    /\ _link_ids r' = _link_ids r.
Proof.
  unfold contacts_push_back, modify, map_index.
  destruct (_id_contacts_map r !! link) as [old|] eqn:Hold;
    (eexists; split; [reflexivity|]); cbn.
  - rewrite lookup_insert_eq. split_and!; [done| |done..].
    intros l Hl. by rewrite lookup_insert_ne.
  - rewrite lookup_insert_eq. split_and!; [done| |done..].
    intros l Hl. by rewrite !lookup_insert_ne.
Qed.

Lemma add_contact_ptr_run c r :
  controller_phase r ∈ [PERCEPTION; INITIALIZATION; WAITING] ->
  exists r',
    add_contact_ptr c r = (Ret tt, r')
    /\ _id_contacts_map r' !! id c
       = Some (default [] (_id_contacts_map r !! id c) ++ [c])
    /\ (forall l, l <> id c -> _id_contacts_map r' !! l = _id_contacts_map r !! l)
    /\ controller_phase r' = controller_phase r
    /\ _link_ids r' = _link_ids r.
Proof.
  intros Hp. unfold add_contact_ptr. rewrite bind_run, check_phase_run.
  assert (phase_after_check misc_sensor (controller_phase r)
          = Some (controller_phase r)) as ->
    by (destruct (controller_phase r); settle_closed).
  rewrite with_controller_phase_same.
  apply contacts_push_back_run.
Qed.

Lemma add_contact_as_ptr c :
  add_contact (id c) (point c) (normal c) (tangent c) (impulse c)
    (mu_coulomb c) (mu_viscous c) (restitution c) (compliant c)
  = add_contact_ptr c.
Proof. unfold add_contact, add_contact_ptr. by rewrite create_contact_eta. Qed.

Lemma contacts_on_cons link c cs :
  contacts_on link (c :: cs)
  = if decide (id c = link) then c :: contacts_on link cs else contacts_on link cs.
Proof. unfold contacts_on. by rewrite filter_cons. Qed.

(** After the calls, each link holds what it held before followed by the
    new contacts that lie on it; links without a new contact are untouched. *)
Lemma add_contacts_run cs : forall r,
  controller_phase r ∈ [PERCEPTION; INITIALIZATION; WAITING] ->
  exists r',
    add_contacts cs r = (Ret tt, r')
    /\ controller_phase r' = controller_phase r
    /\ _link_ids r' = _link_ids r
    /\ forall link,
         _id_contacts_map r' !! link =
           match contacts_on link cs with
           | [] => _id_contacts_map r !! link
           | new => Some (default [] (_id_contacts_map r !! link) ++ new)
           end.
Proof.
  induction cs as [|c cs IH]; intros r Hp.
  - exists r. by repeat split.
  - unfold add_contacts. cbn [for_each]. rewrite bind_run, add_contact_as_ptr.
    destruct (add_contact_ptr_run c r Hp) as (r1 & -> & Hnew & Hold & Hp1 & Hl1).
    destruct (IH r1) as (r2 & Hrun & Hp2 & Hl2 & Hmap); [by rewrite Hp1|].
    exists r2. split; [exact Hrun|]. split; [congruence|]. split; [congruence|].
    intros link. rewrite Hmap, contacts_on_cons.
    destruct (decide (id c = link)) as [<-|Hne].
    + rewrite Hnew. cbn. destruct (contacts_on (id c) cs); [done|].
      by rewrite <- app_assoc.
    + rewrite Hold by done. done.
Qed.

Lemma contacts_index_run link r :
  exists r',
    contacts_index link r = (Ret (default [] (_id_contacts_map r !! link)), r')
    /\ (forall l, default [] (_id_contacts_map r' !! l)
                  = default [] (_id_contacts_map r !! l))
    /\ _link_ids r' = _link_ids r.
Proof.
  unfold contacts_index, map_index.
  destruct (_id_contacts_map r !! link) as [old|] eqn:Hold;
    (eexists; split; [reflexivity|]); cbn; split; try done.
  intros l. destruct (decide (l = link)) as [->|Hne].
  - by rewrite lookup_insert_eq, Hold.
  - by rewrite lookup_insert_ne.
Qed.

Lemma gather_contacts_run (f : string -> list contact_t) links : forall acc r,
  (forall l, default [] (_id_contacts_map r !! l) = f l) ->
  exists r',
    foldM (fun acc link => c <- contacts_index link ;; ret (acc ++ c)) links acc r
    = (Ret (acc ++ concat (map f links)), r')
    /\ _link_ids r' = _link_ids r.
Proof.
  induction links as [|link links IH]; intros acc r Hf; cbn [foldM map concat].
  - exists r. by rewrite app_nil_r.
  - rewrite !bind_run.
    destruct (contacts_index_run link r) as (r1 & -> & Hsame & Hl1).
    cbn [ret]. destruct (IH (acc ++ default [] (_id_contacts_map r !! link)) r1)
      as (r2 & -> & Hl2).
    { intros l. by rewrite Hsame. }
    exists r2. rewrite Hf, <- app_assoc. split; [done|congruence].
Qed.

Lemma get_all_contacts_run (f : string -> list contact_t) acc r :
  (forall l, default [] (_id_contacts_map r !! l) = f l) ->
  exists r',
    get_all_contacts acc r
    = (Ret (acc ++ concat (map f (_link_ids r)),
            length (acc ++ concat (map f (_link_ids r)))), r').
Proof.
  intros Hf. unfold get_all_contacts. rewrite bind_run. cbn [gets].
  rewrite bind_run.
  destruct (gather_contacts_run f (_link_ids r) acc r Hf) as (r' & -> & _).
  by exists r'.
Qed.

(** Gathering by link loses and repeats nothing when the links are distinct
    and every contact lies on one of them. *)
Lemma group_by_link_skip c cs links :
  id c ∉ links ->
  concat (map (fun l => contacts_on l (c :: cs)) links)
  = concat (map (fun l => contacts_on l cs) links).
Proof.
  induction links as [|l links IH]; intros Hn; [done|].
  apply not_elem_of_cons in Hn as [Hne Hn]. cbn [map concat].
  rewrite contacts_on_cons, decide_False by done. by rewrite IH.
Qed.

Lemma group_by_link_cons c cs links :
  NoDup links -> id c ∈ links ->
  concat (map (fun l => contacts_on l (c :: cs)) links)
  ≡ₚ c :: concat (map (fun l => contacts_on l cs) links).
Proof.
  induction links as [|l links IH]; intros Hnd Hin.
  - by apply elem_of_nil in Hin.
  - apply NoDup_cons in Hnd as [Hl Hnd]. cbn [map concat]. rewrite contacts_on_cons.
    destruct (decide (id c = l)) as [Heq|Hne].
    + rewrite group_by_link_skip by (by rewrite Heq). done.
    + apply elem_of_cons in Hin as [?|Hin]; [done|].
      rewrite IH by done. by rewrite Permutation_middle.
Qed.

Lemma group_by_link_perm cs links :
  NoDup links -> (forall c, c ∈ cs -> id c ∈ links) ->
  concat (map (fun l => contacts_on l cs) links) ≡ₚ cs.
Proof.
  intros Hnd. induction cs as [|c cs IH]; intros Hin.
  - clear. induction links as [|l links IH]; [done|]. cbn. done.
  - rewrite group_by_link_cons; [|done|apply Hin; by left].
    f_equiv. apply IH. intros c' Hc'. apply Hin. by right.
Qed.

End contacts.

(** C8 (amended).  A phase-legal [reset_contact] (in WAITING or
    INITIALIZATION) leaves the contact map empty and the phase as it was.
    After k contacts are then added with [add_contact], [get_contacts]
    returns a map that holds, under each id, the contacts added under that
    id in their order and nothing else.  [get_all_contacts] appends to the
    vector it is given the added contacts that lie on the links of
    [_link_ids], link by link in the order of [_link_ids], and returns the
    size of the whole vector; a contact added under an id that is not in
    [_link_ids] is not returned.  When the ids of [_link_ids] are distinct
    and include the id of every added contact, what is appended is a
    rearrangement of the k contacts. *)
Theorem C8_contacts_read_back (r0 : Robot) (cs acc : list contact_t) :
  controller_phase r0 ∈ [WAITING; INITIALIZATION] ->
  exists r1 r2 m out r3,
    reset_contact r0 = (Ret tt, r1)
    /\ _id_contacts_map r1 = ∅
    /\ controller_phase r1 = controller_phase r0
    /\ get_contacts r1 = (Ret ∅, r1)
    /\ add_contacts cs r1 = (Ret tt, r2)
    /\ get_contacts r2 = (Ret m, r2)
    /\ (forall link, default [] (m !! link) = contacts_on link cs)
    /\ (forall link, m !! link = None <-> contacts_on link cs = [])
    /\ get_all_contacts acc r2 = (Ret (acc ++ out, length (acc ++ out)), r3)
    /\ out = concat (map (fun link => contacts_on link cs) (_link_ids r0))
    /\ (forall c, c ∈ out <-> c ∈ cs /\ id c ∈ _link_ids r0)
    /\ (NoDup (_link_ids r0) -> (forall c, c ∈ cs -> id c ∈ _link_ids r0) ->
        out ≡ₚ cs).
Proof.
  intros Hp0.
  assert (Hreset : reset_contact r0 = (Ret tt, with_id_contacts_map ∅ r0)).
  { unfold reset_contact. rewrite bind_run, check_phase_run.
    assert (phase_after_check clean_up (controller_phase r0)
            = Some (controller_phase r0)) as ->
      by (destruct (controller_phase r0); settle_closed).
    by rewrite with_controller_phase_same. }
  set (r1 := with_id_contacts_map ∅ r0) in *.
  assert (Hp1 : controller_phase r1 ∈ [PERCEPTION; INITIALIZATION; WAITING]).
  { change (controller_phase r1) with (controller_phase r0).
    destruct (controller_phase r0); settle_closed. }
  destruct (add_contacts_run cs r1 Hp1) as (r2 & Hrun & Hp2 & Hl2 & Hmap).
  assert (Hon : forall link,
             default [] (_id_contacts_map r2 !! link) = contacts_on link cs).
  { intros link. rewrite Hmap. change (_id_contacts_map r1) with (∅ : gmap string (list contact_t)).
    rewrite lookup_empty. by destruct (contacts_on link cs). }
  destruct (get_all_contacts_run (fun l => contacts_on l cs) acc r2 Hon)
    as (r3 & Hall).
  rewrite Hl2 in Hall. change (_link_ids r1) with (_link_ids r0) in Hall.
  exists r1, r2, (_id_contacts_map r2),
    (concat (map (fun link => contacts_on link cs) (_link_ids r0))), r3.
  split_and!; try done.
  - intros link. rewrite Hmap. change (_id_contacts_map r1) with (∅ : gmap string (list contact_t)).
    rewrite lookup_empty. by destruct (contacts_on link cs).
  - intros c. rewrite list_elem_of_In, in_concat. split.
    + intros (l & Hl & Hc). apply in_map_iff in Hl as (link & <- & Hlink).
      apply list_elem_of_In in Hc, Hlink.
      unfold contacts_on in Hc. apply list_elem_of_filter in Hc as [Hid Hc].
      by rewrite Hid.
    + intros [Hc Hid]. exists (contacts_on (id c) cs). split.
      * apply in_map_iff. exists (id c). by rewrite <- list_elem_of_In.
      * apply list_elem_of_In. unfold contacts_on. by apply list_elem_of_filter.
  - intros Hnd Hin. by apply group_by_link_perm.
Qed.

Lemma C8_contacts_read_back_witness :
  exists r1 r2 out r3,
    reset_contact example_waiting = (Ret tt, r1)
    /\ add_contacts example_contacts r1 = (Ret tt, r2)
    /\ get_all_contacts [] r2 = (Ret (out, length out), r3)
    /\ out = [example_contact "body" d0; example_contact "foot" d1;
              example_contact "foot" d0].
Proof.
  assert (H0 : controller_phase example_waiting ∈ [WAITING; INITIALIZATION])
    by by_evaluation.
  destruct (C8_contacts_read_back example_waiting example_contacts [] H0)
    as (r1 & r2 & m & out & r3 & Hreset & _ & _ & _ & Hadd & _ & _ & _
        & Hall & Hout & _).
  exists r1, r2, out, r3. split_and!; [exact Hreset|exact Hadd|exact Hall|].
  rewrite Hout. vm_compute. reflexivity.
Defined.

(** C8 as stated fails: of two contacts added after [reset_contact], one
    under the id "tail", which is not a link of the robot, and one on
    "foot", [get_all_contacts] returns the second only, and the count 1. *)
Lemma C8_counterexample :
  controller_phase example_waiting = WAITING
  /\ fst (reset_contact example_waiting) = Ret tt
  /\ fst (add_contacts [example_contact "tail" d1; example_contact "foot" d0]
            (snd (reset_contact example_waiting))) = Ret tt
  /\ fst (get_all_contacts []
            (snd (add_contacts
                    [example_contact "tail" d1; example_contact "foot" d0]
                    (snd (reset_contact example_waiting)))))
     = Ret ([example_contact "foot" d0], 1).
Proof. split_and!; vm_compute; reflexivity. Qed.

(** ** Generalized joint vectors: write, then read *)

Section generalized_round_trip.

Implicit Types (r : Robot) (u : unit_e) (v g : VectorNd) (dof : list Z).

Lemma same_model_refl r : same_model r r.
Proof. by repeat split. Qed.

Lemma same_model_trans r1 r2 r3 :
  same_model r1 r2 -> same_model r2 r3 -> same_model r1 r3.
Proof.
  intros (H1 & H2 & H3) (H1' & H2' & H3'). repeat split; [|congruence..].
  intros id. by rewrite H1', H1.
Qed.

Lemma dof_index_run id r :
  exists r',
    dof_index id r = (Ret (dofs_of r id), r')
    /\ same_model r r'
    /\ _state r' = _state r
    /\ controller_phase r' = controller_phase r.
Proof.
  unfold dof_index, map_index, dofs_of.
  destruct (_id_dof_coord_map r !! id) as [dof|] eqn:Hd;
    (eexists; split; [reflexivity|]); cbn; [by repeat split|].
  split; [|done]. repeat split. intros id'. unfold dofs_of. cbn.
  destruct (decide (id' = id)) as [->|Hne].
  - by rewrite lookup_insert_eq, Hd.
  - by rewrite lookup_insert_ne.
Qed.

Lemma state_index_same_model u id r r' v :
  state_index u id r = (Ret v, r') -> same_model r r'.
Proof.
  intros H. destruct (state_index_run u id r) as (r1 & H1 & _ & _ & _ & Hd & Hj & Hn & _).
  rewrite H1 in H. simplify_eq. repeat split; [|done..].
  intros id'. unfold dofs_of. by rewrite Hd.
Qed.

Lemma state_assign_same_model u id v r r' :
  state_assign u id v r = (Ret tt, r') -> same_model r r'.
Proof.
  intros H. destruct (state_assign_run u id v r) as (r1 & H1 & _ & _ & _ & Hd & Hj & Hn & _).
  rewrite H1 in H. simplify_eq. repeat split; [|done..].
  intros id'. unfold dofs_of. by rewrite Hd.
Qed.

Lemma vec_at_Some v k :
  (0 <= k < Z.of_nat (length v))%Z -> exists x, vec_at v k = Some x.
Proof.
  intros Hk. unfold vec_at. rewrite bool_decide_eq_true_2 by lia.
  apply lookup_lt_is_Some. lia.
Qed.

Lemma select_length v dof : length (select v dof) = length dof.
Proof. unfold select. by rewrite length_fmap. Qed.

Lemma select_lookup v dof j k :
  dof !! j = Some k -> select v dof !! j = Some (default d0 (vec_at v k)).
Proof. intros H. unfold select. by rewrite list_lookup_fmap, H. Qed.

Lemma select_lookup_at v dof j k x :
  dof !! j = Some k -> vec_at v k = Some x -> select v dof !! j = Some x.
Proof. intros Hk Hx. rewrite (select_lookup v dof j k Hk). by rewrite Hx. Qed.

Lemma vec_store_Some g k x :
  (0 <= k < Z.of_nat (length g))%Z ->
  vec_store g k x = Some (<[Z.to_nat k := x]> g).
Proof.
  intros Hk. unfold vec_store. by rewrite !bool_decide_eq_true_2 by lia.
Qed.

(** The inner loop of [set_joint_generalized_value]: the coordinates from
    position [a] on are copied into the joint's entry. *)
Lemma scatter_loop_run u key v dof : forall n a (dof_val : VectorNd) r,
  a + n = length dof ->
  length dof_val = length dof ->
  (forall k, k ∈ dof -> (0 <= k < Z.of_nat (length v))%Z) ->
  state_entry r u key = Some dof_val ->
  exists r',
    foldM (fun (dof_val : VectorNd) (j : nat) =>
             match dof !! j with
             | None => throw InvalidIndex
             | Some k =>
                 match vec_at v k with
                 | None => throw InvalidIndex
                 | Some x =>
                     state_assign u key (<[j := x]> dof_val) ;;
                     ret (<[j := x]> dof_val)
                 end
             end) (seq a n) dof_val r
    = (Ret (take a dof_val ++ drop a (select v dof)), r')
    /\ state_entry r' u key = Some (take a dof_val ++ drop a (select v dof))
    /\ same_model r r'
    /\ controller_phase r' = controller_phase r
    /\ (forall u' id', (u', id') <> (u, key) ->
          state_entry r' u' id' = state_entry r u' id').
Proof.
  induction n as [|n IH]; intros a dof_val r Ha Hlen Hrange Hentry.
  - exists r. cbn [seq foldM ret].
    rewrite take_ge by lia. rewrite drop_ge by (rewrite select_length; lia).
    rewrite app_nil_r. split_and!; done || apply same_model_refl.
  - cbn [seq foldM].
    destruct (lookup_lt_is_Some_2 dof a) as [k Hk]; [lia|].
    destruct (vec_at_Some v k) as [x Hx]; [apply Hrange; by eapply list_elem_of_lookup_2|].
    rewrite bind_run, Hk, Hx. cbn zeta. rewrite bind_run.
    destruct (state_assign_run u key (<[a:=x]> dof_val) r)
      as (r1 & Hrun1 & He1 & Hp1 & _ & Hd1 & Hj1 & Hn1 & Hfr1).
    rewrite Hrun1. cbn [ret].
    destruct (IH (S a) (<[a:=x]> dof_val) r1) as (r2 & Hrun2 & He2 & Hm2 & Hp2 & Hfr2);
      [lia|by rewrite length_insert|done|done|].
    assert (Heq : take (S a) (<[a:=x]> dof_val) ++ drop (S a) (select v dof)
                  = take a dof_val ++ drop a (select v dof)).
    { rewrite (take_S_r _ a x) by (apply list_lookup_insert_eq; lia).
      rewrite take_insert_ge by lia.
      rewrite (drop_S (select v dof) x a); [by rewrite <- app_assoc|].
      by eapply select_lookup_at. }
    rewrite Heq in *.
    exists r2. split; [exact Hrun2|]. split; [exact He2|].
    split; [|split; [congruence|]].
    + eapply same_model_trans; [|exact Hm2].
      by eapply state_assign_same_model.
    + intros u' id' Hne. by rewrite Hfr2, Hfr1.
Qed.

(** One joint of [set_joint_generalized_value]: its entry becomes the values
    of the generalized vector at its coordinates. *)
Lemma scatter_joint_run u v key r :
  length (default [] (state_entry r u key)) = length (dofs_of r key) ->
  (forall k, k ∈ dofs_of r key -> (0 <= k < Z.of_nat (length v))%Z) ->
  exists r',
    scatter_joint u v key r = (Ret tt, r')
    /\ state_entry r' u key = Some (select v (dofs_of r key))
    /\ same_model r r'
    /\ controller_phase r' = controller_phase r
    /\ (forall u' id', (u', id') <> (u, key) ->
          state_entry r' u' id' = state_entry r u' id').
Proof.
  intros Hlen Hrange. unfold scatter_joint. rewrite bind_run.
  destruct (dof_index_run key r) as (r1 & -> & Hm1 & Hs1 & Hp1).
  rewrite bind_run.
  assert (He1 : forall u' id', state_entry r1 u' id' = state_entry r u' id')
    by (intros; unfold state_entry; by rewrite Hs1).
  destruct (state_index_run u key r1)
    as (r2 & Hrun2 & He2 & Hp2 & _ & _ & _ & _ & Hfr2).
  pose proof (state_index_same_model _ _ _ _ _ Hrun2) as Hm2.
  rewrite Hrun2, He1. rewrite He1 in He2.
  rewrite bool_decide_eq_false_2 by (intros Hne; by apply Hne).
  rewrite bind_run.
  destruct (scatter_loop_run u key v (dofs_of r key) (length (dofs_of r key)) 0
              (default [] (state_entry r u key)) r2)
    as (r3 & -> & He3 & Hm3 & Hp3 & Hfr3); [lia|done|done|done|].
  cbn [take drop app] in He3. cbn [ret].
  exists r3. split_and!; [done|done| |congruence|].
  - eapply same_model_trans; [exact Hm1|]. by eapply same_model_trans.
  - intros u' id' Hne. by rewrite Hfr3, Hfr2, He1.
Qed.

(** The loop of [set_joint_generalized_value] over the joints [keys]. *)
Lemma scatter_joints_run u v keys : forall r,
  (forall key, key ∈ keys ->
     length (default [] (state_entry r u key)) = length (dofs_of r key)
     /\ forall k, k ∈ dofs_of r key -> (0 <= k < Z.of_nat (length v))%Z) ->
  exists r',
    for_each (scatter_joint u v) keys r = (Ret tt, r')
    /\ same_model r r'
    /\ controller_phase r' = controller_phase r
    /\ (forall id, id ∈ keys -> state_entry r' u id = Some (select v (dofs_of r id)))
    /\ (forall id, id ∉ keys -> state_entry r' u id = state_entry r u id).
Proof.
  induction keys as [|key keys IH]; intros r Hpre.
  - exists r. split_and!; try done; try apply same_model_refl.
    intros id Hin. by apply elem_of_nil in Hin.
  - cbn [for_each]. rewrite bind_run.
    destruct (scatter_joint_run u v key r) as (r1 & -> & He1 & Hm1 & Hp1 & Hfr1);
      [apply Hpre; by left..|].
    destruct Hm1 as (Hd1 & Hj1 & Hn1).
    destruct (IH r1) as (r2 & Hrun2 & Hm2 & Hp2 & Hin2 & Hout2).
    { intros key' Hin'. rewrite Hd1.
      destruct (decide (key' = key)) as [->|Hne].
      - rewrite He1. cbn. rewrite select_length. split; [done|].
        apply Hpre. by left.
      - rewrite Hfr1 by congruence. apply Hpre. by right. }
    exists r2. split; [exact Hrun2|]. split_and!.
    + eapply same_model_trans; [|exact Hm2]. by repeat split.
    + congruence.
    + intros id Hin. destruct (decide (id ∈ keys)) as [Hk|Hk].
      * by rewrite Hin2, Hd1.
      * apply elem_of_cons in Hin as [->|?]; [|done].
        by rewrite Hout2, He1.
    + intros id Hn. apply not_elem_of_cons in Hn as [Hne Hn].
      rewrite Hout2 by done. apply Hfr1. congruence.
Qed.

(** The inner loop of [get_joint_generalized_value] for an entry that holds
    the values of [v] at the joint's coordinates: from position [a] on, the
    coordinates are written back. *)
Lemma gather_loop_run v dof : forall n a g r,
  a + n = length dof ->
  (forall k, k ∈ dof -> (0 <= k < Z.of_nat (length v))%Z) ->
  length g = length v ->
  exists g',
    foldM (fun (g : VectorNd) (j : nat) =>
             match dof !! j, select v dof !! j with
             | Some k, Some x =>
                 match vec_store g k x with
                 | Some g' => ret g'
                 | None => throw InvalidIndex
                 end
             | _, _ => throw InvalidIndex
             end) (seq a n) g r
    = (Ret g', r)
    /\ length g' = length v
    /\ forall i, g' !! i = if decide (Z.of_nat i ∈ drop a dof) then v !! i else g !! i.
Proof.
  induction n as [|n IH]; intros a g r Ha Hrange Hlen.
  - exists g. cbn [seq foldM ret]. rewrite drop_ge by lia.
    by split_and!.
  - cbn [seq foldM].
    destruct (lookup_lt_is_Some_2 dof a) as [k Hk]; [lia|].
    assert (Hkr : (0 <= k < Z.of_nat (length v))%Z)
      by (apply Hrange; by eapply list_elem_of_lookup_2).
    destruct (vec_at_Some v k Hkr) as [x Hx].
    rewrite bind_run, Hk, (select_lookup_at v dof a k x Hk Hx).
    rewrite vec_store_Some by lia. cbn [ret].
    destruct (IH (S a) (<[Z.to_nat k:=x]> g) r) as (g' & -> & Hlen' & Hlook);
      [lia|done|by rewrite length_insert|].
    exists g'. split_and!; try done.
    intros i. rewrite Hlook, (drop_S dof k a Hk).
    unfold vec_at in Hx. rewrite bool_decide_eq_true_2 in Hx by lia.
    destruct (decide (Z.of_nat i ∈ drop (S a) dof)) as [Hin|Hnin].
    + rewrite decide_True; [done|by right].
    + destruct (decide (Z.of_nat i = k)) as [Heq|Hne].
      * rewrite decide_True by (subst; by left).
        replace i with (Z.to_nat k) by lia.
        rewrite list_lookup_insert_eq by lia. done.
      * rewrite decide_False by (apply not_elem_of_cons; done).
        apply list_lookup_insert_ne. lia.
Qed.

Lemma gather_joint_run v g id r :
  (forall k, k ∈ dofs_of r id -> (0 <= k < Z.of_nat (length v))%Z) ->
  length g = length v ->
  exists g' r',
    gather_joint g id (select v (dofs_of r id)) r = (Ret g', r')
    /\ same_model r r'
    /\ length g' = length v
    /\ forall i, g' !! i = if decide (Z.of_nat i ∈ dofs_of r id) then v !! i else g !! i.
Proof.
  intros Hrange Hlen. unfold gather_joint. rewrite bind_run.
  destruct (dof_index_run id r) as (r1 & -> & Hm1 & _).
  rewrite select_length.
  destruct (gather_loop_run v (dofs_of r id) (length (dofs_of r id)) 0 g r1)
    as (g' & Hrun & Hlen' & Hlook); [lia|done|done|].
  exists g', r1. by split_and!.
Qed.

(** The loop of [get_joint_generalized_value] over the entries [ids], each
    holding the values of [v] at its joint's coordinates: a coordinate
    either holds the value of [v] or was not touched. *)
Lemma gather_joints_run v (E : string -> VectorNd) (D : string -> list Z) ids :
  forall g r,
  (forall id, id ∈ ids ->
     E id = select v (D id)
     /\ forall k, k ∈ D id -> (0 <= k < Z.of_nat (length v))%Z) ->
  (forall id, dofs_of r id = D id) ->
  length g = length v ->
  exists g' r',
    foldM (fun g id => gather_joint g id (E id)) ids g r = (Ret g', r')
    /\ length g' = length v
    /\ forall i, g' !! i = v !! i
                 \/ (g' !! i = g !! i /\ forall id, id ∈ ids -> Z.of_nat i ∉ D id).
Proof.
  induction ids as [|id ids IH]; intros g r Hpre HD Hlen.
  - exists g, r. split_and!; try done. intros i. right. split; [done|].
    intros id Hin. by apply elem_of_nil in Hin.
  - cbn [foldM]. rewrite bind_run.
    destruct (Hpre id) as [HE Hrange]; [by left|].
    rewrite HE, <- HD.
    destruct (gather_joint_run v g id r) as (g1 & r1 & -> & Hm1 & Hlen1 & Hlook1);
      [by rewrite HD|done|].
    destruct (IH g1 r1) as (g2 & r2 & Hrun2 & Hlen2 & Hlook2).
    { intros id' Hin'. apply Hpre. by right. }
    { intros id'. destruct Hm1 as [Hd _]. by rewrite Hd. }
    { done. }
    exists g2, r2. split; [exact Hrun2|]. split; [done|].
    intros i. destruct (Hlook2 i) as [Hv|[Hsame Hnot]]; [by left|].
    rewrite Hsame, Hlook1.
    destruct (decide (Z.of_nat i ∈ dofs_of r id)) as [Hin|Hnin]; [by left|].
    right. split; [done|]. intros id' Hin'.
    apply elem_of_cons in Hin' as [->|Hin']; [by rewrite <- HD|by apply Hnot].
Qed.

Lemma elem_of_keys_in_order {V : Type} (m : gmap string V) (id : string) :
  id ∈ keys_in_order m <-> is_Some (m !! id).
Proof.
  unfold keys_in_order. rewrite merge_sort_Permutation, list_elem_of_fmap. split.
  - intros ([k x] & -> & Hin). apply elem_of_map_to_list in Hin. by eexists.
  - intros [x Hx]. exists (id, x). split; [done|]. by apply elem_of_map_to_list.
Qed.

Lemma state_unit_index_run u r :
  exists r',
    state_unit_index u r = (Ret (default ∅ (_state r !! u)), r')
    /\ same_model r r'
    /\ (forall id, default ∅ (_state r !! u) !! id = state_entry r u id).
Proof.
  unfold state_unit_index, map_index, state_entry.
  destruct (_state r !! u) as [inner|] eqn:Hu;
    (eexists; split; [reflexivity|]); cbn; (split; [by repeat split|]); [done|].
  intros id. by rewrite lookup_empty.
Qed.

End generalized_round_trip.

(** The example robot satisfies the hypotheses of the round trip. *)
Lemma example_tables :
  _id_dof_coord_map example_perceiving = example_dofs
  /\ _joint_ids example_perceiving = ["hip"; "knee"]
  /\ NUM_JOINT_DOFS example_perceiving = 3
  /\ _state example_perceiving !! velocity
     = Some (<["hip" := [d0]]> (<["knee" := [d0; d0]]> ∅)).
Proof. split_and!; vm_compute; reflexivity. Qed.

Lemma example_dofs_lookup (id : string) :
  default [] (example_dofs !! id)
  = if decide (id = "hip") then [0%Z]
    else if decide (id = "knee") then [1%Z; 2%Z] else [].
Proof.
  unfold example_dofs. repeat case_decide; subst.
  - by rewrite lookup_insert_eq.
  - rewrite lookup_insert_ne by done. by rewrite lookup_insert_eq.
  - rewrite !lookup_insert_ne by done. by rewrite lookup_empty.
Qed.

Lemma example_model_wf : model_wf example_perceiving.
Proof.
  destruct example_tables as (Hd & Hj & Hn & _).
  split; unfold dofs_of; rewrite Hd, ?Hj, ?Hn.
  - intros id k _. rewrite example_dofs_lookup.
    repeat case_decide; rewrite ?elem_of_cons, elem_of_nil; intros Hk; lia.
  - intros i Hi.
    destruct i as [|[|[|i]]]; [exists "hip"|exists "knee"|exists "knee"|lia];
      (split; [by_evaluation|]); rewrite example_dofs_lookup; by_evaluation.
  - intros id. rewrite example_dofs_lookup.
    repeat case_decide; subst; intros Hne;
      [by_evaluation|by_evaluation|by destruct Hne].
Qed.

(** The store of the example after [init_state]: one zero per coordinate. *)
Lemma example_like_store_sized (r : Robot) (u : unit_e) :
  _id_dof_coord_map r = example_dofs ->
  _state r !! u = Some (<["hip" := [d0]]> (<["knee" := [d0; d0]]> ∅)) ->
  store_sized r u.
Proof.
  intros Hd Hs id _. unfold dofs_of, state_entry.
  rewrite Hd, Hs, example_dofs_lookup. cbn [mbind option_bind].
  repeat case_decide; subst.
  - by rewrite lookup_insert_eq.
  - rewrite lookup_insert_ne by done. by rewrite lookup_insert_eq.
  - rewrite !lookup_insert_ne by done. by rewrite lookup_empty.
Qed.

Lemma example_store_sized : store_sized example_perceiving velocity.
Proof.
  destruct example_tables as (Hd & Hj & Hn & Hs).
  intros id _. unfold dofs_of, state_entry. rewrite Hd, Hs, example_dofs_lookup.
  cbn [mbind option_bind].
  repeat case_decide; subst.
  - by rewrite lookup_insert_eq.
  - rewrite lookup_insert_ne by done. by rewrite lookup_insert_eq.
  - rewrite !lookup_insert_ne by done. by rewrite lookup_empty.
Qed.

(** C7 (amended).  On a robot whose kinematic tables are consistent (the
    coordinates of the joints of [_joint_ids] lie below NUM_JOINT_DOFS and
    cover it, and no other joint owns a coordinate) and whose joint entries
    of unit [u] are sized to their DOF counts (a joint of [_joint_ids]
    without an entry counting as an entry of size zero), and for a vector
    [v] of length NUM_JOINT_DOFS: if the phase check of [u] passes in the
    current phase, [set_joint_generalized_value(u, v)] returns normally and
    a following [get_joint_generalized_value(u)] returns [v] itself, value
    for value; if the phase check refuses [u], the write raises
    PhaseViolation and leaves the robot as it was. *)
Theorem C7_generalized_round_trip (u : unit_e) (v : VectorNd) (r : Robot) :
  model_wf r ->
  store_sized r u ->
  length v = NUM_JOINT_DOFS r ->
  (fst (check_phase u r) = Ret tt ->
   exists r1 r2,
     set_joint_generalized_value u v r = (Ret tt, r1)
     /\ get_joint_generalized_value u r1 = (Ret v, r2))
  /\ (fst (check_phase u r) <> Ret tt ->
      set_joint_generalized_value u v r = (Throw PhaseViolation, r)).
Proof.
  intros [Hrange Hcover Hknown] Hsized Hlen. split; intros Hphase; cycle 1.
  { unfold set_joint_generalized_value. rewrite bind_run.
    rewrite check_phase_run in Hphase |- *.
    by destruct (phase_after_check u (controller_phase r)). }
  rewrite check_phase_run in Hphase.
  destruct (phase_after_check u (controller_phase r)) as [p|] eqn:Hp; [|done].
  clear Hphase.
  (* the write *)
  unfold set_joint_generalized_value.
  rewrite bind_run, check_phase_run, Hp, bind_run. cbn [gets NUM_JOINT_DOFS with_controller_phase].
  rewrite bool_decide_eq_false_2 by (intros Hne; by apply Hne).
  rewrite bind_run. cbn [gets _joint_ids with_controller_phase].
  destruct (scatter_joints_run u v (_joint_ids r) (with_controller_phase p r))
    as (r1 & Hset & (Hd1 & Hj1 & Hn1) & _ & Hin1 & Hout1).
  { intros key Hkey. split.
    - apply (Hsized key). by left.
    - intros k Hk. rewrite Hlen. by apply (Hrange key). }
  exists r1. rewrite Hset.
  (* the entries of the store after the write *)
  assert (Hentry : forall id, is_Some (state_entry r1 u id) ->
             default [] (state_entry r1 u id) = select v (dofs_of r id)
             /\ forall k, k ∈ dofs_of r id -> (0 <= k < Z.of_nat (length v))%Z).
  { intros id Hsome. destruct (decide (id ∈ _joint_ids r)) as [Hj|Hj].
    - rewrite (Hin1 id Hj). split; [done|].
      intros k Hk. rewrite Hlen. by apply (Hrange id).
    - rewrite (Hout1 id Hj) in Hsome |- *.
      change (state_entry (with_controller_phase p r) u id)
        with (state_entry r u id) in *.
      assert (Hnil : dofs_of r id = []).
      { destruct (dofs_of r id) eqn:E; [done|].
        destruct Hj. apply Hknown. by rewrite E. }
      pose proof (Hsized id (or_intror Hsome)) as Hl.
      rewrite Hnil in Hl |- *. apply nil_length_inv in Hl. rewrite Hl.
      split; [done|]. intros k Hk. by apply elem_of_nil in Hk. }
  (* the read *)
  unfold get_joint_generalized_value. rewrite bind_run. cbn [gets].
  rewrite bind_run.
  destruct (state_unit_index_run u r1) as (r1' & -> & (Hd1' & _ & _) & Hinner).
  destruct (gather_joints_run v
              (fun id => default [] (default ∅ (_state r1 !! u) !! id))
              (dofs_of r) (keys_in_order (default ∅ (_state r1 !! u)))
              (set_zero (NUM_JOINT_DOFS r1)) r1')
    as (g & r2 & Hget & Hglen & Hlook).
  { intros id Hid. apply elem_of_keys_in_order in Hid.
    rewrite Hinner in Hid |- *. by apply Hentry. }
  { intros id. rewrite Hd1', Hd1. done. }
  { unfold set_zero. rewrite length_replicate. cbn in Hn1. congruence. }
  exists r2. split; [done|]. rewrite Hget. f_equal. f_equal.
  apply list_eq. intros i.
  destruct (Hlook i) as [Hv|[_ Hnot]]; [done|].
  destruct (decide (i < NUM_JOINT_DOFS r)) as [Hi|Hi].
  - destruct (Hcover i Hi) as (id & Hj & Hin). destruct (Hnot id); [|done].
    apply elem_of_keys_in_order. rewrite Hinner, (Hin1 id Hj). by eexists.
  - rewrite !lookup_ge_None_2 by lia. done.
Qed.

Lemma C7_generalized_round_trip_witness :
  exists r1 r2,
    set_joint_generalized_value velocity [d1; dm1; d0] example_perceiving
    = (Ret tt, r1)
    /\ get_joint_generalized_value velocity r1 = (Ret [d1; dm1; d0], r2).
Proof.
  apply (C7_generalized_round_trip velocity [d1; dm1; d0] example_perceiving).
  - exact example_model_wf.
  - exact example_store_sized.
  - vm_compute; reflexivity.
  - vm_compute; reflexivity.
Defined.

(** C7 as stated fails.  In CONTROL the write of [velocity] is refused,
    although every entry of the store is sized and the vector has length
    NUM_JOINT_DOFS; the store keeps its zeros.  And on a robot whose tables
    leave the coordinate 3 to no joint, the write returns but the read gives
    0 at that coordinate. *)
Lemma C7_counterexample :
  (store_sized example_controlling velocity
   /\ length [d1; dm1; d0] = NUM_JOINT_DOFS example_controlling
   /\ set_joint_generalized_value velocity [d1; dm1; d0] example_controlling
      = (Throw PhaseViolation, example_controlling)
   /\ fst (get_joint_generalized_value velocity example_controlling)
      = Ret [d0; d0; d0])
  /\ (store_sized example_uncovered velocity
      /\ length [d1; dm1; d0; d1] = NUM_JOINT_DOFS example_uncovered
      /\ fst (set_joint_generalized_value velocity [d1; dm1; d0; d1]
                example_uncovered) = Ret tt
      /\ fst (get_joint_generalized_value velocity
                (snd (set_joint_generalized_value velocity [d1; dm1; d0; d1]
                        example_uncovered)))
         = Ret [d1; dm1; d0; d0]).
Proof.
  split; (split; [apply example_like_store_sized; vm_compute; reflexivity|]);
    split_and!; vm_compute; reflexivity.
Qed.

(** ** Matrices *)

Section matrices.

Implicit Types (MM m : Mat) (i j : nat) (x : double).

Lemma mat_get_is_Some MM i j :
  mat_wf MM -> i < rows MM -> j < columns MM -> is_Some (mat_get MM i j).
Proof.
  intros [Hr Hc] Hi Hj. unfold mat_get.
  destruct (lookup_lt_is_Some_2 (elts MM) i) as [row Hrow]; [lia|].
  rewrite Hrow. cbn. apply lookup_lt_is_Some.
  rewrite Forall_lookup in Hc. rewrite (Hc i row Hrow). done.
Qed.

Lemma mat_get_default MM i j :
  mat_wf MM -> i < rows MM -> j < columns MM ->
  mat_get MM i j = Some (default d0 (mat_get MM i j)).
Proof. intros Hwf Hi Hj. by destruct (mat_get_is_Some MM i j Hwf Hi Hj) as [x ->]. Qed.

Lemma mat_wf_zero (r c : nat) : mat_wf (mat_zero r c).
Proof.
  split; cbn.
  - apply length_replicate.
  - apply Forall_replicate, length_replicate.
Qed.

Lemma mat_get_zero (r c : nat) i j :
  i < r -> j < c -> mat_get (mat_zero r c) i j = Some d0.
Proof.
  intros Hi Hj. unfold mat_get, mat_zero; cbn.
  rewrite lookup_replicate_2 by done. cbn. by apply lookup_replicate_2.
Qed.

Lemma mat_wf_negate MM : mat_wf MM -> mat_wf (mat_negate MM).
Proof.
  intros [Hr Hc]. split; cbn.
  - by rewrite length_fmap.
  - apply Forall_fmap. eapply Forall_impl; [exact Hc|].
    intros row Hrow. cbn. by rewrite length_fmap.
Qed.

Lemma mat_get_negate MM i j :
  mat_get (mat_negate MM) i j = dneg <$> mat_get MM i j.
Proof.
  unfold mat_get, mat_negate; cbn. rewrite list_lookup_fmap.
  destruct (elts MM !! i) as [row|]; cbn; [|done]. by rewrite list_lookup_fmap.
Qed.

Lemma mat_wf_transpose MM : mat_wf MM -> mat_wf (mat_transpose MM).
Proof.
  intros [Hr Hc]. split; cbn.
  - by rewrite length_fmap, length_seq.
  - apply Forall_fmap, Forall_forall. intros j _. cbn. by rewrite length_fmap.
Qed.

Lemma mat_get_transpose MM i j :
  mat_wf MM -> i < columns MM -> j < rows MM ->
  mat_get (mat_transpose MM) i j = mat_get MM j i.
Proof.
  intros Hwf Hi Hj. rewrite (mat_get_default MM j i) by done.
  unfold mat_get, mat_transpose; cbn.
  rewrite list_lookup_fmap, lookup_seq_lt by done. cbn.
  rewrite list_lookup_fmap.
  destruct Hwf as [Hr _].
  destruct (lookup_lt_is_Some_2 (elts MM) j) as [row ->]; [lia|]. done.
Qed.

(** One element is written; the others keep their values. *)
Lemma mat_set_run MM i j x :
  mat_wf MM -> i < rows MM -> j < columns MM ->
  exists MM',
    mat_set MM i j x = Some MM'
    /\ mat_wf MM' /\ rows MM' = rows MM /\ columns MM' = columns MM
    /\ forall i' j', mat_get MM' i' j' =
         if decide (i' = i /\ j' = j) then Some x else mat_get MM i' j'.
Proof.
  intros [Hr Hc] Hi Hj. unfold mat_set.
  rewrite !bool_decide_eq_true_2 by done. cbn [andb].
  eexists; split; [reflexivity|]. split_and!; try done.
  - split; cbn; [by rewrite length_alter|].
    apply Forall_alter; [done|]. intros row _ Hrow. by rewrite length_insert.
  - intros i' j'. unfold mat_get; cbn. rewrite list_lookup_alter.
    destruct (decide (i = i')) as [<-|Hne].
    + destruct (lookup_lt_is_Some_2 (elts MM) i) as [row Hrow]; [lia|].
      rewrite Hrow. cbn.
      assert (Hlen : length row = columns MM)
        by (rewrite Forall_lookup in Hc; by apply (Hc i)).
      destruct (decide (j' = j)) as [->|Hnej].
      * rewrite decide_True by done. apply list_lookup_insert_eq. lia.
      * rewrite decide_False by (intros [_ ?]; done).
        by apply list_lookup_insert_ne.
    + rewrite decide_False by (intros [? _]; done). done.
Qed.

End matrices.

(** ** [setblock] *)

Section setblock_loops.

Implicit Types (MM m : Mat) (I J P Q i j : nat).

Lemma on_local_run {S L : Type} (c : Exec L unit) (l l' : L) (s : S) :
  c l = (Ret tt, l') -> on_local c l s = (Ret l', s).
Proof. intros H. unfold on_local. by rewrite H. Qed.

(** The inner loop: row [i] of [m], from column [a] on. *)
Lemma setblock_row_run I J Q m i : forall n a MM,
  a + n = Q ->
  mat_wf MM -> mat_wf m ->
  I + i < rows MM -> J + Q <= columns MM -> i < rows m -> Q <= columns m ->
  exists MM',
    for_each (fun j =>
      x <- lift InvalidIndex (mat_get m i j) ;;
      MM <- gets (fun MM : Mat => MM) ;;
      MM' <- lift InvalidIndex (mat_set MM (I + i) (J + j) x) ;;
      modify (fun _ => MM')) (seq a n) MM = (Ret tt, MM')
    /\ mat_wf MM' /\ rows MM' = rows MM /\ columns MM' = columns MM
    /\ forall i' j', mat_get MM' i' j' =
         if decide (i' = I + i /\ J + a <= j' < J + Q)
         then mat_get m i (j' - J) else mat_get MM i' j'.
Proof.
  induction n as [|n IH]; intros a MM Ha Hwf Hwfm Hi HJ Him HQ.
  - exists MM. cbn [seq for_each ret]. split_and!; try done.
    intros i' j'. rewrite decide_False by lia. done.
  - cbn [seq for_each]. rewrite bind_run.
    destruct (mat_get_is_Some m i a) as [x Hx]; [done|done|lia|].
    rewrite bind_run, Hx. cbn [lift ret]. rewrite bind_run. cbn [gets].
    destruct (mat_set_run MM (I + i) (J + a) x) as (MM1 & Hset & Hwf1 & Hr1 & Hc1 & Hget1);
      [done|done|lia|].
    rewrite bind_run, Hset. cbn [lift ret modify].
    destruct (IH (S a) MM1) as (MM2 & Hrun & Hwf2 & Hr2 & Hc2 & Hget2);
      [lia|done|done|lia|lia|done|done|].
    exists MM2. split; [exact Hrun|]. split_and!; [done|congruence|congruence|].
    intros i' j'. rewrite Hget2, Hget1.
    repeat case_decide; try lia; try done.
    replace (j' - J) with a by lia. done.
Qed.

(** The outer loop: the rows of [m] from [a] on. *)
Lemma setblock_rows_run I J P Q m : forall n a MM,
  a + n = P ->
  mat_wf MM -> mat_wf m ->
  I + P <= rows MM -> J + Q <= columns MM -> P <= rows m -> Q <= columns m ->
  exists MM',
    for_each (fun i =>
      for_each (fun j =>
        x <- lift InvalidIndex (mat_get m i j) ;;
        MM <- gets (fun MM : Mat => MM) ;;
        MM' <- lift InvalidIndex (mat_set MM (I + i) (J + j) x) ;;
        modify (fun _ => MM')) (seq 0 Q)) (seq a n) MM = (Ret tt, MM')
    /\ mat_wf MM' /\ rows MM' = rows MM /\ columns MM' = columns MM
    /\ forall i' j', mat_get MM' i' j' =
         if decide (I + a <= i' < I + P /\ J <= j' < J + Q)
         then mat_get m (i' - I) (j' - J) else mat_get MM i' j'.
Proof.
  induction n as [|n IH]; intros a MM Ha Hwf Hwfm HI HJ HP HQ.
  - exists MM. cbn [seq for_each ret]. split_and!; try done.
    intros i' j'. rewrite decide_False by lia. done.
  - cbn [seq for_each]. rewrite bind_run.
    destruct (setblock_row_run I J Q m a Q 0 MM)
      as (MM1 & -> & Hwf1 & Hr1 & Hc1 & Hget1); [lia|done|done|lia|lia|lia|lia|].
    destruct (IH (S a) MM1) as (MM2 & Hrun & Hwf2 & Hr2 & Hc2 & Hget2);
      [lia|done|done|lia|lia|done|done|].
    exists MM2. split; [exact Hrun|]. split_and!; [done|congruence|congruence|].
    intros i' j'. rewrite Hget2, Hget1.
    repeat case_decide; try lia; try done.
    replace (i' - I) with a by lia. done.
Qed.

(** [setblock(M, I, J, P, Q, m)] copies the leading P x Q block of [m] to
    the position (I, J) of [M] and leaves the rest of [M] as it was. *)
Lemma setblock_run I J P Q m MM :
  mat_wf MM -> mat_wf m ->
  I + P <= rows MM -> J + Q <= columns MM -> P <= rows m -> Q <= columns m ->
  exists MM',
    setblock I J P Q m MM = (Ret tt, MM')
    /\ mat_wf MM' /\ rows MM' = rows MM /\ columns MM' = columns MM
    /\ forall i j, mat_get MM' i j =
         if decide (I <= i < I + P /\ J <= j < J + Q)
         then mat_get m (i - I) (j - J) else mat_get MM i j.
Proof.
  intros Hwf Hwfm HI HJ HP HQ.
  destruct (setblock_rows_run I J P Q m P 0 MM)
    as (MM' & Hrun & Hwf' & Hr & Hc & Hget); [lia|done..|].
  exists MM'. split; [exact Hrun|]. split_and!; try done.
  intros i j. rewrite Hget. repeat case_decide; try lia; done.
Qed.

End setblock_loops.

(** ** Inversion of returning computations *)

Lemma bind_Ret_inv {S A B : Type} (m : Exec S A) (k : A -> Exec S B)
    (s : S) (b : B) (s2 : S) :
  bind m k s = (Ret b, s2) ->
  exists a s1, m s = (Ret a, s1) /\ k a s1 = (Ret b, s2).
Proof.
  rewrite bind_run. destruct (m s) as [[a|e] s1]; [|done]. by exists a, s1.
Qed.



(** ** [solve_qp] *)

Section solve_qp_run.

Context (lcp_lemke_regularized : Mat -> Vec -> Vec -> bool * Vec).

Implicit Types (s : qp_refs) (zzz : Vec).

Lemma vec_resize_length (v : Vec) (n : nat) : length (vec_resize v n) = n.
Proof. unfold vec_resize. rewrite length_app, length_take, length_replicate. lia. Qed.

Lemma vec_negate_length (v : Vec) : length (vec_negate v) = length v.
Proof. unfold vec_negate. by rewrite length_fmap. Qed.

(** The three [set_sub_vec] calls fill the LCP vector with [c, -c, -b]. *)
Lemma vec_resize_nil (n : nat) : vec_resize [] n = replicate n d0.
Proof. unfold vec_resize. rewrite take_nil. cbn. by rewrite Nat.sub_0_r. Qed.
Lemma lcp_vector_run (c b : Vec) :
  exists q1 q2,
    set_sub_vec 0 c (vec_resize [] (length c * 2 + length b)) = Some q1
    /\ set_sub_vec (length c) (vec_negate c) q1 = Some q2
    /\ set_sub_vec (2 * length c) (vec_negate b) q2 = Some (lcp_vector c b).
Proof.
  rewrite vec_resize_nil. unfold set_sub_vec, lcp_vector.
  exists (c ++ replicate (length c + length b) d0),
         (c ++ vec_negate c ++ replicate (length b) d0).
  split_and!.
  - rewrite bool_decide_eq_true_2 by (rewrite length_replicate; lia).
    cbn [take app Nat.add]. rewrite drop_replicate.
    by replace (length c * 2 + length b - length c) with (length c + length b) by lia.
  - rewrite bool_decide_eq_true_2
      by (rewrite length_app, length_replicate, vec_negate_length; lia).
    rewrite take_app_length, vec_negate_length.
    rewrite drop_app_ge by lia. rewrite drop_replicate.
    by replace (length c + length b - (length c + length c - length c)) with (length b) by lia.
  - rewrite bool_decide_eq_true_2
      by (rewrite !length_app, length_replicate, !vec_negate_length; lia).
    rewrite (app_assoc c (vec_negate c) (replicate (length b) d0)).
    rewrite take_app_length' by (rewrite length_app, vec_negate_length; lia).
    rewrite drop_app_ge by (rewrite length_app, !vec_negate_length; lia).
    rewrite drop_ge
      by (rewrite length_replicate, length_app, !vec_negate_length; lia).
    by rewrite app_nil_r, <- !app_assoc.
Qed.

Lemma lcp_vector_length (c b : Vec) :
  length (lcp_vector c b) = length c * 2 + length b.
Proof. unfold lcp_vector. rewrite !length_app, !vec_negate_length. lia. Qed.

(** The extraction loop, from index [a] on. *)
Lemma extract_run (n : nat) zzz : forall k a s,
  a + k = n -> length (qp_x s) = n -> n * 2 <= length zzz ->
  exists x',
    for_each (fun i =>
      zi <- lift InvalidIndex (zzz !! i) ;;
      zni <- lift InvalidIndex (zzz !! (n + i)) ;;
      x <- gets qp_x ;;
      if bool_decide (i < length x)
      then modify (fun s => mkQp (qp_Q s) (qp_c s) (qp_A s) (qp_b s)
                              (<[i := dsub zi zni]> (qp_x s)))
      else throw InvalidIndex) (seq a k) s
    = (Ret tt, mkQp (qp_Q s) (qp_c s) (qp_A s) (qp_b s) x')
    /\ length x' = n
    /\ forall i, x' !! i =
         if decide (a <= i < n)
         then Some (dsub (default d0 (zzz !! i)) (default d0 (zzz !! (n + i))))
         else qp_x s !! i.
Proof.
  induction k as [|k IH]; intros a s Ha Hlen Hz.
  - exists (qp_x s). cbn [seq for_each ret]. destruct s; cbn in *.
    split_and!; try done. intros i. by rewrite decide_False by lia.
  - cbn [seq for_each]. rewrite bind_run.
    destruct (lookup_lt_is_Some_2 zzz a) as [zi Hzi]; [lia|].
    destruct (lookup_lt_is_Some_2 zzz (n + a)) as [zni Hzni]; [lia|].
    rewrite bind_run, Hzi. cbn [lift ret]. rewrite bind_run, Hzni. cbn [lift ret].
    rewrite bind_run. cbn [gets]. rewrite bool_decide_eq_true_2 by lia.
    cbn [modify].
    destruct (IH (S a) (mkQp (qp_Q s) (qp_c s) (qp_A s) (qp_b s)
                          (<[a:=dsub zi zni]> (qp_x s))))
      as (x' & Hrun & Hlen' & Hlook); [lia|cbn; by rewrite length_insert|done|].
    cbn [qp_Q qp_c qp_A qp_b qp_x] in Hrun, Hlook.
    exists x'. split; [exact Hrun|]. split; [done|].
    intros i. rewrite Hlook.
    destruct (decide (i = a)) as [->|Hne].
    + rewrite decide_False, decide_True by lia.
      rewrite list_lookup_insert_eq by lia. by rewrite Hzi, Hzni.
    + rewrite list_lookup_insert_ne by done.
      repeat case_decide; try lia; done.
Qed.

Lemma extract_all (n : nat) zzz s :
  length (qp_x s) = n -> n * 2 <= length zzz ->
  for_each (fun i =>
    zi <- lift InvalidIndex (zzz !! i) ;;
    zni <- lift InvalidIndex (zzz !! (n + i)) ;;
    x <- gets qp_x ;;
    if bool_decide (i < length x)
    then modify (fun s => mkQp (qp_Q s) (qp_c s) (qp_A s) (qp_b s)
                            (<[i := dsub zi zni]> (qp_x s)))
    else throw InvalidIndex) (seq 0 n) s
  = (Ret tt, mkQp (qp_Q s) (qp_c s) (qp_A s) (qp_b s) (lcp_extract n zzz)).
Proof.
  intros Hlen Hz.
  destruct (extract_run n zzz n 0 s) as (x' & -> & Hlen' & Hlook); [lia|done|done|].
  do 2 f_equal. apply list_eq. intros i. rewrite Hlook. unfold lcp_extract.
  rewrite list_lookup_fmap.
  destruct (decide (i < n)) as [Hi|Hi].
  - rewrite decide_True by lia. by rewrite lookup_seq_lt.
  - rewrite decide_False by lia. rewrite lookup_seq_ge by lia.
    apply lookup_ge_None_2. lia.
Qed.

(** The run of [solve_qp] on conforming arguments. *)
Lemma solve_qp_run (s : qp_refs) :
  mat_wf (qp_Q s) -> columns (qp_Q s) = rows (qp_Q s) ->
  mat_wf (qp_A s) -> columns (qp_A s) = rows (qp_Q s) ->
  length (qp_c s) = rows (qp_Q s) -> length (qp_b s) = rows (qp_A s) ->
  exists MMM,
    mat_wf MMM
    /\ rows MMM = rows (qp_Q s) * 2 + rows (qp_A s)
    /\ columns MMM = rows (qp_Q s) * 2 + rows (qp_A s)
    /\ (forall i j, i < rows MMM -> j < columns MMM ->
          mat_get MMM i j = Some (lcp_matrix (qp_Q s) (qp_A s) i j))
    /\ forall solved zzz,
         lcp_lemke_regularized MMM (lcp_vector (qp_c s) (qp_b s))
           (set_zero (rows (qp_Q s) * 2 + rows (qp_A s))) = (solved, zzz) ->
         rows (qp_Q s) * 2 <= length zzz ->
         solve_qp lcp_lemke_regularized s
         = (Ret solved,
            mkQp (mat_negate (qp_Q s)) (vec_negate (qp_c s))
                 (mat_negate (qp_A s)) (vec_negate (qp_b s))
                 (lcp_extract (rows (qp_Q s)) zzz)).
Proof.
  destruct s as [Q c A b x]. cbn [qp_Q qp_c qp_A qp_b qp_x].
  set (n := rows Q). set (m := rows A).
  intros HwfQ HcQ HwfA HcA Hc Hb.
  pose proof (mat_wf_negate Q HwfQ) as HwfnQ.
  pose proof (mat_wf_negate A HwfA) as HwfnA.
  pose proof (mat_wf_transpose A HwfA) as HwfAT.
  pose proof (mat_wf_negate _ HwfAT) as HwfnAT.
  destruct (setblock_run 0 0 n n Q (mat_zero (n * 2 + m) (n * 2 + m)))
    as (MM1 & Hrun1 & Hwf1 & Hr1 & Hc1 & Hget1);
    [apply mat_wf_zero|done|cbn; lia|cbn; lia|lia|lia|].
  destruct (setblock_run n n n n Q MM1)
    as (MM2 & Hrun2 & Hwf2 & Hr2 & Hc2 & Hget2);
    [done|done|cbn in *; lia|cbn in *; lia|lia|lia|].
  destruct (setblock_run 0 n n n (mat_negate Q) MM2)
    as (MM3 & Hrun3 & Hwf3 & Hr3 & Hc3 & Hget3);
    [done|done|cbn in *; lia|cbn in *; lia|cbn; lia|cbn; lia|].
  destruct (setblock_run n 0 n n (mat_negate Q) MM3)
    as (MM4 & Hrun4 & Hwf4 & Hr4 & Hc4 & Hget4);
    [done|done|cbn in *; lia|cbn in *; lia|cbn; lia|cbn; lia|].
  destruct (setblock_run n (n * 2) n m (mat_transpose A) MM4)
    as (MM5 & Hrun5 & Hwf5 & Hr5 & Hc5 & Hget5);
    [done|done|cbn in *; lia|cbn in *; lia|cbn; lia|cbn; lia|].
  destruct (setblock_run 0 (n * 2) n m (mat_negate (mat_transpose A)) MM5)
    as (MM6 & Hrun6 & Hwf6 & Hr6 & Hc6 & Hget6);
    [done|done|cbn in *; lia|cbn in *; lia|cbn; lia|cbn; lia|].
  destruct (setblock_run (n * 2) 0 m n A MM6)
    as (MM7 & Hrun7 & Hwf7 & Hr7 & Hc7 & Hget7);
    [done|done|cbn in *; lia|cbn in *; lia|lia|lia|].
  destruct (setblock_run (n * 2) n m n (mat_negate A) MM7)
    as (MM8 & Hrun8 & Hwf8 & Hr8 & Hc8 & Hget8);
    [done|done|cbn in *; lia|cbn in *; lia|cbn; lia|cbn; lia|].
  assert (HR : rows MM8 = n * 2 + m) by (cbn in *; congruence).
  assert (HC : columns MM8 = n * 2 + m) by (cbn in *; congruence).
  exists MM8. split; [done|]. split; [done|]. split; [done|]. split.
  - intros i j Hi Hj. rewrite HR in Hi. rewrite HC in Hj.
    rewrite Hget8, Hget7, Hget6, Hget5, Hget4, Hget3, Hget2, Hget1.
    unfold lcp_matrix. fold n.
    destruct (Nat.ltb_spec i n); destruct (Nat.ltb_spec j n);
    try destruct (Nat.ltb_spec i (n * 2)); try destruct (Nat.ltb_spec j (n * 2));
      repeat case_decide; try lia.
    all: rewrite ?Nat.sub_0_r, ?mat_get_negate.
    all: rewrite ?mat_get_transpose by (done || lia).
    all: try (rewrite mat_get_default by (done || lia); done).
    apply mat_get_zero; lia.
  - intros solved zzz Hsol Hz. subst n m.
    unfold solve_qp.
    rewrite bind_run; cbn [gets modify ret qp_Q qp_c qp_A qp_b qp_x].
    rewrite bind_run; cbn [gets modify ret qp_Q qp_c qp_A qp_b qp_x].
    rewrite bind_run; cbn [gets modify ret qp_Q qp_c qp_A qp_b qp_x].
    rewrite bind_run, (on_local_run _ _ _ _ Hrun1).
    rewrite bind_run, (on_local_run _ _ _ _ Hrun2).
    rewrite bind_run; cbn [gets modify ret qp_Q qp_c qp_A qp_b qp_x].
    rewrite bind_run; cbn [gets modify ret qp_Q qp_c qp_A qp_b qp_x].
    rewrite bind_run, (on_local_run _ _ _ _ Hrun3).
    rewrite bind_run, (on_local_run _ _ _ _ Hrun4).
    rewrite bind_run, (on_local_run _ _ _ _ Hrun5).
    rewrite bind_run, (on_local_run _ _ _ _ Hrun6).
    rewrite bind_run, (on_local_run _ _ _ _ Hrun7).
    rewrite bind_run; cbn [gets modify ret qp_Q qp_c qp_A qp_b qp_x].
    rewrite bind_run; cbn [gets modify ret qp_Q qp_c qp_A qp_b qp_x].
    rewrite bind_run, (on_local_run _ _ _ _ Hrun8).
    destruct (lcp_vector_run c b) as (q1 & q2 & Hq1 & Hq2 & Hq3).
    rewrite Hc in Hq1, Hq2, Hq3. rewrite Hb in Hq1.
    rewrite HR.
    rewrite bind_run; cbn [gets modify ret qp_Q qp_c qp_A qp_b qp_x].
    rewrite bind_run, Hq1; cbn [lift ret].
    rewrite bind_run; cbn [gets modify ret qp_Q qp_c qp_A qp_b qp_x].
    rewrite bind_run; cbn [gets modify ret qp_Q qp_c qp_A qp_b qp_x].
    rewrite bind_run, Hq2; cbn [lift ret].
    rewrite bind_run; cbn [gets modify ret qp_Q qp_c qp_A qp_b qp_x].
    rewrite bind_run; cbn [gets modify ret qp_Q qp_c qp_A qp_b qp_x].
    rewrite bind_run, Hq3; cbn [lift ret].
    rewrite lcp_vector_length, Hc, Hb, Hsol.
    rewrite bind_run, extract_all by (cbn; by rewrite ?vec_resize_length).
    cbn [ret qp_Q qp_c qp_A qp_b qp_x]. by destruct solved.
Qed.




End solve_qp_run.

(** X1: for Q of size n x n and A of size m x n (with c of length n and b
    of length m), [solve_qp] hands to the regularized Lemke solver the
    (2n+m) x (2n+m) matrix [[Q, -Q, -A'], [-Q, Q, A'], [A, -A, 0]] and the
    vector [c, -c, -b], with a zero start vector; it returns the solver's
    verdict, so [false] exactly when the solve fails; and it leaves
    [x_i = z_i - z_{n+i}] for [i < n] in [x], for the vector [z] of the
    solver (which has at least 2n entries). *)
Theorem solve_qp_lcp_reduction
    (lcp_lemke_regularized : Mat -> Vec -> Vec -> bool * Vec) (s : qp_refs) :
  mat_wf (qp_Q s) -> columns (qp_Q s) = rows (qp_Q s) ->
  mat_wf (qp_A s) -> columns (qp_A s) = rows (qp_Q s) ->
  length (qp_c s) = rows (qp_Q s) -> length (qp_b s) = rows (qp_A s) ->
  exists MMM,
    rows MMM = rows (qp_Q s) * 2 + rows (qp_A s)
    /\ columns MMM = rows (qp_Q s) * 2 + rows (qp_A s)
    /\ (forall i j, i < rows MMM -> j < columns MMM ->
          mat_get MMM i j = Some (lcp_matrix (qp_Q s) (qp_A s) i j))
    /\ forall solved zzz,
         lcp_lemke_regularized MMM (lcp_vector (qp_c s) (qp_b s))
           (set_zero (rows (qp_Q s) * 2 + rows (qp_A s))) = (solved, zzz) ->
         rows (qp_Q s) * 2 <= length zzz ->
         exists s',
           solve_qp lcp_lemke_regularized s = (Ret solved, s')
           /\ qp_x s' = lcp_extract (rows (qp_Q s)) zzz.
Proof.
  intros HwfQ HcQ HwfA HcA Hc Hb.
  destruct (solve_qp_run lcp_lemke_regularized s HwfQ HcQ HwfA HcA Hc Hb)
    as (MMM & _ & HR & HC & Hget & Hrun).
  exists MMM. split_and!; [exact HR|exact HC|exact Hget|].
  intros solved zzz Hsol Hz. eexists. split; [exact (Hrun solved zzz Hsol Hz)|].
  reflexivity.
Qed.

Lemma solve_qp_lcp_reduction_witness :
  exists MMM s',
    mat_get MMM 0 2 = Some dm1
    /\ solve_qp example_lemke example_qp = (Ret true, s')
    /\ qp_x s' = [d1].
Proof.
  destruct (solve_qp_lcp_reduction example_lemke example_qp)
    as (MMM & HR & HC & Hget & Hrun).
  - split; [reflexivity|]. repeat constructor.
  - reflexivity.
  - split; [reflexivity|]. repeat constructor.
  - reflexivity.
  - reflexivity.
  - reflexivity.
  - destruct (Hrun true [d1; d0; d0] eq_refl) as (s' & Hs & Hx).
    + cbn. lia.
    + exists MMM, s'. split; [|exact (conj Hs Hx)].
      rewrite Hget; [reflexivity|rewrite HR; cbn; lia|rewrite HC; cbn; lia].
Defined.

(** ** The reduction, block by block *)

Lemma lcp_extract_length (n : nat) (zzz : Vec) : length (lcp_extract n zzz) = n.
Proof. unfold lcp_extract. by rewrite length_fmap, length_seq. Qed.

Lemma lcp_extract_lookup (n i : nat) (zzz : Vec) (zi zni : double) :
  i < n -> zzz !! i = Some zi -> zzz !! (n + i) = Some zni ->
  lcp_extract n zzz !! i = Some (dsub zi zni).
Proof.
  intros Hi Hzi Hzni. unfold lcp_extract.
  rewrite list_lookup_fmap, lookup_seq_lt by done. cbn.
  by rewrite Hzi, Hzni.
Qed.

Lemma ltb_false_ge (a b : nat) : b <= a -> (a <? b) = false.
Proof. intros H. by apply Nat.ltb_ge. Qed.

Lemma ltb_true_lt (a b : nat) : a < b -> (a <? b) = true.
Proof. intros H. by apply Nat.ltb_lt. Qed.

(** C6.  [solve_qp(Q, c, A, b, x)], for [Q] of size n x n and [A] of size
    m x n (with [c] of length n and [b] of length m), builds the
    (2n+m) x (2n+m) matrix [[Q, -Q, -A'], [-Q, Q, A'], [A, -A, 0]], block by
    block, and the vector [c, -c, -b]; it solves this LCP by the regularized
    Lemke solver from a zero start vector; it leaves [x_i = z_i - z_{n+i}]
    for [i < n] in [x], for the vector [z] of the solver; and it returns the
    solver's verdict, so [false] exactly when the Lemke solve fails. *)
Theorem C6_solve_qp_lcp_blocks
    (lcp_lemke_regularized : Mat -> Vec -> Vec -> bool * Vec)
    (s : qp_refs) (n m : nat) :
  mat_wf (qp_Q s) -> rows (qp_Q s) = n -> columns (qp_Q s) = n ->
  mat_wf (qp_A s) -> rows (qp_A s) = m -> columns (qp_A s) = n ->
  length (qp_c s) = n -> length (qp_b s) = m ->
  exists MMM,
    rows MMM = n * 2 + m /\ columns MMM = n * 2 + m
    /\ (forall i j q, i < n -> j < n -> mat_get (qp_Q s) i j = Some q ->
          mat_get MMM i j = Some q
          /\ mat_get MMM i (n + j) = Some (dneg q)
          /\ mat_get MMM (n + i) j = Some (dneg q)
          /\ mat_get MMM (n + i) (n + j) = Some q)
    /\ (forall k i a, k < m -> i < n -> mat_get (qp_A s) k i = Some a ->
          mat_get MMM i (n * 2 + k) = Some (dneg a)
          /\ mat_get MMM (n + i) (n * 2 + k) = Some a
          /\ mat_get MMM (n * 2 + k) i = Some a
          /\ mat_get MMM (n * 2 + k) (n + i) = Some (dneg a))
    /\ (forall k l, k < m -> l < m ->
          mat_get MMM (n * 2 + k) (n * 2 + l) = Some d0)
    /\ forall solved zzz,
         lcp_lemke_regularized MMM
           (qp_c s ++ vec_negate (qp_c s) ++ vec_negate (qp_b s))
           (set_zero (n * 2 + m)) = (solved, zzz) ->
         n * 2 <= length zzz ->
         exists s',
           solve_qp lcp_lemke_regularized s = (Ret solved, s')
           /\ length (qp_x s') = n
           /\ (forall i zi zni, i < n ->
                 zzz !! i = Some zi -> zzz !! (n + i) = Some zni ->
                 qp_x s' !! i = Some (dsub zi zni)).
Proof.
  intros HwfQ HrQ HcQ HwfA HrA HcA Hc Hb.
  destruct (solve_qp_run lcp_lemke_regularized s)
    as (MMM & _ & HR & HC & Hget & Hrun); try congruence.
  rewrite HrQ, HrA in HR, HC, Hrun.
  exists MMM. split; [exact HR|]. split; [exact HC|].
  assert (Hat : forall i j, i < n * 2 + m -> j < n * 2 + m ->
            mat_get MMM i j = Some (lcp_matrix (qp_Q s) (qp_A s) i j)).
  { intros i j Hi Hj. apply Hget; lia. }
  split; [|split; [|split]].
  - intros i j q Hi Hj Hq. unfold lcp_matrix in Hat. rewrite HrQ in Hat.
    split_and!; rewrite Hat by lia.
    + by rewrite !ltb_true_lt, Hq by lia.
    + rewrite (ltb_true_lt i), (ltb_false_ge (n + j) n), (ltb_true_lt (n + j))
        by lia.
      replace (n + j - n) with j by lia. by rewrite Hq.
    + rewrite (ltb_false_ge (n + i) n), (ltb_true_lt (n + i)), (ltb_true_lt j)
        by lia.
      replace (n + i - n) with i by lia. by rewrite Hq.
    + rewrite (ltb_false_ge (n + i) n), (ltb_true_lt (n + i)),
        (ltb_false_ge (n + j) n), (ltb_true_lt (n + j)) by lia.
      replace (n + i - n) with i by lia. replace (n + j - n) with j by lia.
      by rewrite Hq.
  - intros k i a Hk Hi Ha. unfold lcp_matrix in Hat. rewrite HrQ in Hat.
    split_and!; rewrite Hat by lia.
    + rewrite (ltb_true_lt i), (ltb_false_ge (n * 2 + k) n),
        (ltb_false_ge (n * 2 + k) (n * 2)) by lia.
      replace (n * 2 + k - n * 2) with k by lia. by rewrite Ha.
    + rewrite (ltb_false_ge (n + i) n), (ltb_true_lt (n + i)),
        (ltb_false_ge (n * 2 + k) n), (ltb_false_ge (n * 2 + k) (n * 2)) by lia.
      replace (n * 2 + k - n * 2) with k by lia.
      replace (n + i - n) with i by lia. by rewrite Ha.
    + rewrite (ltb_false_ge (n * 2 + k) n), (ltb_false_ge (n * 2 + k) (n * 2)),
        (ltb_true_lt i) by lia.
      replace (n * 2 + k - n * 2) with k by lia. by rewrite Ha.
    + rewrite (ltb_false_ge (n * 2 + k) n), (ltb_false_ge (n * 2 + k) (n * 2)),
        (ltb_false_ge (n + i) n), (ltb_true_lt (n + i)) by lia.
      replace (n * 2 + k - n * 2) with k by lia.
      replace (n + i - n) with i by lia. by rewrite Ha.
  - intros k l Hk Hl. rewrite Hat by lia. unfold lcp_matrix. rewrite HrQ.
    by rewrite (ltb_false_ge (n * 2 + k) n), (ltb_false_ge (n * 2 + k) (n * 2)),
      (ltb_false_ge (n * 2 + l) n), (ltb_false_ge (n * 2 + l) (n * 2)) by lia.
  - intros solved zzz Hsol Hz. eexists. split; [exact (Hrun solved zzz Hsol Hz)|].
    cbn [qp_x]. split; [apply lcp_extract_length|].
    intros i zi zni Hi Hzi Hzni. by apply lcp_extract_lookup.
Qed.

Lemma C6_solve_qp_lcp_blocks_witness :
  exists MMM s',
    mat_get MMM 0 0 = Some d1
    /\ mat_get MMM 0 1 = Some dm1
    /\ mat_get MMM 0 2 = Some dm1
    /\ mat_get MMM 2 2 = Some d0
    /\ solve_qp example_lemke example_qp = (Ret true, s')
    /\ qp_x s' !! 0 = Some d1.
Proof.
  destruct (C6_solve_qp_lcp_blocks example_lemke example_qp 1 1)
    as (MMM & HR & HC & HQ & HA & H0 & Hrun).
  - split; [reflexivity|]. repeat constructor.
  - reflexivity.
  - reflexivity.
  - split; [reflexivity|]. repeat constructor.
  - reflexivity.
  - reflexivity.
  - reflexivity.
  - reflexivity.
  - destruct (Hrun true [d1; d0; d0] eq_refl) as (s' & Hs & _ & Hx); [cbn; lia|].
    destruct (HQ 0 0 d1) as (Hq1 & Hq2 & _); [lia|lia|reflexivity|].
    destruct (HA 0 0 d1) as (Ha1 & _); [lia|lia|reflexivity|].
    exists MMM, s'. split_and!.
    + exact Hq1.
    + exact Hq2.
    + exact Ha1.
    + exact (H0 0 0 ltac:(lia) ltac:(lia)).
    + exact Hs.
    + exact (Hx 0 d1 d0 ltac:(lia) eq_refl eq_refl).
Defined.

(** * The friction estimator: the coefficients it writes *)

(** [sqrt(-1)] is the quiet NaN of binary64. *)
Lemma sqrt_minus_one_nan : sqrt_minus_one = S754_nan.
Proof. vm_compute. reflexivity. Qed.

Lemma dleb_zero_not_positive (x : double) : dleb x d0 = true -> dltb d0 x = false.
Proof. by destruct x as [[]|[]| |[] ? ?]. Qed.

Lemma lift_Ret_inv {S A : Type} (e : exn) (o : option A) (a : A) (s s1 : S) :
  lift e o s = (Ret a, s1) -> o = Some a /\ s1 = s.
Proof. destruct o; intros H; by inversion H. Qed.

Lemma gets_inv {S A : Type} (f : S -> A) (a : A) (s s1 : S) :
  gets f s = (Ret a, s1) -> a = f s /\ s1 = s.
Proof. intros H. by injection H as <- <-. Qed.

Lemma modify_inv {S : Type} (f : S -> S) (a : unit) (s s1 : S) :
  modify f s = (Ret a, s1) -> s1 = f s.
Proof. intros H. by injection H as _ <-. Qed.

Lemma estimate_mu_step (nc i : nat) (st st' : fe_refs) :
  (cf0 <- gets cf ;;
    cn <- lift InvalidIndex (cf0 !! i) ;;
    (if dltb d0 cn then
       bs <- lift InvalidIndex (cf0 !! (nc + i)) ;;
       bt <- lift InvalidIndex (cf0 !! (nc * 2 + i)) ;;
       MU0 <- gets MU ;;
       MU1 <- lift InvalidIndex
                (mat_set MU0 i 0 (ddiv (dsqrt (dadd (dmul bs bs) (dmul bt bt))) cn)) ;;
       modify (fun s => mkFe (ITER s) (v_ s) (f_ s) (first s) MU1 (cf s))
     else
       MU0 <- gets MU ;;
       MU1 <- lift InvalidIndex (mat_set MU0 i 0 sqrt_minus_one) ;;
       modify (fun s => mkFe (ITER s) (v_ s) (f_ s) (first s) MU1 (cf s))) ;;
    lift InvalidIndex (cf0 !! (i + nc)) ;;
    lift InvalidIndex (cf0 !! (i + nc * 2)) ;;
    ret tt) st = (Ret tt, st') ->
  exists cn bs bt MU1,
    cf st !! i = Some cn /\ cf st !! (nc + i) = Some bs
    /\ cf st !! (nc * 2 + i) = Some bt
    /\ mat_set (MU st) i 0 (mu_value cn bs bt) = Some MU1
    /\ st' = mkFe (ITER st) (v_ st) (f_ st) (first st) MU1 (cf st).
Proof.
  intros H.
  apply bind_Ret_inv in H as (cf0 & s1 & Hm & H).
  unfold gets in Hm. injection Hm as <- <-.
  apply bind_Ret_inv in H as (cn & s2 & Hm & H).
  apply lift_Ret_inv in Hm as [Hcn ->].
  apply bind_Ret_inv in H as ([] & s3 & Hm & H).
  apply bind_Ret_inv in H as (bs & s4 & Hbs & H).
  apply lift_Ret_inv in Hbs as [Hbs ->].
  apply bind_Ret_inv in H as (bt & s5 & Hbt & H).
  apply lift_Ret_inv in Hbt as [Hbt ->].
  unfold ret in H. injection H as <-.
  rewrite (Nat.add_comm i nc) in Hbs. rewrite (Nat.add_comm i (nc * 2)) in Hbt.
  exists cn, bs, bt. unfold mu_value.
  destruct (dltb d0 cn).
  - apply bind_Ret_inv in Hm as (bs' & s6 & Hm1 & Hm).
    apply lift_Ret_inv in Hm1 as [Hbs' ->].
    apply bind_Ret_inv in Hm as (bt' & s7 & Hm1 & Hm).
    apply lift_Ret_inv in Hm1 as [Hbt' ->].
    apply bind_Ret_inv in Hm as (MU0 & s8 & Hm1 & Hm).
    unfold gets in Hm1. injection Hm1 as <- <-.
    apply bind_Ret_inv in Hm as (MU1 & s9 & Hm1 & Hm).
    apply lift_Ret_inv in Hm1 as [HMU ->].
    unfold modify in Hm. injection Hm as <-.
    exists MU1. rewrite Hbs in Hbs'. rewrite Hbt in Hbt'.
    injection Hbs' as <-. injection Hbt' as <-. done.
  - apply bind_Ret_inv in Hm as (MU0 & s8 & Hm1 & Hm).
    unfold gets in Hm1. injection Hm1 as <- <-.
    apply bind_Ret_inv in Hm as (MU1 & s9 & Hm1 & Hm).
    apply lift_Ret_inv in Hm1 as [HMU ->].
    unfold modify in Hm. injection Hm as <-.
    exists MU1. done.
Qed.

Lemma mat_set_inv (MM MM' : Mat) (i j : nat) (x : double) :
  mat_set MM i j x = Some MM' -> i < rows MM /\ j < columns MM.
Proof.
  unfold mat_set. intros H.
  destruct (bool_decide (i < rows MM)) eqn:Hi; [|done].
  destruct (bool_decide (j < columns MM)) eqn:Hj; [|done].
  apply bool_decide_eq_true in Hi, Hj. done.
Qed.

Lemma estimate_mu_loop (nc : nat) : forall k a (st st' : fe_refs),
  for_each (fun i =>
    cf0 <- gets cf ;;
    cn <- lift InvalidIndex (cf0 !! i) ;;
    (if dltb d0 cn then
       bs <- lift InvalidIndex (cf0 !! (nc + i)) ;;
       bt <- lift InvalidIndex (cf0 !! (nc * 2 + i)) ;;
       MU0 <- gets MU ;;
       MU1 <- lift InvalidIndex
                (mat_set MU0 i 0 (ddiv (dsqrt (dadd (dmul bs bs) (dmul bt bt))) cn)) ;;
       modify (fun s => mkFe (ITER s) (v_ s) (f_ s) (first s) MU1 (cf s))
     else
       MU0 <- gets MU ;;
       MU1 <- lift InvalidIndex (mat_set MU0 i 0 sqrt_minus_one) ;;
       modify (fun s => mkFe (ITER s) (v_ s) (f_ s) (first s) MU1 (cf s))) ;;
    lift InvalidIndex (cf0 !! (i + nc)) ;;
    lift InvalidIndex (cf0 !! (i + nc * 2)) ;;
    ret tt) (seq a k) st = (Ret tt, st') ->
  mat_wf (MU st) ->
  cf st' = cf st
  /\ mat_wf (MU st')
  /\ (forall i, a <= i < a + k ->
        exists cn bs bt,
          cf st !! i = Some cn /\ cf st !! (nc + i) = Some bs
          /\ cf st !! (nc * 2 + i) = Some bt
          /\ mat_get (MU st') i 0 = Some (mu_value cn bs bt))
  /\ (forall i j, ~ (a <= i < a + k /\ j = 0) ->
        mat_get (MU st') i j = mat_get (MU st) i j).
Proof.
  induction k as [|k IH]; intros a st st' H Hwf.
  - cbn [seq for_each] in H. unfold ret in H. injection H as <-.
    split_and!; try done. intros i Hi. lia.
  - cbn [seq for_each] in H.
    apply bind_Ret_inv in H as ([] & st1 & Hstep & H).
    apply estimate_mu_step in Hstep
      as (cn & bs & bt & MU1 & Hcn & Hbs & Hbt & Hset & ->).
    destruct (mat_set_inv _ _ _ _ _ Hset) as [Hi Hj].
    destruct (mat_set_run (MU st) a 0 (mu_value cn bs bt) Hwf Hi Hj)
      as (MM' & Hset' & Hwf' & _ & _ & Hget).
    rewrite Hset in Hset'. injection Hset' as <-.
    apply IH in H as (Hcf & Hwf2 & Hin & Hout); [|done].
    cbn [cf MU] in Hcf, Hin, Hout.
    split_and!; [done|done| |].
    + intros i Hi'. destruct (decide (i = a)) as [->|Hne].
      * exists cn, bs, bt. split_and!; try done.
        rewrite Hout by lia. rewrite Hget. by rewrite decide_True.
      * apply Hin. lia.
    + intros i j Hij. rewrite Hout by lia. rewrite Hget.
      rewrite decide_False; [done|]. intros [-> ->]. apply Hij. lia.
Qed.

(** ** Frame conditions *)

Section frames.
Context {S X : Type} (proj : S -> X).

Lemma preserves_ret {A} (a : A) : preserves proj (ret a).
Proof. intros s o s' H. by injection H as <- <-. Qed.

Lemma preserves_throw {A} (e : exn) : preserves proj (throw (A:=A) e).
Proof. intros s o s' H. by injection H as <- <-. Qed.

Lemma preserves_gets {A} (f : S -> A) : preserves proj (gets f).
Proof. intros s o s' H. by injection H as <- <-. Qed.

Lemma preserves_lift {A} (e : exn) (o : option A) : preserves proj (lift e o).
Proof. destruct o; [apply preserves_ret|apply preserves_throw]. Qed.

Lemma preserves_on_local {L} (c : Exec L unit) (l : L) :
  preserves proj (on_local c l).
Proof.
  intros s o s' H. unfold on_local in H.
  destruct (c l) as [[[]|e] l']; by injection H as <- <-.
Qed.

Lemma preserves_modify (f : S -> S) :
  (forall s, proj (f s) = proj s) -> preserves proj (modify f).
Proof. intros Hf s o s' H. injection H as <- <-. apply Hf. Qed.

Lemma preserves_bind {A B} (m : Exec S A) (k : A -> Exec S B) :
  preserves proj m -> (forall a, preserves proj (k a)) -> preserves proj (bind m k).
Proof.
  intros Hm Hk s o s' H. rewrite bind_run in H.
  destruct (m s) as [[a|e] s1] eqn:E.
  - rewrite (Hk a _ _ _ H). by apply (Hm _ _ _ E).
  - injection H as <- <-. by apply (Hm _ _ _ E).
Qed.

End frames.

Ltac preserves_step :=
  first [ apply preserves_ret | apply preserves_throw | apply preserves_gets
        | apply preserves_lift | apply preserves_on_local
        | apply preserves_modify; intros ?; reflexivity
        | apply preserves_bind; [|intros ?] ].

Section fe_frames.
Context (lcp_lemke_regularized : Mat -> Vec -> Vec -> bool * Vec).
Context (svd : Mat -> Mat * Vec * Mat) (cf_moby : Vec).

Lemma stage_I_problem_MU v dt N D M : preserves MU (stage_I_problem v dt N D M).
Proof. unfold stage_I_problem. repeat preserves_step. Qed.

Lemma nullspace_MU Q : preserves MU (nullspace svd Q).
Proof.
  unfold nullspace. destruct (svd Q) as [[U Sv] V].
  destruct Sv; [apply preserves_ret|].
  case_bool_decide; repeat preserves_step.
Qed.

Lemma stage_II_MU R jstar Q c z nc :
  preserves MU (stage_II lcp_lemke_regularized svd cf_moby R jstar Q c z nc).
Proof.
  unfold stage_II. repeat preserves_step; try apply nullspace_MU.
  case_bool_decide; repeat preserves_step.
  destruct (solve_qp _ _) as [[[]|e] after]; repeat preserves_step.
Qed.

Lemma contact_impulses_MU v dt N D M :
  preserves MU (contact_impulses lcp_lemke_regularized svd cf_moby v dt N D M).
Proof.
  unfold contact_impulses. repeat preserves_step; try apply stage_I_problem_MU.
  destruct (solve_qp _ _) as [[[]|e] after];
    first [apply stage_II_MU | repeat preserves_step].
Qed.
End fe_frames.

Section friction_rows.
Context (lcp_lemke_regularized : Mat -> Vec -> Vec -> bool * Vec).
Context (svd : Mat -> Mat * Vec * Mat) (cf_moby : Vec).

(** The post-event path with at least one contact: the impulses, then the
    coefficients, then the bookkeeping of [v_] and [first]. *)
Lemma friction_estimation_post_event v f dt N D M (st st' : fe_refs) err :
  0 < columns N ->
  friction_estimation lcp_lemke_regularized svd cf_moby v f dt N D M true st
    = (Ret err, st') ->
  exists z s1 s2,
    contact_impulses lcp_lemke_regularized svd cf_moby v dt N D M st
      = (Ret (z, err), s1)
    /\ estimate_mu (columns N)
         (mkFe (ITER s1) (v_ s1) (f_ s1) (first s1) (MU s1) z) = (Ret tt, s2)
    /\ st' = mkFe (ITER s2) v (f_ s2) false (MU s2) (cf s2).
Proof.
  intros Hnc H. unfold friction_estimation in H.
  rewrite bool_decide_eq_true_2 in H by done.
  apply bind_Ret_inv in H as (e1 & t1 & H1 & H).
  apply bind_Ret_inv in H as ([] & t2 & H2 & H).
  injection H2 as <-. injection H as <- <-.
  apply bind_Ret_inv in H1 as (e2 & t3 & H1 & H).
  apply bind_Ret_inv in H as ([] & t4 & H2 & H).
  injection H2 as <-. injection H as <- <-.
  apply bind_Ret_inv in H1 as ([z e3] & t5 & H1 & H).
  apply bind_Ret_inv in H as ([] & t6 & H2 & H).
  injection H2 as <-.
  apply bind_Ret_inv in H as ([] & t7 & H2 & H).
  injection H as <- <-.
  exists z, t5, t7. by split_and!.
Qed.

(** X2: after a post-event call of [friction_estimation] that returns, with
    [z] the impulses the two stages produced (the call stores them in [cf]),
    every contact row [i < nc] has a normal impulse [cn = z_i] and tangential
    impulses [bs = z_(nc+i)], [bt = z_(2 nc+i)]; if [cn > 0] the entry
    [MU(i,0)] is [sqrt(bs*bs + bt*bt) / cn], and if [cn <= 0] it is NaN. *)
Theorem friction_coefficient_rows v f dt N D M (st st' : fe_refs) err i :
  mat_wf (MU st) ->
  friction_estimation lcp_lemke_regularized svd cf_moby v f dt N D M true st
    = (Ret err, st') ->
  i < columns N ->
  exists z s1 cn bs bt,
    contact_impulses lcp_lemke_regularized svd cf_moby v dt N D M st
      = (Ret (z, err), s1)
    /\ cf st' = z
    /\ z !! i = Some cn
    /\ z !! (columns N + i) = Some bs
    /\ z !! (columns N * 2 + i) = Some bt
    /\ (dltb d0 cn = true ->
        mat_get (MU st') i 0
          = Some (ddiv (dsqrt (dadd (dmul bs bs) (dmul bt bt))) cn))
    /\ (dleb cn d0 = true -> mat_get (MU st') i 0 = Some S754_nan).
Proof.
  intros Hwf H Hi.
  apply friction_estimation_post_event in H as (z & s1 & s2 & Hz & Hmu & ->);
    [|lia].
  pose proof (contact_impulses_MU _ _ _ _ _ _ _ _ _ _ _ Hz) as Hframe.
  unfold estimate_mu in Hmu.
  apply estimate_mu_loop in Hmu as (Hcf & _ & Hrows & _);
    [|cbn; by rewrite Hframe].
  destruct (Hrows i ltac:(lia)) as (cn & bs & bt & Hcn & Hbs & Hbt & Hget).
  cbn in Hcf, Hcn, Hbs, Hbt. exists z, s1, cn, bs, bt. cbn [cf MU].
  split_and!; try done.
  - intros Hpos. by rewrite Hget; unfold mu_value; rewrite Hpos.
  - intros Hneg. rewrite Hget. unfold mu_value.
    by rewrite (dleb_zero_not_positive _ Hneg), sqrt_minus_one_nan.
Qed.
(** C4.  After a post-event call of [friction_estimation] that returns,
    [cf] holds the solution [z] of the two stages, and for every contact row
    [i < nc], with the normal impulse [cn = z_i] and the tangential impulses
    [bs = z_(nc+i)] and [bt = z_(2 nc+i)], the estimated coefficient
    [MU(i,0)] is [sqrt(bs*bs + bt*bt) / cn] when [cn > 0] and NaN otherwise,
    so NaN when [cn <= 0]. *)
Theorem C4_friction_coefficient v f dt N D M (st st' : fe_refs) err i :
  mat_wf (MU st) ->
  friction_estimation lcp_lemke_regularized svd cf_moby v f dt N D M true st
    = (Ret err, st') ->
  i < columns N ->
  exists s1 cn bs bt,
    contact_impulses lcp_lemke_regularized svd cf_moby v dt N D M st
      = (Ret (cf st', err), s1)
    /\ cf st' !! i = Some cn
    /\ cf st' !! (columns N + i) = Some bs
    /\ cf st' !! (columns N * 2 + i) = Some bt
    /\ mat_get (MU st') i 0
       = Some (if dltb d0 cn
               then ddiv (dsqrt (dadd (dmul bs bs) (dmul bt bt))) cn
               else S754_nan)
    /\ (dleb cn d0 = true -> mat_get (MU st') i 0 = Some S754_nan).
Proof.
  intros Hwf H Hi.
  apply friction_estimation_post_event in H as (z & s1 & s2 & Hz & Hmu & ->);
    [|lia].
  pose proof (contact_impulses_MU _ _ _ _ _ _ _ _ _ _ _ Hz) as Hframe.
  unfold estimate_mu in Hmu.
  apply estimate_mu_loop in Hmu as (Hcf & _ & Hrows & _);
    [|cbn; by rewrite Hframe].
  destruct (Hrows i ltac:(lia)) as (cn & bs & bt & Hcn & Hbs & Hbt & Hget).
  cbn in Hcf, Hcn, Hbs, Hbt. cbn [cf MU]. rewrite Hcf.
  exists s1, cn, bs, bt. split_and!; [done..| |].
  - rewrite Hget. unfold mu_value. by rewrite sqrt_minus_one_nan.
  - intros Hneg. rewrite Hget. unfold mu_value.
    by rewrite (dleb_zero_not_positive _ Hneg), sqrt_minus_one_nan.
Qed.

End friction_rows.

(** The example contact: [z = (1, -1, 0)], so [MU(0,0) = sqrt(1 + 0) / 1]. *)
Lemma friction_coefficient_rows_witness :
  exists z s1 cn bs bt,
    contact_impulses example_lemke_I example_svd example_cf_moby
      example_v example_dt example_N example_D example_M example_fe
      = (Ret (z, d0), s1)
    /\ cf example_estimated = z
    /\ z !! 0 = Some cn
    /\ z !! (columns example_N + 0) = Some bs
    /\ z !! (columns example_N * 2 + 0) = Some bt
    /\ (dltb d0 cn = true ->
        mat_get (MU example_estimated) 0 0
          = Some (ddiv (dsqrt (dadd (dmul bs bs) (dmul bt bt))) cn))
    /\ (dleb cn d0 = true -> mat_get (MU example_estimated) 0 0 = Some S754_nan).
Proof.
  apply (friction_coefficient_rows example_lemke_I example_svd example_cf_moby
           example_v [] example_dt example_N example_D example_M
           example_fe example_estimated d0 0).
  - by_evaluation.
  - vm_compute. reflexivity.
  - vm_compute. lia.
Defined.

(** On the example contact the normal impulse is 1 and the row holds
    [sqrt((-1)*(-1) + 0*0) / 1]. *)
Lemma C4_friction_coefficient_witness :
  exists cn bs bt,
    cf example_estimated !! 0 = Some cn
    /\ cf example_estimated !! (columns example_N + 0) = Some bs
    /\ cf example_estimated !! (columns example_N * 2 + 0) = Some bt
    /\ mat_get (MU example_estimated) 0 0
       = Some (if dltb d0 cn
               then ddiv (dsqrt (dadd (dmul bs bs) (dmul bt bt))) cn
               else S754_nan).
Proof.
  destruct (C4_friction_coefficient example_lemke_I example_svd example_cf_moby
              example_v [] example_dt example_N example_D example_M
              example_fe example_estimated d0 0)
    as (s1 & cn & bs & bt & _ & Hcn & Hbs & Hbt & Hmu & _).
  - by_evaluation.
  - vm_compute. reflexivity.
  - vm_compute. lia.
  - exists cn, bs, bt. exact (conj Hcn (conj Hbs (conj Hbt Hmu))).
Defined.

(** * [solve_qp] and its reference arguments *)






(** * More of the state store *)

(** ** The phase gate *)

Lemma phase_after_check_idem (u : unit_e) (p q : ControllerPhase) :
  phase_after_check u p = Some q -> phase_after_check u q = Some q.
Proof. destruct u, p; intros [= <-]; reflexivity. Qed.

(** X5: [check_phase] changes nothing but the controller phase; when it
    throws it changes nothing at all; and once it has returned for a unit,
    checking the same unit again returns without a further change. *)
Theorem check_phase_settles (u : unit_e) (r : Robot) :
  match check_phase u r with
  | (Ret _, r') =>
      r' = with_controller_phase (controller_phase r') r
      /\ check_phase u r' = (Ret tt, r')
  | (Throw e, r') => e = PhaseViolation /\ r' = r
  end.
Proof.
  rewrite check_phase_run.
  destruct (phase_after_check u (controller_phase r)) as [q|] eqn:Hq; [|done].
  split; [by destruct r|].
  rewrite check_phase_run. cbn [controller_phase with_controller_phase].
  rewrite (phase_after_check_idem _ _ _ Hq). by destruct r.
Qed.

(** ** Single joints *)

(** X6: in a phase that admits the unit, and when the vector has as many
    rows as the entry of the joint, [set_joint_value(id, u, v)] followed by
    [get_joint_value(id, u)] returns [v], and no other entry of the store is
    changed. *)
Theorem set_joint_value_round_trip (id : string) (u : unit_e) (v : VectorNd)
    (r : Robot) :
  fst (check_phase u r) = Ret tt ->
  length (default [] (state_entry r u id)) = length v ->
  exists r1 r2,
    set_joint_value id u v r = (Ret tt, r1)
    /\ get_joint_value id u r1 = (Ret v, r2)
    /\ forall u' id', (u', id') <> (u, id) ->
         state_entry r1 u' id' = state_entry r u' id'.
Proof.
  intros Hphase Hlen. rewrite check_phase_run in Hphase.
  destruct (phase_after_check u (controller_phase r)) as [p|] eqn:Hp; [|done].
  unfold set_joint_value. rewrite bind_run, check_phase_run, Hp, bind_run.
  destruct (state_index_run u id (with_controller_phase p r))
    as (r0 & -> & He0 & _ & _ & _ & _ & _ & Hother0).
  rewrite state_entry_with_controller_phase.
  rewrite bool_decide_eq_false_2 by (intros Hne; by apply Hne).
  destruct (state_assign_run u id v r0)
    as (r1 & -> & He1 & _ & _ & _ & _ & _ & Hother1).
  destruct (state_index_run u id r1) as (r2 & Hget & _).
  exists r1, r2. unfold get_joint_value. rewrite Hget, He1. split_and!; try done.
  intros u' id' Hne. by rewrite Hother1, Hother0.
Qed.

Lemma set_joint_value_round_trip_witness :
  exists r1 r2,
    set_joint_value "knee" position [d1; dm1] example_perceiving = (Ret tt, r1)
    /\ get_joint_value "knee" position r1 = (Ret [d1; dm1], r2)
    /\ forall u' id', (u', id') <> (position, "knee") ->
         state_entry r1 u' id' = state_entry example_perceiving u' id'.
Proof.
  apply (set_joint_value_round_trip "knee" position [d1; dm1] example_perceiving).
  - vm_compute. reflexivity.
  - vm_compute. reflexivity.
Defined.

(** X7: a vector whose rows differ from those of the entry is refused by
    [set_joint_value], but not without a trace: the phase is as
    [check_phase] left it (advanced, if the check advanced it) and the store
    holds an entry for the joint, empty if there was none. *)
Theorem set_joint_value_missized (id : string) (u : unit_e) (v : VectorNd)
    (r : Robot) (p : ControllerPhase) :
  phase_after_check u (controller_phase r) = Some p ->
  length (default [] (state_entry r u id)) <> length v ->
  exists r',
    set_joint_value id u v r = (Throw DOFMismatch, r')
    /\ controller_phase r' = p
    /\ state_entry r' u id = Some (default [] (state_entry r u id))
    /\ forall u' id', (u', id') <> (u, id) ->
         state_entry r' u' id' = state_entry r u' id'.
Proof.
  intros Hp Hlen.
  unfold set_joint_value. rewrite bind_run, check_phase_run, Hp, bind_run.
  destruct (state_index_run u id (with_controller_phase p r))
    as (r0 & -> & He0 & Hph & _ & _ & _ & _ & Hother0).
  rewrite state_entry_with_controller_phase in *.
  rewrite bool_decide_eq_true_2 by done.
  exists r0. split_and!; try done.
Qed.

Lemma set_joint_value_missized_witness :
  exists r',
    set_joint_value "tail" position_goal [d1] example_perceiving
      = (Throw DOFMismatch, r')
    /\ controller_phase r' = PLANNING
    /\ state_entry r' position_goal "tail" = Some []
    /\ state_entry example_perceiving position_goal "tail" = None.
Proof.
  destruct (set_joint_value_missized "tail" position_goal [d1]
              example_perceiving PLANNING) as (r' & Hrun & Hp & He & _).
  - vm_compute. reflexivity.
  - vm_compute. lia.
  - exists r'. split_and!; [exact Hrun|exact Hp|exact He|vm_compute; reflexivity].
Defined.

(** X8: in a phase that admits the unit, writing one coordinate of a
    joint with [set_joint_value(id, u, dof, val)], for an index within the
    entry, changes that coordinate only, and [get_joint_value(id, u, dof)]
    reads [val] back. *)
Theorem set_joint_value_dof_round_trip (id : string) (u : unit_e) (dof : Z)
    (val : double) (r : Robot) :
  fst (check_phase u r) = Ret tt ->
  (0 <= dof < Z.of_nat (length (default [] (state_entry r u id))))%Z ->
  exists r1 r2,
    set_joint_value_dof id u dof val r = (Ret tt, r1)
    /\ get_joint_value_dof id u dof r1 = (Ret val, r2)
    /\ state_entry r1 u id
       = Some (<[Z.to_nat dof := val]> (default [] (state_entry r u id))).
Proof.
  intros Hphase Hdof. rewrite check_phase_run in Hphase.
  destruct (phase_after_check u (controller_phase r)) as [p|] eqn:Hp; [|done].
  pose proof (set_joint_value_dof_run id u dof val r) as Hrun.
  rewrite Hp in Hrun. unfold vec_store in Hrun.
  rewrite !bool_decide_eq_true_2 in Hrun by lia. cbn [andb] in Hrun.
  destruct Hrun as (Hret & _ & He).
  destruct (set_joint_value_dof id u dof val r) as [o r1]. cbn in Hret, He.
  subst o. destruct (state_index_run u id r1) as (r2 & Hget & _).
  exists r1, r2. unfold get_joint_value_dof. rewrite bind_run, Hget, He.
  cbn [default]. unfold vec_at.
  rewrite bool_decide_eq_true_2 by lia.
  change (Datatypes.id (<[Z.to_nat dof:=val]> ?l)) with (<[Z.to_nat dof:=val]> l).
  rewrite list_lookup_insert_eq by lia.
  by split_and!.
Qed.

Lemma set_joint_value_dof_round_trip_witness :
  exists r1 r2,
    set_joint_value_dof "knee" velocity 1 dm1 example_perceiving = (Ret tt, r1)
    /\ get_joint_value_dof "knee" velocity 1 r1 = (Ret dm1, r2)
    /\ state_entry r1 velocity "knee" = Some [d0; dm1].
Proof.
  destruct (set_joint_value_dof_round_trip "knee" velocity 1 dm1 example_perceiving)
    as (r1 & r2 & H1 & H2 & H3).
  - vm_compute. reflexivity.
  - vm_compute. split; [discriminate|reflexivity].
  - exists r1, r2. split_and!; [exact H1|exact H2|].
    rewrite H3. vm_compute. reflexivity.
Defined.

(** ** Joint values, a map at a time *)

Lemma set_joint_value_map_loop (u : unit_e) (m : gmap string VectorNd)
    (keys : list string) : forall r,
  (forall id, id ∈ keys ->
     length (default [] (state_entry r u id)) = length (default [] (m !! id))) ->
  exists r',
    for_each (fun key =>
      dof_val_internal <- state_index u key ;;
      let dof_val := default [] (m !! key) in
      if bool_decide (length dof_val_internal <> length dof_val)
      then throw DOFMismatch
      else state_assign u key dof_val) keys r = (Ret tt, r')
    /\ controller_phase r' = controller_phase r
    /\ (forall id, id ∈ keys -> state_entry r' u id = Some (default [] (m !! id)))
    /\ (forall u' id', u' <> u \/ id' ∉ keys ->
          state_entry r' u' id' = state_entry r u' id').
Proof.
  induction keys as [|key keys IH]; intros r Hsized.
  - exists r. split_and!; try done. intros id Hin. by apply elem_of_nil in Hin.
  - cbn [for_each]. rewrite !bind_run.
    destruct (state_index_run u key r)
      as (r0 & -> & He0 & Hp0 & _ & _ & _ & _ & Hother0).
    rewrite bool_decide_eq_false_2
      by (intros Hne; apply Hne, Hsized; by left).
    destruct (state_assign_run u key (default [] (m !! key)) r0)
      as (r1 & -> & He1 & Hp1 & _ & _ & _ & _ & Hother1).
    assert (Hstep : forall u' id', (u', id') <> (u, key) ->
              state_entry r1 u' id' = state_entry r u' id').
    { intros u' id' Hne. by rewrite Hother1, Hother0. }
    destruct (IH r1) as (r' & Hrun & Hp & Hin & Hout).
    { intros id Hid. destruct (decide (id = key)) as [->|Hne].
      - by rewrite He1.
      - rewrite Hstep by congruence. apply Hsized. by right. }
    exists r'. split; [exact Hrun|]. split; [congruence|]. split.
    + intros id Hid. apply elem_of_cons in Hid as [->|Hid]; [|by apply Hin].
      destruct (decide (key ∈ keys)) as [Hk|Hk]; [by apply Hin|].
      rewrite Hout by (by right). exact He1.
    + intros u' id' Hne. rewrite Hout.
      * apply Hstep. intros [= -> ->]. destruct Hne as [Hne|Hne]; [done|].
        apply Hne. by left.
      * destruct Hne as [Hne|Hne]; [by left|]. right. intros Hk. apply Hne. by right.
Qed.

(** X9: the map overload of [set_joint_value] does not consult the phase:
    in every phase, when each vector of the map has the rows of its joint's
    entry, it returns, leaves the phase as it is and stores each vector;
    the entries of other units and of joints outside the map are kept. *)
Theorem set_joint_value_map_skips_phase_gate (u : unit_e)
    (id_dof_val_map : gmap string VectorNd) (r : Robot) :
  (forall id v, id_dof_val_map !! id = Some v ->
     length (default [] (state_entry r u id)) = length v) ->
  exists r',
    set_joint_value_map u id_dof_val_map r = (Ret tt, r')
    /\ controller_phase r' = controller_phase r
    /\ (forall id v, id_dof_val_map !! id = Some v -> state_entry r' u id = Some v)
    /\ (forall u' id', u' <> u \/ id_dof_val_map !! id' = None ->
          state_entry r' u' id' = state_entry r u' id').
Proof.
  intros Hsized. unfold set_joint_value_map.
  destruct (set_joint_value_map_loop u id_dof_val_map
              (keys_in_order id_dof_val_map) r) as (r' & Hrun & Hp & Hin & Hout).
  { intros id Hid. apply elem_of_keys_in_order in Hid as [v Hv].
    rewrite Hv. by apply Hsized. }
  exists r'. split; [exact Hrun|]. split; [exact Hp|]. split.
  - intros id v Hv. rewrite Hin; [by rewrite Hv|].
    apply elem_of_keys_in_order. by eexists.
  - intros u' id' [Hne|Hnone]; apply Hout; [by left|]. right.
    rewrite elem_of_keys_in_order, Hnone. by intros [? ?].
Qed.

Lemma set_joint_value_map_skips_phase_gate_witness :
  set_joint_value "hip" position [d1] example_controlling
    = (Throw PhaseViolation, example_controlling)
  /\ exists r',
    set_joint_value_map position {["hip" := [d1]]} example_controlling = (Ret tt, r')
    /\ controller_phase r' = CONTROL
    /\ state_entry r' position "hip" = Some [d1].
Proof.
  split; [vm_compute; reflexivity|].
  destruct (set_joint_value_map_skips_phase_gate position {["hip" := [d1]]}
              example_controlling) as (r' & Hrun & Hp & Hin & _).
  - intros id v Hv. apply lookup_singleton_Some in Hv as [<- <-].
    vm_compute. reflexivity.
  - exists r'. split; [exact Hrun|]. split.
    + rewrite Hp. vm_compute. reflexivity.
    + apply Hin. apply lookup_singleton_eq.
Defined.

(** ** The base *)

Lemma set_base_value_run (u : unit_e) (vec : VectorNd) (r : Robot) :
  set_base_value u vec r =
    match phase_after_check u (controller_phase r) with
    | None => (Throw PhaseViolation, r)
    | Some p =>
        if bool_decide (length vec <> base_rows u)
        then (Throw DOFMismatch, with_controller_phase p r)
        else (Ret tt, with_base_state (<[u := vec]> (_base_state r))
                        (with_controller_phase p r))
    end.
Proof.
  unfold set_base_value. rewrite bind_run, check_phase_run.
  destruct (phase_after_check u (controller_phase r)) as [p|]; [|done].
  rewrite bind_run.
  destruct u; cbn [base_rows]; case_bool_decide; reflexivity.
Qed.

(** X10: in a phase that admits the unit, [set_base_value(u, vec)] with a
    vector of seven rows for [position] and [position_goal], six for any
    other unit, followed by [get_base_value(u)], returns [vec]; the joint
    store and the base vectors of other units are not changed. *)
Theorem set_base_value_round_trip (u : unit_e) (vec : VectorNd) (r : Robot) :
  fst (check_phase u r) = Ret tt ->
  length vec = base_rows u ->
  exists r1 r2,
    set_base_value u vec r = (Ret tt, r1)
    /\ get_base_value u r1 = (Ret vec, r2)
    /\ _state r1 = _state r
    /\ forall u', u' <> u -> _base_state r1 !! u' = _base_state r !! u'.
Proof.
  intros Hphase Hlen. rewrite check_phase_run in Hphase.
  destruct (phase_after_check u (controller_phase r)) as [p|] eqn:Hp; [|done].
  rewrite set_base_value_run, Hp.
  rewrite bool_decide_eq_false_2 by (intros Hne; by apply Hne).
  eexists _, _. split; [reflexivity|].
  unfold get_base_value, map_index. cbn [_base_state with_base_state].
  rewrite lookup_insert_eq. split_and!; try done.
  intros u' Hne. by rewrite lookup_insert_ne.
Qed.

Lemma set_base_value_round_trip_witness :
  exists r1 r2,
    set_base_value velocity (set_zero 5 ++ [d1]) example_perceiving = (Ret tt, r1)
    /\ get_base_value velocity r1 = (Ret (set_zero 5 ++ [d1]), r2)
    /\ _state r1 = _state example_perceiving
    /\ forall u', u' <> velocity ->
         _base_state r1 !! u' = _base_state example_perceiving !! u'.
Proof.
  apply (set_base_value_round_trip velocity (set_zero 5 ++ [d1]) example_perceiving).
  - vm_compute. reflexivity.
  - reflexivity.
Defined.

(** X11: a base vector with any other number of rows is refused by
    [set_base_value] with an exception, and the stored base vectors stay as
    they were. *)
Theorem set_base_value_missized (u : unit_e) (vec : VectorNd) (r : Robot) :
  length vec <> base_rows u ->
  exists e r',
    set_base_value u vec r = (Throw e, r')
    /\ _base_state r' = _base_state r.
Proof.
  intros Hlen. rewrite set_base_value_run.
  destruct (phase_after_check u (controller_phase r)) as [p|]; [|by eexists _, _].
  rewrite bool_decide_eq_true_2 by done. by eexists _, _.
Qed.

Lemma set_base_value_missized_witness :
  exists e r',
    set_base_value position (set_zero 6) example_perceiving = (Throw e, r')
    /\ _base_state r' = _base_state example_perceiving.
Proof.
  apply (set_base_value_missized position (set_zero 6) example_perceiving).
  vm_compute. lia.
Defined.

(** ** The feet *)

Lemma foot_unit_index_run (u : unit_e) (r : Robot) :
  foot_unit_index u r
  = (Ret (default ∅ (_foot_state r !! u)),
     with_foot_state (<[u := default ∅ (_foot_state r !! u)]> (_foot_state r)) r).
Proof.
  unfold foot_unit_index, map_index.
  destruct (_foot_state r !! u) as [inner|] eqn:Hu; cbn; [|done].
  by rewrite insert_id.
Qed.

(** X12: in a phase that admits the unit, [set_foot_value(id, u, val)]
    followed by [get_foot_value(id, u)] returns [val] and marks the foot as
    set; other feet and other units are not changed. *)
Theorem set_foot_value_round_trip (id : string) (u : unit_e) (val : Origin3d)
    (r : Robot) :
  fst (check_phase u r) = Ret tt ->
  exists r1 r2,
    set_foot_value id u val r = (Ret tt, r1)
    /\ get_foot_value id u r1 = (Ret val, r2)
    /\ _foot_is_set r1 !! id = Some true
    /\ (forall u' id', (u', id') <> (u, id) ->
          foot_entry r1 u' id' = foot_entry r u' id')
    /\ forall id', id' <> id -> _foot_is_set r1 !! id' = _foot_is_set r !! id'.
Proof.
  intros Hphase. rewrite check_phase_run in Hphase.
  destruct (phase_after_check u (controller_phase r)) as [p|] eqn:Hp; [|done].
  unfold set_foot_value.
  rewrite bind_run, check_phase_run, Hp, bind_run, foot_unit_index_run.
  rewrite !bind_run. cbn [modify _foot_state with_foot_state with_controller_phase
                           _foot_is_set with_foot_is_set].
  rewrite insert_insert_eq.
  eexists _, _. split; [reflexivity|].
  unfold get_foot_value. rewrite bind_run, foot_unit_index_run.
  cbn [_foot_state with_foot_state with_foot_is_set].
  rewrite lookup_insert_eq. cbn [default]. unfold map_index.
  change (Datatypes.id (<[id:=val]> ?m)) with (<[id:=val]> m).
  rewrite lookup_insert_eq. split; [reflexivity|].
  cbn [_foot_is_set with_foot_is_set]. rewrite lookup_insert_eq.
  split; [done|]. split.
  - intros u' id' Hne. unfold foot_entry.
    cbn [_foot_state with_foot_state with_foot_is_set with_controller_phase].
    destruct (decide (u' = u)) as [->|Hu].
    + rewrite lookup_insert_eq. cbn.
      rewrite lookup_insert_ne by congruence.
      by destruct (_foot_state r !! u).
    + by rewrite lookup_insert_ne.
  - intros id' Hne. by rewrite lookup_insert_ne.
Qed.

Lemma set_foot_value_round_trip_witness :
  exists r1 r2,
    set_foot_value "foot" position (mkOrigin3d d1 d0 dm1) example_perceiving
      = (Ret tt, r1)
    /\ get_foot_value "foot" position r1 = (Ret (mkOrigin3d d1 d0 dm1), r2)
    /\ _foot_is_set r1 !! "foot" = Some true
    /\ _foot_is_set example_perceiving !! "foot" = Some false.
Proof.
  destruct (set_foot_value_round_trip "foot" position (mkOrigin3d d1 d0 dm1)
              example_perceiving) as (r1 & r2 & H1 & H2 & H3 & _).
  - vm_compute. reflexivity.
  - exists r1, r2. split_and!; [exact H1|exact H2|exact H3|vm_compute; reflexivity].
Defined.

Lemma set_foot_step (u : unit_e) (val : gmap string Origin3d) (key : string)
    (r : Robot) :
  exists r',
    set_foot_value_entry u val key r = (Ret tt, r')
    /\ controller_phase r' = controller_phase r
    /\ (forall u' id',
          foot_entry r' u' id' =
            if decide (u' = u /\ id' = key /\ is_Some (foot_entry r u key))
            then Some (default Origin3d_zero (val !! key))
            else foot_entry r u' id')
    /\ (forall id',
          _foot_is_set r' !! id' =
            if decide (id' = key /\ is_Some (foot_entry r u key))
            then Some true else _foot_is_set r !! id').
Proof.
  unfold set_foot_value_entry. rewrite bind_run, foot_unit_index_run.
  assert (Hentry : default ∅ (_foot_state r !! u) !! key = foot_entry r u key).
  { unfold foot_entry. by destruct (_foot_state r !! u). }
  rewrite Hentry.
  destruct (foot_entry r u key) as [old|] eqn:Hold.
  - rewrite bind_run.
    cbn [modify _foot_state with_foot_state _foot_is_set with_foot_is_set].
    rewrite insert_insert_eq. eexists. split; [reflexivity|].
    split; [done|]. split.
    + intros u' id'. unfold foot_entry at 1.
      cbn [_foot_state with_foot_state with_foot_is_set].
      case_decide as Hd.
      * destruct Hd as (-> & -> & _). rewrite lookup_insert_eq. cbn.
        by rewrite lookup_insert_eq.
      * destruct (decide (u' = u)) as [->|Hu].
        -- rewrite lookup_insert_eq. cbn.
           destruct (decide (id' = key)) as [->|Hk].
           ++ destruct Hd. by split_and!.
           ++ rewrite lookup_insert_ne by done. unfold foot_entry.
              by destruct (_foot_state r !! u).
        -- by rewrite lookup_insert_ne.
    + intros id'. cbn [_foot_is_set with_foot_is_set]. case_decide as Hd.
      * destruct Hd as [-> _]. by rewrite lookup_insert_eq.
      * rewrite lookup_insert_ne; [done|]. intros <-. by destruct Hd.
  - eexists. split; [reflexivity|]. split; [done|]. split.
    + intros u' id'. rewrite decide_False by (intros (_ & _ & [? ?]); done).
      unfold foot_entry. cbn [_foot_state with_foot_state].
      destruct (decide (u' = u)) as [->|Hu].
      * rewrite lookup_insert_eq. by destruct (_foot_state r !! u).
      * by rewrite lookup_insert_ne.
    + intros id'. by rewrite decide_False by (intros (_ & [? ?]); done).
Qed.

Lemma set_foot_loop (u : unit_e) (val : gmap string Origin3d) (keys : list string) :
  forall r,
  exists r',
    for_each (set_foot_value_entry u val) keys r = (Ret tt, r')
    /\ controller_phase r' = controller_phase r
    /\ (forall u' id',
          foot_entry r' u' id' =
            if decide (u' = u /\ id' ∈ keys /\ is_Some (foot_entry r u id'))
            then Some (default Origin3d_zero (val !! id'))
            else foot_entry r u' id')
    /\ (forall id',
          _foot_is_set r' !! id' =
            if decide (id' ∈ keys /\ is_Some (foot_entry r u id'))
            then Some true else _foot_is_set r !! id').
Proof.
  induction keys as [|key keys IH]; intros r.
  - exists r. split_and!; try done.
    intros u' id'. rewrite decide_False; [done|].
    intros (_ & Hin & _). by apply elem_of_nil in Hin.
  - cbn [for_each]. rewrite bind_run.
    destruct (set_foot_step u val key r) as (r1 & -> & Hp1 & He1 & Hs1).
    destruct (IH r1) as (r' & Hrun & Hp & He & Hs).
    exists r'. split; [exact Hrun|]. split; [congruence|].
    assert (Hsome : forall id', is_Some (foot_entry r1 u id')
                                <-> is_Some (foot_entry r u id')).
    { intros id'. rewrite He1. case_decide as Hd; [|done].
      destruct Hd as (_ & -> & Hk). split; [done|by eexists]. }
    split.
    + intros u' id'. rewrite He, (He1 u' id').
      destruct (decide (u' = u /\ id' ∈ key :: keys /\ is_Some (foot_entry r u id')))
        as [(-> & Hin & Hk)|Hn].
      * apply elem_of_cons in Hin as [->|Hin].
        -- case_decide as Hd1; [done|]. by rewrite decide_True.
        -- rewrite decide_True; [done|]. split_and!; [done|done|by apply Hsome].
      * rewrite decide_False.
        -- rewrite decide_False; [done|]. intros (-> & -> & Hk).
           apply Hn. split_and!; [done|by left|done].
        -- intros (-> & Hin & Hk).
           apply Hn. split_and!; [done|by right|by apply Hsome].
    + intros id'. rewrite Hs, Hs1.
      destruct (decide (id' ∈ key :: keys /\ is_Some (foot_entry r u id')))
        as [(Hin & Hk)|Hn].
      * apply elem_of_cons in Hin as [->|Hin].
        -- case_decide as Hd1; [done|]. by rewrite decide_True.
        -- rewrite decide_True; [done|]. split; [done|by apply Hsome].
      * rewrite decide_False.
        -- rewrite decide_False; [done|]. intros (-> & Hk).
           apply Hn. split; [by left|done].
        -- intros (Hin & Hk). apply Hn. split; [by right|by apply Hsome].
Qed.

(** X13: the map overload of [set_foot_value] writes only the feet that
    already have an entry for the unit: such a foot gets the value of the
    map and is marked as set; a foot of the map without an entry is
    ignored, where the single-foot overload would create it. *)
Theorem set_foot_value_map_known_feet_only (u : unit_e)
    (val : gmap string Origin3d) (r : Robot) :
  fst (check_phase u r) = Ret tt ->
  exists r',
    set_foot_value_map u val r = (Ret tt, r')
    /\ (forall id,
          foot_entry r' u id =
            match foot_entry r u id, val !! id with
            | Some _, Some v => Some v
            | old, _ => old
            end)
    /\ (forall id,
          _foot_is_set r' !! id =
            match foot_entry r u id, val !! id with
            | Some _, Some _ => Some true
            | _, _ => _foot_is_set r !! id
            end)
    /\ forall u' id, u' <> u -> foot_entry r' u' id = foot_entry r u' id.
Proof.
  intros Hphase. rewrite check_phase_run in Hphase.
  destruct (phase_after_check u (controller_phase r)) as [p|] eqn:Hp; [|done].
  unfold set_foot_value_map. rewrite bind_run, check_phase_run, Hp.
  destruct (set_foot_loop u val (keys_in_order val) (with_controller_phase p r))
    as (r' & Hrun & _ & He & Hs).
  exists r'. split; [exact Hrun|].
  change (foot_entry (with_controller_phase p r)) with (foot_entry r) in *.
  change (_foot_is_set (with_controller_phase p r)) with (_foot_is_set r) in *.
  split_and!.
  - intros id. rewrite He. case_decide as Hd.
    + destruct Hd as (_ & Hin & [old Hold]).
      apply elem_of_keys_in_order in Hin as [v Hv]. by rewrite Hold, Hv.
    + destruct (foot_entry r u id) as [old|] eqn:Hold; [|done].
      destruct (val !! id) as [v|] eqn:Hv; [|done].
      destruct Hd. split_and!; try done. apply elem_of_keys_in_order. by eexists.
  - intros id. rewrite Hs. case_decide as Hd.
    + destruct Hd as (Hin & [old Hold]).
      apply elem_of_keys_in_order in Hin as [v Hv]. by rewrite Hold, Hv.
    + destruct (foot_entry r u id) as [old|] eqn:Hold; [|done].
      destruct (val !! id) as [v|] eqn:Hv; [|done].
      destruct Hd. split_and!; try done. apply elem_of_keys_in_order. by eexists.
  - intros u' id Hne. rewrite He. by rewrite decide_False by (intros (? & _); done).
Qed.

Lemma set_foot_value_map_known_feet_only_witness :
  exists r',
    set_foot_value_map position
      (<["foot" := mkOrigin3d d1 d0 d0]> {["hand" := mkOrigin3d d0 d1 d0]})
      example_perceiving = (Ret tt, r')
    /\ foot_entry r' position "foot" = Some (mkOrigin3d d1 d0 d0)
    /\ foot_entry r' position "hand" = None.
Proof.
  destruct (set_foot_value_map_known_feet_only position
              (<["foot" := mkOrigin3d d1 d0 d0]> {["hand" := mkOrigin3d d0 d1 d0]})
              example_perceiving) as (r' & Hrun & He & _).
  - vm_compute. reflexivity.
  - exists r'. split; [exact Hrun|]. rewrite !He. split; vm_compute; reflexivity.
Defined.

(** ** Frames of the operations on the stores *)

Section loop_frames.
Context {S X : Type} (proj : S -> X).

Lemma preserves_for_each {A} (body : A -> Exec S unit) (xs : list A) :
  (forall x, preserves proj (body x)) -> preserves proj (for_each body xs).
Proof.
  intros Hbody. induction xs as [|x xs IH]; cbn [for_each].
  - apply preserves_ret.
  - apply preserves_bind; [apply Hbody|intros _; exact IH].
Qed.

Lemma preserves_foldM {A B} (body : B -> A -> Exec S B) (xs : list A) :
  (forall b x, preserves proj (body b x)) ->
  forall b, preserves proj (foldM body xs b).
Proof.
  intros Hbody. induction xs as [|x xs IH]; intros b; cbn [foldM].
  - apply preserves_ret.
  - apply preserves_bind; [apply Hbody|intros b'; apply IH].
Qed.

End loop_frames.

Lemma preserves_check_phase {X} (proj : Robot -> X) (u : unit_e) :
  (forall p r, proj (with_controller_phase p r) = proj r) ->
  preserves proj (check_phase u).
Proof.
  intros Hproj r o r' H. rewrite check_phase_run in H.
  destruct (phase_after_check u (controller_phase r)); injection H as <- <-; [|done].
  apply Hproj.
Qed.

Lemma state_unit_index_beside u : preserves beside_joint_store (state_unit_index u).
Proof.
  intros r o r' H. unfold state_unit_index, map_index in H.
  destruct (_state r !! u); by injection H as <- <-.
Qed.

Lemma state_index_beside u id : preserves beside_joint_store (state_index u id).
Proof.
  unfold state_index. apply preserves_bind; [apply state_unit_index_beside|].
  intros inner r o r' H. unfold map_index in H.
  destruct (inner !! id); by injection H as <- <-.
Qed.

Lemma state_assign_beside u id v : preserves beside_joint_store (state_assign u id v).
Proof. by apply preserves_modify. Qed.

Lemma dof_index_beside id : preserves beside_joint_store (dof_index id).
Proof.
  intros r o r' H. unfold dof_index, map_index in H.
  destruct (_id_dof_coord_map r !! id); by injection H as <- <-.
Qed.

Lemma scatter_joint_beside u v key : preserves beside_joint_store (scatter_joint u v key).
Proof.
  unfold scatter_joint.
  apply preserves_bind; [apply dof_index_beside|intros dof].
  apply preserves_bind; [apply state_index_beside|intros dof_val].
  case_bool_decide; [apply preserves_throw|].
  apply preserves_bind; [|intros ?; apply preserves_ret].
  apply preserves_foldM. intros b j.
  destruct (dof !! j) as [k|]; [|apply preserves_throw].
  destruct (vec_at v k); [|apply preserves_throw].
  apply preserves_bind; [apply state_assign_beside|intros ?; apply preserves_ret].
Qed.

Lemma set_joint_generalized_value_beside u v :
  preserves beside_joint_store (set_joint_generalized_value u v).
Proof.
  unfold set_joint_generalized_value.
  apply preserves_bind; [by apply preserves_check_phase|intros _].
  apply preserves_bind; [apply preserves_gets|intros n].
  case_bool_decide; [apply preserves_throw|].
  apply preserves_bind; [apply preserves_gets|intros keys].
  apply preserves_for_each. intros key. apply scatter_joint_beside.
Qed.

Lemma gather_joint_beside g id dof_val :
  preserves beside_joint_store (gather_joint g id dof_val).
Proof.
  unfold gather_joint.
  apply preserves_bind; [apply dof_index_beside|intros dof].
  apply preserves_foldM. intros b j.
  destruct (dof !! j) as [k|]; [|apply preserves_throw].
  destruct (dof_val !! j) as [x|]; [|apply preserves_throw].
  destruct (vec_store b k x); [apply preserves_ret|apply preserves_throw].
Qed.

Lemma get_joint_generalized_value_beside u :
  preserves beside_joint_store (get_joint_generalized_value u).
Proof.
  unfold get_joint_generalized_value.
  apply preserves_bind; [apply preserves_gets|intros n].
  apply preserves_bind; [apply state_unit_index_beside|intros inner].
  apply preserves_foldM. intros g id. apply gather_joint_beside.
Qed.

(** ** Joints and base together *)

(** The round trip through the joint store, with the phase it ends in. *)
Lemma joint_generalized_run (u : unit_e) (v : VectorNd) (r : Robot)
    (p : ControllerPhase) :
  model_wf r ->
  store_sized r u ->
  phase_after_check u (controller_phase r) = Some p ->
  length v = NUM_JOINT_DOFS r ->
  exists r1 r2,
    set_joint_generalized_value u v r = (Ret tt, r1)
    /\ get_joint_generalized_value u r1 = (Ret v, r2).
Proof.
  intros [Hrange Hcover Hknown] Hsized Hp Hlen.
  unfold set_joint_generalized_value.
  rewrite bind_run, check_phase_run, Hp, bind_run. cbn [gets NUM_JOINT_DOFS with_controller_phase].
  rewrite bool_decide_eq_false_2 by (intros Hne; by apply Hne).
  rewrite bind_run. cbn [gets _joint_ids with_controller_phase].
  destruct (scatter_joints_run u v (_joint_ids r) (with_controller_phase p r))
    as (r1 & Hset & (Hd1 & Hj1 & Hn1) & _ & Hin1 & Hout1).
  { intros key Hkey. split.
    - apply (Hsized key). by left.
    - intros k Hk. rewrite Hlen. by apply (Hrange key). }
  exists r1. rewrite Hset.
  assert (Hentry : forall id, is_Some (state_entry r1 u id) ->
             default [] (state_entry r1 u id) = select v (dofs_of r id)
             /\ forall k, k ∈ dofs_of r id -> (0 <= k < Z.of_nat (length v))%Z).
  { intros id Hsome. destruct (decide (id ∈ _joint_ids r)) as [Hj|Hj].
    - rewrite (Hin1 id Hj). split; [done|].
      intros k Hk. rewrite Hlen. by apply (Hrange id).
    - rewrite (Hout1 id Hj) in Hsome |- *.
      change (state_entry (with_controller_phase p r) u id)
        with (state_entry r u id) in *.
      assert (Hnil : dofs_of r id = []).
      { destruct (dofs_of r id) eqn:E; [done|].
        destruct Hj. apply Hknown. by rewrite E. }
      pose proof (Hsized id (or_intror Hsome)) as Hl.
      rewrite Hnil in Hl |- *. apply nil_length_inv in Hl. rewrite Hl.
      split; [done|]. intros k Hk. by apply elem_of_nil in Hk. }
  unfold get_joint_generalized_value. rewrite bind_run. cbn [gets].
  rewrite bind_run.
  destruct (state_unit_index_run u r1) as (r1' & -> & (Hd1' & _ & _) & Hinner).
  destruct (gather_joints_run v
              (fun id => default [] (default ∅ (_state r1 !! u) !! id))
              (dofs_of r) (keys_in_order (default ∅ (_state r1 !! u)))
              (set_zero (NUM_JOINT_DOFS r1)) r1')
    as (g & r2 & Hget & Hglen & Hlook).
  { intros id Hid. apply elem_of_keys_in_order in Hid.
    rewrite Hinner in Hid |- *. by apply Hentry. }
  { intros id. rewrite Hd1', Hd1. done. }
  { unfold set_zero. rewrite length_replicate. cbn in Hn1. congruence. }
  exists r2. split; [done|]. rewrite Hget. f_equal. f_equal.
  apply list_eq. intros i.
  destruct (Hlook i) as [Hv|[_ Hnot]]; [done|].
  destruct (decide (i < NUM_JOINT_DOFS r)) as [Hi|Hi].
  - destruct (Hcover i Hi) as (id & Hj & Hin). destruct (Hnot id); [|done].
    apply elem_of_keys_in_order. rewrite Hinner, (Hin1 id Hj). by eexists.
  - rewrite !lookup_ge_None_2 by lia. done.
Qed.

Lemma beside_joint_store_eq (r r' : Robot) :
  beside_joint_store r' = beside_joint_store r ->
  _base_state r' = _base_state r /\ _joint_ids r' = _joint_ids r
  /\ NUM_JOINT_DOFS r' = NUM_JOINT_DOFS r /\ _foot_state r' = _foot_state r
  /\ _id_contacts_map r' = _id_contacts_map r /\ _foot_is_set r' = _foot_is_set r
  /\ _foot_ids r' = _foot_ids r.
Proof. intros [= ? ? ? ? ? ? ? ? ?]. by split_and!. Qed.

Lemma set_generalized_value_unfold (u : unit_e) (g : VectorNd) :
  set_generalized_value u g =
    (check_phase u ;;
     n <- gets NUM_JOINT_DOFS ;;
     (base <- lift InvalidIndex (get_sub_vec n (n + base_rows u) g) ;;
      set_base_value u base) ;;
     joints <- lift InvalidIndex (get_sub_vec 0 n g) ;;
     set_joint_generalized_value u joints).
Proof. by destruct u. Qed.

Lemma get_generalized_value_unfold (u : unit_e) :
  get_generalized_value u =
    (n <- gets NUM_JOINT_DOFS ;;
     joints <- get_joint_generalized_value u ;;
     generalized_vec <- lift Missize (set_sub_vec 0 joints (set_zero (n + base_rows u))) ;;
     base <- get_base_value u ;;
     lift Missize (set_sub_vec n base generalized_vec)).
Proof. by destruct u. Qed.

(** X14: with the kinematic tables of [compile()] and a joint store sized
    for the unit, in a phase that admits the unit, [set_generalized_value(u,
    g)] for a vector of NUM_JOINT_DOFS rows for the joints followed by the
    rows of the base (seven for a pose, six otherwise), followed by
    [get_generalized_value(u)], returns [g]. *)
Theorem generalized_value_round_trip (u : unit_e) (g : VectorNd) (r : Robot) :
  model_wf r ->
  store_sized r u ->
  fst (check_phase u r) = Ret tt ->
  length g = NUM_JOINT_DOFS r + base_rows u ->
  exists r1 r2,
    set_generalized_value u g r = (Ret tt, r1)
    /\ get_generalized_value u r1 = (Ret g, r2).
Proof.
  intros Hwf Hsized Hphase Hlen. rewrite check_phase_run in Hphase.
  destruct (phase_after_check u (controller_phase r)) as [p|] eqn:Hp; [|done].
  clear Hphase. set (n := NUM_JOINT_DOFS r) in *.
  (* the write *)
  rewrite set_generalized_value_unfold.
  rewrite bind_run, check_phase_run, Hp, bind_run.
  cbn [gets NUM_JOINT_DOFS with_controller_phase]. fold n.
  rewrite !bind_run. unfold get_sub_vec at 1.
  rewrite !bool_decide_eq_true_2 by lia. cbn [andb lift ret].
  rewrite set_base_value_run. cbn [controller_phase with_controller_phase].
  rewrite (phase_after_check_idem _ _ _ Hp).
  rewrite bool_decide_eq_false_2
    by (rewrite length_take, length_drop; lia).
  unfold get_sub_vec. rewrite !bool_decide_eq_true_2 by lia. cbn [andb lift ret].
  rewrite Nat.sub_0_r. change (drop 0 g) with g.
  replace (n + base_rows u - n) with (base_rows u) by lia.
  rewrite (take_ge (drop n g)) by (rewrite length_drop; lia).
  set (rb := with_base_state _ _).
  destruct (joint_generalized_run u (take n g) rb p)
    as (r1 & r2 & Hset & Hget).
  { destruct Hwf as [H1 H2 H3]. by split. }
  { exact Hsized. }
  { cbn. by apply phase_after_check_idem with (controller_phase r). }
  { rewrite length_take. cbn. fold n. lia. }
  exists r1. rewrite bind_run. cbn [ret]. rewrite Hset.
  (* the read *)
  destruct (beside_joint_store_eq _ _
              (set_joint_generalized_value_beside _ _ _ _ _ Hset))
    as (Hb1 & _ & Hn1 & _).
  destruct (beside_joint_store_eq _ _
              (get_joint_generalized_value_beside _ _ _ _ Hget))
    as (Hb2 & _).
  assert (Hn : NUM_JOINT_DOFS r1 = n) by exact Hn1.
  assert (Hb : _base_state r2 !! u = Some (drop n g)).
  { rewrite Hb2, Hb1. subst rb. cbn. apply lookup_insert_eq. }
  rewrite get_generalized_value_unfold.
  rewrite bind_run. cbn [gets]. rewrite Hn, bind_run, Hget, bind_run.
  assert (Hlt : length (take n g) = n) by (rewrite length_take; lia).
  assert (Hld : length (drop n g) = base_rows u) by (rewrite length_drop; lia).
  unfold set_sub_vec at 1.
  rewrite bool_decide_eq_true_2
    by (unfold set_zero; rewrite Hlt, length_replicate; lia).
  cbn [lift ret]. rewrite bind_run.
  unfold get_base_value, map_index. rewrite Hb.
  exists (with_base_state (_base_state r2) r2).
  split; [done|].
  unfold set_sub_vec.
  rewrite bool_decide_eq_true_2.
  2:{ unfold set_zero.
      rewrite !length_app, Hlt, Hld, length_drop, length_replicate. cbn. lia. }
  rewrite take_0, Hlt, Hld. cbn [app Nat.add].
  rewrite take_app_length' by done.
  rewrite (drop_ge (_ ++ _)).
  2:{ unfold set_zero. rewrite !length_app, Hlt, length_drop, length_replicate. lia. }
  by rewrite app_nil_r, take_drop.
Qed.

Lemma generalized_value_round_trip_witness :
  exists r1 r2,
    set_generalized_value velocity [d1; dm1; d1; d0; d0; d0; d0; d0; dm1]
      example_perceiving = (Ret tt, r1)
    /\ get_generalized_value velocity r1
       = (Ret [d1; dm1; d1; d0; d0; d0; d0; d0; dm1], r2).
Proof.
  apply (generalized_value_round_trip velocity
           [d1; dm1; d1; d0; d0; d0; d0; d0; dm1] example_perceiving).
  - apply example_model_wf.
  - apply example_store_sized.
  - vm_compute. reflexivity.
  - reflexivity.
Defined.

(** ** [init_state] and [reset_state] *)

Lemma zero_joints_loop (u : unit_e) (keys : list string) : forall r,
  exists r',
    for_each (fun key =>
      N <- get_joint_dofs key ;;
      state_index u key ;;
      state_assign u key (set_zero N)) keys r = (Ret tt, r')
    /\ same_model r r'
    /\ controller_phase r' = controller_phase r
    /\ beside_joint_store r' = beside_joint_store r
    /\ (forall id, id ∈ keys ->
          state_entry r' u id = Some (set_zero (length (dofs_of r id))))
    /\ (forall u' id', u' <> u \/ id' ∉ keys ->
          state_entry r' u' id' = state_entry r u' id').
Proof.
  induction keys as [|key keys IH]; intros r.
  - exists r. split; [done|]. split; [apply same_model_refl|].
    split_and!; try done. intros id Hin. by apply elem_of_nil in Hin.
  - cbn [for_each]. unfold get_joint_dofs. rewrite !bind_run.
    destruct (dof_index_run key r) as (r0 & Hdof & Hm0 & Hs0 & Hp0).
    pose proof (dof_index_beside _ _ _ _ Hdof) as Hb0.
    rewrite Hdof. cbn [ret]. rewrite bind_run.
    destruct (state_index_run u key r0)
      as (r1 & Hidx & He1 & Hp1 & _ & _ & _ & _ & Hother1).
    pose proof (state_index_same_model _ _ _ _ _ Hidx) as Hm1.
    pose proof (state_index_beside _ _ _ _ _ Hidx) as Hb1.
    rewrite Hidx.
    destruct (state_assign_run u key (set_zero (length (dofs_of r key))) r1)
      as (r2 & Hasg & He2 & Hp2 & _ & _ & _ & _ & Hother2).
    pose proof (state_assign_same_model _ _ _ _ _ Hasg) as Hm2.
    pose proof (state_assign_beside _ _ _ _ _ _ Hasg) as Hb2.
    rewrite Hasg.
    assert (Hm : same_model r r2)
      by (eapply same_model_trans; [eapply same_model_trans|]; eassumption).
    assert (Hstep : forall u' id', (u', id') <> (u, key) ->
              state_entry r2 u' id' = state_entry r u' id').
    { intros u' id' Hne. rewrite Hother2, Hother1 by done.
      unfold state_entry. by rewrite Hs0. }
    destruct (IH r2) as (r' & Hrun & Hm' & Hp & Hb & Hin & Hout).
    exists r'. split; [exact Hrun|].
    split; [by eapply same_model_trans|]. split; [congruence|].
    split; [congruence|]. split.
    + intros id Hid. destruct (decide (id ∈ keys)) as [Hk|Hk].
      * rewrite (Hin id Hk). destruct Hm as [Hd _]. by rewrite Hd.
      * apply elem_of_cons in Hid as [->|Hid]; [|done].
        rewrite Hout by (by right). exact He2.
    + intros u' id' Hne. rewrite Hout.
      * apply Hstep. intros [= -> ->]. destruct Hne as [Hne|Hne]; [done|].
        apply Hne. by left.
      * destruct Hne as [Hne|Hne]; [by left|]. right. intros Hk. apply Hne. by right.
Qed.

Lemma zero_joints_run (u : unit_e) (r : Robot) :
  exists r',
    zero_joints u r = (Ret tt, r')
    /\ same_model r r'
    /\ controller_phase r' = controller_phase r
    /\ beside_joint_store r' = beside_joint_store r
    /\ (forall id, id ∈ _joint_ids r ->
          state_entry r' u id = Some (set_zero (length (dofs_of r id))))
    /\ (forall u' id', u' <> u \/ id' ∉ _joint_ids r ->
          state_entry r' u' id' = state_entry r u' id').
Proof. unfold zero_joints. rewrite bind_run. apply zero_joints_loop. Qed.

Lemma zero_feet_loop (u : unit_e) (feet : list string) : forall r,
  exists r',
    for_each (fun foot =>
      modify (fun r =>
        with_foot_is_set (<[foot := false]> (_foot_is_set r))
          (with_foot_state
             (<[u := <[foot := Origin3d_zero]> (default ∅ (_foot_state r !! u))]>
                (_foot_state r)) r))) feet r = (Ret tt, r')
    /\ beside_foot_store r' = beside_foot_store r
    /\ (forall u' id,
          foot_entry r' u' id =
            if decide (u' = u /\ id ∈ feet) then Some Origin3d_zero
            else foot_entry r u' id)
    /\ (forall id,
          _foot_is_set r' !! id =
            if decide (id ∈ feet) then Some false else _foot_is_set r !! id).
Proof.
  induction feet as [|foot feet IH]; intros r.
  - exists r. split_and!; try done.
    intros u' id. rewrite decide_False; [done|].
    intros [_ Hin]. by apply elem_of_nil in Hin.
  - cbn [for_each]. rewrite bind_run. cbn [modify].
    set (r1 := with_foot_is_set _ _).
    destruct (IH r1) as (r' & Hrun & Hb & He & Hs).
    exists r'. split; [exact Hrun|]. split; [by rewrite Hb|].
    assert (He1 : forall u' id,
              foot_entry r1 u' id =
                if decide (u' = u /\ id = foot) then Some Origin3d_zero
                else foot_entry r u' id).
    { intros u' id. unfold foot_entry. subst r1.
      cbn [_foot_state with_foot_state with_foot_is_set].
      case_decide as Hd.
      - destruct Hd as [-> ->]. rewrite lookup_insert_eq. cbn.
        by rewrite lookup_insert_eq.
      - destruct (decide (u' = u)) as [->|Hu].
        + rewrite lookup_insert_eq. cbn.
          rewrite lookup_insert_ne by (intros <-; by apply Hd).
          by destruct (_foot_state r !! u).
        + by rewrite lookup_insert_ne. }
    split.
    + intros u' id. rewrite He, He1.
      destruct (decide (u' = u /\ id ∈ foot :: feet)) as [[-> Hin]|Hn].
      * apply elem_of_cons in Hin as [->|Hin].
        -- case_decide as Hd1; [done|]. by rewrite decide_True.
        -- by rewrite decide_True.
      * rewrite decide_False by (intros [-> Hin]; apply Hn; split; [done|by right]).
        rewrite decide_False; [done|].
        intros [-> ->]. apply Hn. split; [done|by left].
    + intros id. rewrite Hs. subst r1. cbn [_foot_is_set with_foot_is_set].
      destruct (decide (id ∈ foot :: feet)) as [Hin|Hn].
      * apply elem_of_cons in Hin as [->|Hin].
        -- case_decide as Hd1; [done|]. by rewrite lookup_insert_eq.
        -- by rewrite decide_True.
      * rewrite decide_False by (intros Hin; apply Hn; by right).
        rewrite lookup_insert_ne; [done|]. intros <-. apply Hn. by left.
Qed.

Lemma zero_feet_run (u : unit_e) (r : Robot) :
  exists r',
    zero_feet u r = (Ret tt, r')
    /\ beside_foot_store r' = beside_foot_store r
    /\ (forall u' id,
          foot_entry r' u' id =
            if decide (u' = u /\ id ∈ _foot_ids r) then Some Origin3d_zero
            else foot_entry r u' id)
    /\ (forall id,
          _foot_is_set r' !! id =
            if decide (id ∈ _foot_ids r) then Some false else _foot_is_set r !! id).
Proof. unfold zero_feet. rewrite bind_run. apply zero_feet_loop. Qed.

Lemma beside_foot_store_eq (r r' : Robot) :
  beside_foot_store r' = beside_foot_store r ->
  controller_phase r' = controller_phase r /\ _state r' = _state r
  /\ _id_contacts_map r' = _id_contacts_map r
  /\ _id_dof_coord_map r' = _id_dof_coord_map r
  /\ _joint_ids r' = _joint_ids r /\ _foot_ids r' = _foot_ids r
  /\ NUM_JOINT_DOFS r' = NUM_JOINT_DOFS r.
Proof. intros [= ? ? ? ? ? ? ? ? ? ?]. by split_and!. Qed.

Lemma same_model_fields (r r' : Robot) :
  _id_dof_coord_map r' = _id_dof_coord_map r -> _joint_ids r' = _joint_ids r ->
  NUM_JOINT_DOFS r' = NUM_JOINT_DOFS r -> same_model r r'.
Proof. intros Hd Hj Hn. repeat split; [|done..]. intros id. unfold dofs_of. by rewrite Hd. Qed.

(** One turn of the loop of [reset_state]. *)
Lemma reset_unit_run (u : unit_e) (r : Robot) :
  exists r',
    (zero_feet u ;; zero_joints u) r = (Ret tt, r')
    /\ same_model r r'
    /\ controller_phase r' = controller_phase r
    /\ _id_contacts_map r' = _id_contacts_map r
    /\ _foot_ids r' = _foot_ids r
    /\ (forall u' id,
          state_entry r' u' id =
            if decide (u' = u /\ id ∈ _joint_ids r)
            then Some (set_zero (length (dofs_of r id)))
            else state_entry r u' id)
    /\ (forall u' id,
          foot_entry r' u' id =
            if decide (u' = u /\ id ∈ _foot_ids r) then Some Origin3d_zero
            else foot_entry r u' id)
    /\ (forall id,
          _foot_is_set r' !! id =
            if decide (id ∈ _foot_ids r) then Some false else _foot_is_set r !! id).
Proof.
  rewrite bind_run.
  destruct (zero_feet_run u r) as (ra & -> & Hba & Hea & Hsa).
  apply beside_foot_store_eq in Hba as (Hpa & Hsta & Hca & Hda & Hja & Hfa & Hna).
  destruct (zero_joints_run u ra) as (rb & -> & Hmb & Hpb & Hbb & Hin & Hout).
  apply beside_joint_store_eq in Hbb as (_ & _ & _ & Hfs & Hcb & Hfis & Hfb).
  assert (Hma : same_model r ra) by (by apply same_model_fields).
  exists rb. split; [done|]. split; [by eapply same_model_trans|].
  split; [congruence|]. split; [congruence|]. split; [congruence|]. split_and!.
  - intros u' id. case_decide as Hd.
    + destruct Hd as [-> Hj]. rewrite Hin by (by rewrite Hja).
      destruct Hma as [Hd _]. by rewrite Hd.
    + rewrite Hout.
      * unfold state_entry. by rewrite Hsta.
      * destruct (decide (u' = u)) as [->|Hu]; [|by left]. right.
        rewrite Hja. intros Hj. by apply Hd.
  - intros u' id. unfold foot_entry. rewrite Hfs. apply Hea.
  - intros id. rewrite Hfis. apply Hsa.
Qed.

(** One turn of the loop of [init_state]. *)
Lemma init_unit_run (u : unit_e) (r : Robot) :
  exists r',
    (modify (fun r => with_foot_state (<[u := ∅]> (_foot_state r)) r) ;;
     zero_feet u ;;
     modify (fun r => with_state (<[u := ∅]> (_state r)) r) ;;
     zero_joints u) r = (Ret tt, r')
    /\ same_model r r'
    /\ controller_phase r' = controller_phase r
    /\ _id_contacts_map r' = _id_contacts_map r
    /\ _foot_ids r' = _foot_ids r
    /\ (forall u' id,
          state_entry r' u' id =
            if decide (u' = u)
            then if decide (id ∈ _joint_ids r)
                 then Some (set_zero (length (dofs_of r id))) else None
            else state_entry r u' id)
    /\ (forall u' id,
          foot_entry r' u' id =
            if decide (u' = u)
            then if decide (id ∈ _foot_ids r) then Some Origin3d_zero else None
            else foot_entry r u' id)
    /\ (forall id,
          _foot_is_set r' !! id =
            if decide (id ∈ _foot_ids r) then Some false else _foot_is_set r !! id).
Proof.
  rewrite bind_run. cbn [modify]. set (r0 := with_foot_state _ r).
  rewrite bind_run.
  destruct (zero_feet_run u r0) as (ra & -> & Hba & Hea & Hsa).
  apply beside_foot_store_eq in Hba as (Hpa & Hsta & Hca & Hda & Hja & Hfa & Hna).
  rewrite bind_run. cbn [modify]. set (r1 := with_state _ ra).
  destruct (zero_joints_run u r1) as (rb & -> & Hmb & Hpb & Hbb & Hin & Hout).
  apply beside_joint_store_eq in Hbb as (_ & _ & _ & Hfs & Hcb & Hfis & Hfb).
  assert (Hma : same_model r r1) by (apply same_model_fields; assumption).
  assert (Hj1 : _joint_ids r1 = _joint_ids r) by exact Hja.
  exists rb. split; [done|]. split; [by eapply same_model_trans|].
  split; [by rewrite Hpb|]. split; [by rewrite Hcb|]. split; [by rewrite Hfb|].
  split_and!.
  - intros u' id. destruct (decide (u' = u)) as [->|Hu].
    + case_decide as Hj.
      * rewrite Hin by (by rewrite Hj1). destruct Hma as [Hd _]. by rewrite Hd.
      * rewrite Hout by (right; by rewrite Hj1). unfold state_entry. subst r1.
        cbn [_state with_state]. by rewrite lookup_insert_eq.
    + rewrite Hout by (by left). unfold state_entry. subst r1.
      cbn [_state with_state]. rewrite lookup_insert_ne by done. by rewrite Hsta.
  - intros u' id. unfold foot_entry at 1. rewrite Hfs.
    change (_foot_state r1) with (_foot_state ra).
    change (_foot_state ra !! u' ≫= (.!! id)) with (foot_entry ra u' id).
    rewrite Hea. change (_foot_ids r0) with (_foot_ids r).
    destruct (decide (u' = u)) as [->|Hu].
    + destruct (decide (id ∈ _foot_ids r)) as [Hf|Hf].
      * by rewrite decide_True.
      * rewrite decide_False by (intros [_ ?]; done).
        unfold foot_entry. subst r0. cbn [_foot_state with_foot_state].
        by rewrite lookup_insert_eq.
    + rewrite decide_False by (intros [? _]; done).
      unfold foot_entry. subst r0. cbn [_foot_state with_foot_state].
      by rewrite lookup_insert_ne.
  - intros id. rewrite Hfis. change (_foot_is_set r1) with (_foot_is_set ra).
    apply Hsa.
Qed.

Lemma init_units_loop (us : list unit_e) : forall r,
  exists r',
    for_each (fun u =>
      modify (fun r => with_foot_state (<[u := ∅]> (_foot_state r)) r) ;;
      zero_feet u ;;
      modify (fun r => with_state (<[u := ∅]> (_state r)) r) ;;
      zero_joints u) us r = (Ret tt, r')
    /\ same_model r r'
    /\ controller_phase r' = controller_phase r
    /\ _id_contacts_map r' = _id_contacts_map r
    /\ _foot_ids r' = _foot_ids r
    /\ (forall u' id,
          state_entry r' u' id =
            if decide (u' ∈ us)
            then if decide (id ∈ _joint_ids r)
                 then Some (set_zero (length (dofs_of r id))) else None
            else state_entry r u' id)
    /\ (forall u' id,
          foot_entry r' u' id =
            if decide (u' ∈ us)
            then if decide (id ∈ _foot_ids r) then Some Origin3d_zero else None
            else foot_entry r u' id)
    /\ (forall id,
          _foot_is_set r' !! id =
            if decide (id ∈ _foot_ids r /\ us <> []) then Some false
            else _foot_is_set r !! id).
Proof.
  induction us as [|u us IH]; intros r.
  - exists r. split; [done|]. split; [apply same_model_refl|].
    split_and!; try done.
    intros id. by rewrite decide_False by (intros [_ ?]; done).
  - cbn [for_each]. rewrite bind_run.
    destruct (init_unit_run u r)
      as (r1 & -> & Hm1 & Hp1 & Hc1 & Hf1 & Hs1 & He1 & Hi1).
    destruct (IH r1) as (r' & Hrun & Hm & Hp & Hc & Hf & Hs & He & Hi).
    destruct Hm1 as (Hd1 & Hj1 & Hn1).
    exists r'. split; [exact Hrun|].
    split; [eapply same_model_trans; [|exact Hm]; by repeat split|].
    split; [congruence|]. split; [congruence|]. split; [congruence|]. split_and!.
    + intros u' id. rewrite Hs, Hj1, Hd1.
      destruct (decide (u' ∈ us)) as [Hin|Hin].
      * by rewrite (decide_True (P := u' ∈ u :: us)) by (by right).
      * rewrite Hs1. destruct (decide (u' = u)) as [->|Hu].
        -- by rewrite (decide_True (P := u ∈ u :: us)) by (by left).
        -- rewrite (decide_False (P := u' ∈ u :: us)); [done|].
           intros [->|?]%elem_of_cons; done.
    + intros u' id. rewrite He, Hf1.
      destruct (decide (u' ∈ us)) as [Hin|Hin].
      * by rewrite (decide_True (P := u' ∈ u :: us)) by (by right).
      * rewrite He1. destruct (decide (u' = u)) as [->|Hu].
        -- by rewrite (decide_True (P := u ∈ u :: us)) by (by left).
        -- rewrite (decide_False (P := u' ∈ u :: us)); [done|].
           intros [->|?]%elem_of_cons; done.
    + intros id. rewrite Hi, Hf1, Hi1.
      destruct (decide (id ∈ _foot_ids r)) as [Hin|Hin].
      * rewrite (decide_True (P := _ /\ u :: us <> [])) by done.
        by case_decide.
      * rewrite !decide_False by (intros [? _]; done). done.
Qed.

Lemma reset_units_loop (us : list unit_e) : forall r,
  exists r',
    for_each (fun u => zero_feet u ;; zero_joints u) us r = (Ret tt, r')
    /\ same_model r r'
    /\ controller_phase r' = controller_phase r
    /\ _id_contacts_map r' = _id_contacts_map r
    /\ _foot_ids r' = _foot_ids r
    /\ (forall u' id,
          state_entry r' u' id =
            if decide (u' ∈ us /\ id ∈ _joint_ids r)
            then Some (set_zero (length (dofs_of r id)))
            else state_entry r u' id)
    /\ (forall u' id,
          foot_entry r' u' id =
            if decide (u' ∈ us /\ id ∈ _foot_ids r) then Some Origin3d_zero
            else foot_entry r u' id).
Proof.
  induction us as [|u us IH]; intros r.
  - exists r. split; [done|]. split; [apply same_model_refl|].
    split_and!; try done;
      (intros u' id; rewrite decide_False; [done|];
       intros [Hin _]; by apply elem_of_nil in Hin).
  - cbn [for_each]. rewrite bind_run.
    destruct (reset_unit_run u r)
      as (r1 & -> & Hm1 & Hp1 & Hc1 & Hf1 & Hs1 & He1 & _).
    destruct (IH r1) as (r' & Hrun & Hm & Hp & Hc & Hf & Hs & He).
    destruct Hm1 as (Hd1 & Hj1 & Hn1).
    exists r'. split; [exact Hrun|].
    split; [eapply same_model_trans; [|exact Hm]; by repeat split|].
    split; [congruence|]. split; [congruence|]. split; [congruence|]. split.
    + intros u' id. rewrite Hs, Hj1, Hd1.
      destruct (decide (u' ∈ us /\ id ∈ _joint_ids r)) as [[Hin Hj]|Hn].
      * rewrite decide_True; [done|]. split; [by right|done].
      * rewrite Hs1.
        destruct (decide (u' = u /\ id ∈ _joint_ids r)) as [[-> Hj]|Hn'].
        -- rewrite decide_True; [done|]. split; [by left|done].
        -- rewrite decide_False; [done|].
           intros [[->|?]%elem_of_cons Hj]; [by apply Hn'|by apply Hn].
    + intros u' id. rewrite He, Hf1.
      destruct (decide (u' ∈ us /\ id ∈ _foot_ids r)) as [[Hin Hj]|Hn].
      * rewrite decide_True; [done|]. split; [by right|done].
      * rewrite He1.
        destruct (decide (u' = u /\ id ∈ _foot_ids r)) as [[-> Hj]|Hn'].
        -- rewrite decide_True; [done|]. split; [by left|done].
        -- rewrite decide_False; [done|].
           intros [[->|?]%elem_of_cons Hj]; [by apply Hn'|by apply Hn].
Qed.

Lemma reset_contact_run (r : Robot) :
  controller_phase r = INITIALIZATION \/ controller_phase r = WAITING ->
  reset_contact r = (Ret tt, with_id_contacts_map ∅ r).
Proof.
  intros Hp. unfold reset_contact. rewrite bind_run, check_phase_run.
  destruct Hp as [Hp|Hp]; rewrite Hp; cbn; rewrite <- Hp;
    by rewrite with_controller_phase_same.
Qed.

Lemma init_state_run (r : Robot) :
  controller_phase r = INITIALIZATION \/ controller_phase r = WAITING ->
  exists r',
    init_state r = (Ret tt, r')
    /\ same_model r r'
    /\ controller_phase r' = controller_phase r
    /\ _id_contacts_map r' = ∅
    /\ (forall u id, u ∈ state_units ->
          state_entry r' u id =
            if decide (id ∈ _joint_ids r)
            then Some (set_zero (length (dofs_of r id))) else None)
    /\ (forall u id, u ∈ state_units ->
          foot_entry r' u id =
            if decide (id ∈ _foot_ids r) then Some Origin3d_zero else None)
    /\ (forall id, id ∈ _foot_ids r -> _foot_is_set r' !! id = Some false)
    /\ (forall u id, u ∉ state_units ->
          state_entry r' u id = state_entry r u id).
Proof.
  intros Hp. unfold init_state. rewrite bind_run, check_phase_run.
  assert (Hchk : phase_after_check initialization (controller_phase r)
                 = Some (controller_phase r))
    by (destruct Hp as [-> | ->]; reflexivity).
  rewrite Hchk, with_controller_phase_same, bind_run, reset_contact_run by done.
  destruct (init_units_loop state_units (with_id_contacts_map ∅ r))
    as (r' & Hrun & Hm & Hp' & Hc & Hf & Hs & He & Hi).
  exists r'. split; [exact Hrun|]. split; [exact Hm|]. split; [exact Hp'|].
  split; [exact Hc|]. split_and!.
  - intros u id Hu. rewrite Hs. by rewrite decide_True.
  - intros u id Hu. rewrite He. by rewrite decide_True.
  - intros id Hid. rewrite Hi. by rewrite decide_True.
  - intros u id Hu. rewrite Hs. by rewrite decide_False.
Qed.

(** X15: in INITIALIZATION or WAITING, [init_state()] returns and leaves
    the phase as it is, no contacts, and for each of the eight state units
    a joint store that holds exactly the joints of [_joint_ids], each a zero
    vector of the joint's DOF count, and a foot store that holds exactly the
    feet of [_foot_ids], each at zero and marked as not set.  The joint
    store is then sized as the generalized accessors expect. *)
Theorem init_state_zeroes (r : Robot) :
  controller_phase r = INITIALIZATION \/ controller_phase r = WAITING ->
  exists r',
    init_state r = (Ret tt, r')
    /\ controller_phase r' = controller_phase r
    /\ _id_contacts_map r' = ∅
    /\ (forall u id, u ∈ state_units ->
          state_entry r' u id =
            if decide (id ∈ _joint_ids r)
            then Some (set_zero (length (dofs_of r id))) else None)
    /\ (forall u id, u ∈ state_units ->
          foot_entry r' u id =
            if decide (id ∈ _foot_ids r) then Some Origin3d_zero else None)
    /\ (forall id, id ∈ _foot_ids r -> _foot_is_set r' !! id = Some false)
    /\ (forall u, u ∈ state_units -> store_sized r' u).
Proof.
  intros Hp.
  destruct (init_state_run r Hp) as (r' & Hrun & Hm & Hp' & Hc & Hs & He & Hi & _).
  exists r'. split_and!; try done.
  intros u Hu id Hid. rewrite (Hs u id Hu) in *.
  destruct Hm as (Hd & Hj & _). rewrite Hd, Hj in *.
  case_decide as Hin.
  - cbn. unfold set_zero. by rewrite length_replicate.
  - destruct Hid as [?|[? ?]]; done.
Qed.

Lemma init_state_zeroes_witness :
  exists r',
    init_state example_robot = (Ret tt, r')
    /\ state_entry r' velocity "knee" = Some [d0; d0]
    /\ state_entry r' velocity "tail" = None
    /\ store_sized r' velocity.
Proof.
  destruct (init_state_zeroes example_robot)
    as (r' & Hrun & _ & _ & Hs & _ & _ & Hsized).
  - by left.
  - exists r'. split; [exact Hrun|].
    rewrite !Hs by by_evaluation.
    split; [vm_compute; reflexivity|]. split; [vm_compute; reflexivity|].
    apply Hsized. by_evaluation.
Defined.

Lemma select_zero (n : nat) (dof : list Z) :
  select (set_zero n) dof = set_zero (length dof).
Proof.
  unfold select, set_zero. induction dof as [|k dof IH]; [done|].
  cbn [fmap list_fmap length replicate]. f_equal; [|exact IH].
  unfold vec_at. case_bool_decide; [|done].
  destruct (replicate n d0 !! Z.to_nat k) as [x|] eqn:Hx; [|done].
  by apply lookup_replicate in Hx as [-> _].
Qed.

(** X16: when the coordinates of the joints lie below NUM_JOINT_DOFS,
    [init_state()] followed by [get_joint_generalized_value(u)], for any of
    the eight state units, returns the zero vector of NUM_JOINT_DOFS rows. *)
Theorem init_state_reads_zero (u : unit_e) (r : Robot) :
  (forall id k, id ∈ _joint_ids r -> k ∈ dofs_of r id ->
     (0 <= k < Z.of_nat (NUM_JOINT_DOFS r))%Z) ->
  controller_phase r = INITIALIZATION \/ controller_phase r = WAITING ->
  u ∈ state_units ->
  exists r1 r2,
    init_state r = (Ret tt, r1)
    /\ get_joint_generalized_value u r1 = (Ret (set_zero (NUM_JOINT_DOFS r)), r2).
Proof.
  intros Hrange Hp Hu.
  destruct (init_state_run r Hp) as (r1 & Hrun & Hm & _ & _ & Hs & _).
  destruct Hm as (Hd & Hj & Hn).
  exists r1. rewrite Hrun.
  unfold get_joint_generalized_value. rewrite bind_run. cbn [gets].
  rewrite bind_run.
  destruct (state_unit_index_run u r1) as (r1' & -> & (Hd1' & _ & _) & Hinner).
  destruct (gather_joints_run (set_zero (NUM_JOINT_DOFS r))
              (fun id => default [] (default ∅ (_state r1 !! u) !! id))
              (dofs_of r) (keys_in_order (default ∅ (_state r1 !! u)))
              (set_zero (NUM_JOINT_DOFS r1)) r1')
    as (g & r2 & Hget & Hglen & Hlook).
  { intros id Hid. apply elem_of_keys_in_order in Hid.
    rewrite Hinner, (Hs u id Hu) in Hid |- *.
    case_decide as Hin; [|by destruct Hid].
    split; [by rewrite select_zero|].
    intros k Hk. unfold set_zero. rewrite length_replicate. by apply (Hrange id). }
  { intros id. by rewrite Hd1', Hd. }
  { by rewrite Hn. }
  exists r2. split; [done|]. rewrite Hget. f_equal. f_equal.
  apply list_eq. intros i.
  destruct (Hlook i) as [Hv|[Hsame _]]; [done|]. by rewrite Hsame, Hn.
Qed.

Lemma init_state_reads_zero_witness :
  exists r1 r2,
    init_state example_robot = (Ret tt, r1)
    /\ get_joint_generalized_value acceleration_goal r1 = (Ret [d0; d0; d0], r2).
Proof.
  apply (init_state_reads_zero acceleration_goal example_robot).
  - intros id k Hid Hk.
    assert (Hcases : id = "hip" \/ id = "knee").
    { apply elem_of_cons in Hid as [->|Hid]; [by left|].
      apply elem_of_cons in Hid as [->|Hid]; [by right|].
      by apply elem_of_nil in Hid. }
    destruct Hcases as [-> | ->]; vm_compute in Hk;
      repeat (apply elem_of_cons in Hk as [->|Hk]; [vm_compute; split; [discriminate|reflexivity]|]);
      by apply elem_of_nil in Hk.
  - by left.
  - by_evaluation.
Defined.

(** X17: in INITIALIZATION or WAITING, [reset_state()] clears the contacts
    and, for the eight state units, zeroes the joints of [_joint_ids] and the
    feet of [_foot_ids]; unlike [init_state()] it keeps every other entry of
    the stores. *)
Theorem reset_state_zeroes (r : Robot) :
  controller_phase r = INITIALIZATION \/ controller_phase r = WAITING ->
  exists r',
    reset_state r = (Ret tt, r')
    /\ controller_phase r' = controller_phase r
    /\ _id_contacts_map r' = ∅
    /\ (forall u id,
          state_entry r' u id =
            if decide (u ∈ state_units /\ id ∈ _joint_ids r)
            then Some (set_zero (length (dofs_of r id)))
            else state_entry r u id)
    /\ (forall u id,
          foot_entry r' u id =
            if decide (u ∈ state_units /\ id ∈ _foot_ids r) then Some Origin3d_zero
            else foot_entry r u id).
Proof.
  intros Hp. unfold reset_state. rewrite bind_run, check_phase_run.
  assert (Hchk : phase_after_check clean_up (controller_phase r)
                 = Some (controller_phase r))
    by (destruct Hp as [-> | ->]; reflexivity).
  rewrite Hchk, with_controller_phase_same, bind_run, reset_contact_run by done.
  destruct (reset_units_loop state_units (with_id_contacts_map ∅ r))
    as (r' & Hrun & _ & Hp' & Hc & _ & Hs & He).
  exists r'. by split_and!.
Qed.

Lemma reset_state_zeroes_witness :
  exists r0 r',
    set_joint_value_map position {["tail" := []]} example_waiting = (Ret tt, r0)
    /\ reset_state r0 = (Ret tt, r')
    /\ state_entry r' position "knee" = Some [d0; d0]
    /\ state_entry r' position "tail" = Some [].
Proof.
  exists (set_joint_value_map position {["tail" := []]} example_waiting).2.
  destruct (reset_state_zeroes
              (set_joint_value_map position {["tail" := []]} example_waiting).2)
    as (r' & Hrun & _ & _ & Hs & _).
  - right. vm_compute. reflexivity.
  - exists r'. split; [vm_compute; reflexivity|]. split; [exact Hrun|].
    rewrite !Hs. split; vm_compute; reflexivity.
Defined.

(** ** Conversions between maps of joint values and generalized vectors *)

Lemma convert_from_inner (v : VectorNd) (dof : list Z) {S : Type} :
  forall n a (dv : VectorNd) (s : S),
  a + n = length dof ->
  length dv = length dof ->
  (forall k, k ∈ dof -> (0 <= k < Z.of_nat (length v))%Z) ->
  (forall j, j < a -> dv !! j = select v dof !! j) ->
  foldM (fun (dof_val : VectorNd) (j : nat) =>
           match dof !! j with
           | None => throw InvalidIndex
           | Some k =>
               match vec_at v k with
               | None => throw InvalidIndex
               | Some x => ret (<[j := x]> dof_val)
               end
           end) (seq a n) dv s
  = (Ret (select v dof), s).
Proof.
  induction n as [|n IH]; intros a dv s Han Hlen Hrange Hdone.
  - cbn [seq foldM]. unfold ret. f_equal. f_equal. apply list_eq. intros j.
    destruct (decide (j < a)) as [Hj|Hj]; [by apply Hdone|].
    rewrite !lookup_ge_None_2; [done|rewrite select_length; lia|lia].
  - cbn [seq foldM]. rewrite bind_run.
    destruct (lookup_lt_is_Some_2 dof a) as [k Hk]; [lia|]. rewrite Hk.
    destruct (vec_at_Some v k) as [x Hx];
      [apply Hrange; by eapply list_elem_of_lookup_2|].
    rewrite Hx. cbn [ret]. apply IH; [lia|by rewrite length_insert|done|].
    intros j Hj. destruct (decide (j = a)) as [->|Hne].
    + rewrite list_lookup_insert_eq by lia.
      by rewrite (select_lookup_at v dof a k x).
    + rewrite list_lookup_insert_ne by done. apply Hdone. lia.
Qed.

Lemma convert_from_loop (v : VectorNd) (keys : list string) :
  forall (m : gmap string VectorNd) (r : Robot),
  (forall id k, id ∈ keys -> k ∈ dofs_of r id -> (0 <= k < Z.of_nat (length v))%Z) ->
  exists m' r',
    foldM (fun (m : gmap string VectorNd) key =>
             dof <- dof_index key ;;
             let dof_val := default [] (m !! key) in
             let dof_val := take (length dof) dof_val
                            ++ replicate (length dof - length dof_val) d0 in
             dof_val <-
               foldM (fun (dof_val : VectorNd) (j : nat) =>
                        match dof !! j with
                        | None => throw InvalidIndex
                        | Some k =>
                            match vec_at v k with
                            | None => throw InvalidIndex
                            | Some x => ret (<[j := x]> dof_val)
                            end
                        end)
                     (seq 0 (length dof)) dof_val ;;
             ret (<[key := dof_val]> m)) keys m r
    = (Ret m', r')
    /\ same_model r r'
    /\ (forall id, m' !! id = if decide (id ∈ keys)
                              then Some (select v (dofs_of r id)) else m !! id).
Proof.
  induction keys as [|key keys IH]; intros m r Hrange.
  - exists m, r. split; [done|]. split; [apply same_model_refl|]. intros id.
    rewrite decide_False; [done|]. intros Hin. by apply elem_of_nil in Hin.
  - cbn [foldM]. rewrite !bind_run.
    destruct (dof_index_run key r) as (r1 & -> & Hm1 & _).
    rewrite bind_run.
    rewrite (convert_from_inner v (dofs_of r key)); cycle 1.
    { lia. }
    { rewrite length_app, length_take, length_replicate. lia. }
    { intros k Hk. apply (Hrange key); [by left|done]. }
    { intros j Hj. lia. }
    cbn [ret].
    destruct (IH (<[key := select v (dofs_of r key)]> m) r1)
      as (m' & r' & Hrun & Hm & Hlook).
    { intros id k Hid Hk. destruct Hm1 as [Hd _]. rewrite Hd in Hk.
      apply (Hrange id); [by right|done]. }
    exists m', r'. split; [exact Hrun|]. split; [by eapply same_model_trans|].
    intros id. rewrite Hlook. destruct Hm1 as [Hd _].
    destruct (decide (id ∈ keys)) as [Hin|Hin].
    + rewrite decide_True by (by right). by rewrite Hd.
    + destruct (decide (id = key)) as [->|Hne].
      * rewrite decide_True by (by left). by rewrite lookup_insert_eq.
      * rewrite lookup_insert_ne by done. rewrite decide_False; [done|].
        intros [->|?]%elem_of_cons; done.
Qed.

Lemma convert_to_joint_run (v g : VectorNd) (id : string) (r : Robot) :
  (forall k, k ∈ dofs_of r id -> (0 <= k < Z.of_nat (length v))%Z) ->
  length g = length v ->
  exists g' r',
    (dof <- dof_index id ;;
     let dof_val := select v (dofs_of r id) in
     if bool_decide (length dof <> length dof_val) then throw DOFMismatch
     else
       foldM (fun (g : VectorNd) (j : nat) =>
                match dof !! j, dof_val !! j with
                | Some k, Some x =>
                    match vec_store g k x with
                    | Some g' => ret g'
                    | None => throw InvalidIndex
                    end
                | _, _ => throw InvalidIndex
                end)
             (seq 0 (length dof_val)) g) r = (Ret g', r')
    /\ same_model r r'
    /\ length g' = length v
    /\ forall i, g' !! i = if decide (Z.of_nat i ∈ dofs_of r id) then v !! i else g !! i.
Proof.
  intros Hrange Hlen. rewrite bind_run.
  destruct (dof_index_run id r) as (r1 & -> & Hm1 & _).
  cbn zeta. rewrite select_length.
  rewrite bool_decide_eq_false_2 by (intros Hne; by apply Hne).
  destruct (gather_loop_run v (dofs_of r id) (length (dofs_of r id)) 0 g r1)
    as (g' & Hrun & Hlen' & Hlook); [lia|done|done|].
  exists g', r1. by split_and!.
Qed.

Lemma convert_to_loop (v : VectorNd) (m : gmap string VectorNd)
    (D : string -> list Z) (ids : list string) :
  forall g r,
  (forall id, id ∈ ids ->
     default [] (m !! id) = select v (D id)
     /\ forall k, k ∈ D id -> (0 <= k < Z.of_nat (length v))%Z) ->
  (forall id, dofs_of r id = D id) ->
  length g = length v ->
  exists g' r',
    foldM (fun (generalized_vec : VectorNd) key =>
             dof <- dof_index key ;;
             let dof_val := default [] (m !! key) in
             if bool_decide (length dof <> length dof_val) then throw DOFMismatch
             else
               foldM (fun (g : VectorNd) (j : nat) =>
                        match dof !! j, dof_val !! j with
                        | Some k, Some x =>
                            match vec_store g k x with
                            | Some g' => ret g'
                            | None => throw InvalidIndex
                            end
                        | _, _ => throw InvalidIndex
                        end)
                     (seq 0 (length dof_val)) generalized_vec) ids g r
    = (Ret g', r')
    /\ length g' = length v
    /\ forall i, g' !! i = v !! i
                 \/ (g' !! i = g !! i /\ forall id, id ∈ ids -> Z.of_nat i ∉ D id).
Proof.
  induction ids as [|id ids IH]; intros g r Hpre HD Hlen.
  - exists g, r. split_and!; try done. intros i. right. split; [done|].
    intros id Hin. by apply elem_of_nil in Hin.
  - cbn [foldM]. rewrite bind_run.
    destruct (Hpre id) as [HE Hrange]; [by left|].
    cbn zeta. rewrite HE, <- HD.
    destruct (convert_to_joint_run v g id r) as (g1 & r1 & Hstep & Hm1 & Hlen1 & Hlook1);
      [by rewrite HD|done|].
    cbn zeta in Hstep. rewrite Hstep.
    destruct (IH g1 r1) as (g2 & r2 & Hrun2 & Hlen2 & Hlook2).
    { intros id' Hin'. apply Hpre. by right. }
    { intros id'. destruct Hm1 as [Hd _]. by rewrite Hd. }
    { done. }
    exists g2, r2. split; [exact Hrun2|]. split; [done|].
    intros i. destruct (Hlook2 i) as [Hv|[Hsame Hnot]]; [by left|].
    rewrite Hsame, Hlook1.
    destruct (decide (Z.of_nat i ∈ dofs_of r id)) as [Hin|Hnin]; [by left|].
    right. split; [done|]. intros id' Hin'.
    apply elem_of_cons in Hin' as [->|Hin']; [by rewrite <- HD|by apply Hnot].
Qed.

(** X18: when every coordinate of the table of joints lies below
    NUM_JOINT_DOFS and every coordinate below NUM_JOINT_DOFS belongs to some
    joint, [convert_from_generalized] turns a vector of NUM_JOINT_DOFS rows
    into the map that gives each joint of the table the values at its
    coordinates, and [convert_to_generalized] turns that map back into the
    vector. *)
Theorem convert_generalized_round_trip (v : VectorNd) (r : Robot) :
  length v = NUM_JOINT_DOFS r ->
  (forall id k, k ∈ dofs_of r id -> (0 <= k < Z.of_nat (NUM_JOINT_DOFS r))%Z) ->
  (forall i, i < NUM_JOINT_DOFS r -> exists id, Z.of_nat i ∈ dofs_of r id) ->
  exists m r1 r2,
    convert_from_generalized v ∅ r = (Ret m, r1)
    /\ (forall id, m !! id = select v <$> _id_dof_coord_map r !! id)
    /\ convert_to_generalized m r1 = (Ret v, r2).
Proof.
  intros Hlen Hrange Hcover.
  unfold convert_from_generalized. rewrite bind_run. cbn [gets].
  rewrite bool_decide_eq_false_2 by (intros Hne; by apply Hne).
  rewrite bind_run. cbn [gets]. unfold get_map_keys.
  destruct (convert_from_loop v (keys_in_order (_id_dof_coord_map r)) ∅ r)
    as (m & r1 & Hfrom & Hm1 & Hlook).
  { intros id k _ Hk. rewrite Hlen. by apply (Hrange id). }
  cbn zeta in Hfrom. exists m, r1. rewrite Hfrom.
  assert (Hm : forall id, m !! id = select v <$> _id_dof_coord_map r !! id).
  { intros id. rewrite Hlook. case_decide as Hin.
    - apply elem_of_keys_in_order in Hin as [dof Hdof].
      unfold dofs_of. by rewrite Hdof.
    - rewrite lookup_empty.
      destruct (_id_dof_coord_map r !! id) as [dof|] eqn:Hdof; [|done].
      destruct Hin. apply elem_of_keys_in_order. by eexists. }
  destruct Hm1 as (Hd1 & _ & Hn1).
  unfold convert_to_generalized. rewrite bind_run. cbn [gets].
  destruct (convert_to_loop v m (dofs_of r) (keys_in_order m)
              (set_zero (NUM_JOINT_DOFS r1)) r1)
    as (g & r2 & Hto & Hglen & Hg).
  { intros id Hin. apply elem_of_keys_in_order in Hin as [x Hx].
    rewrite Hm in Hx |- *. unfold dofs_of.
    destruct (_id_dof_coord_map r !! id) as [dof|] eqn:Hdof; [|done].
    split; [done|]. intros k Hk. rewrite Hlen. apply (Hrange id).
    unfold dofs_of. by rewrite Hdof. }
  { exact Hd1. }
  { unfold set_zero. rewrite length_replicate. congruence. }
  cbn zeta in Hto. exists r2. split; [done|]. split; [exact Hm|]. rewrite Hto. f_equal. f_equal.
  apply list_eq. intros i.
  destruct (Hg i) as [Hv|[_ Hnot]]; [done|].
  destruct (decide (i < NUM_JOINT_DOFS r)) as [Hi|Hi].
  - destruct (Hcover i Hi) as (id & Hin). destruct (Hnot id); [|done].
    apply elem_of_keys_in_order. rewrite Hm. unfold dofs_of in Hin.
    destruct (_id_dof_coord_map r !! id) as [dof|]; [by eexists|].
    by apply elem_of_nil in Hin.
  - rewrite !lookup_ge_None_2 by lia. done.
Qed.

Lemma convert_generalized_round_trip_witness :
  exists m r1 r2,
    convert_from_generalized [d1; dm1; d0] ∅ example_robot = (Ret m, r1)
    /\ m !! "knee" = Some [dm1; d0]
    /\ convert_to_generalized m r1 = (Ret [d1; dm1; d0], r2).
Proof.
  destruct (convert_generalized_round_trip [d1; dm1; d0] example_robot)
    as (m & r1 & r2 & Hfrom & Hm & Hto).
  - reflexivity.
  - intros id k. unfold dofs_of.
    change (_id_dof_coord_map example_robot) with example_dofs.
    change (NUM_JOINT_DOFS example_robot) with 3.
    rewrite example_dofs_lookup.
    repeat case_decide; rewrite ?elem_of_cons, elem_of_nil; intros Hk; lia.
  - intros i Hi. change (NUM_JOINT_DOFS example_robot) with 3 in Hi.
    unfold dofs_of. change (_id_dof_coord_map example_robot) with example_dofs.
    destruct i as [|[|[|i]]]; [exists "hip"|exists "knee"|exists "knee"|lia];
      rewrite example_dofs_lookup; by_evaluation.
  - exists m, r1, r2. split; [exact Hfrom|]. split; [|exact Hto].
    rewrite Hm. vm_compute. reflexivity.
Defined.

(** * More of the friction estimator *)

(** ** [setblock] *)

(** X19: for well-formed matrices and a block that lies within both,
    [setblock(M, I, J, P, Q, m)] copies the leading P x Q block of [m] to
    [M] at row [I] and column [J] and changes no other entry of [M], nor its
    size. *)
Theorem setblock_copies_block (I J P Q : nat) (m MM : Mat) :
  mat_wf MM -> mat_wf m ->
  I + P <= rows MM -> J + Q <= columns MM -> P <= rows m -> Q <= columns m ->
  exists MM',
    setblock I J P Q m MM = (Ret tt, MM')
    /\ rows MM' = rows MM /\ columns MM' = columns MM
    /\ (forall i j, i < P -> j < Q -> mat_get MM' (I + i) (J + j) = mat_get m i j)
    /\ (forall i j, ~ (I <= i < I + P /\ J <= j < J + Q) ->
          mat_get MM' i j = mat_get MM i j).
Proof.
  intros HwfM Hwfm HI HJ HP HQ.
  destruct (setblock_run I J P Q m MM HwfM Hwfm HI HJ HP HQ)
    as (MM' & Hrun & _ & Hr & Hc & Hget).
  exists MM'. split; [exact Hrun|]. split; [exact Hr|]. split; [exact Hc|]. split.
  - intros i j Hi Hj. rewrite Hget, decide_True by lia.
    f_equal; lia.
  - intros i j Hout. by rewrite Hget, decide_False.
Qed.

Lemma setblock_copies_block_witness :
  exists MM',
    setblock 1 1 1 1 (mkMat 1 1 [[d1]]) (mat_zero 2 2) = (Ret tt, MM')
    /\ mat_get MM' 1 1 = Some d1
    /\ mat_get MM' 0 1 = Some d0.
Proof.
  destruct (setblock_copies_block 1 1 1 1 (mkMat 1 1 [[d1]]) (mat_zero 2 2))
    as (MM' & Hrun & _ & _ & Hin & Hout).
  - apply mat_wf_zero.
  - split; [reflexivity|]. repeat constructor.
  - cbn. lia.
  - cbn. lia.
  - cbn. lia.
  - cbn. lia.
  - exists MM'. split; [exact Hrun|]. split.
    + apply (Hin 0 0); lia.
    + rewrite Hout by lia. reflexivity.
Defined.

(** ** What [friction_estimation] keeps between calls *)

Section bookkeeping.
Context (lcp_lemke_regularized : Mat -> Vec -> Vec -> bool * Vec).
Context (svd : Mat -> Mat * Vec * Mat) (cf_moby : Vec).
Context {X : Type} (proj : fe_refs -> X).

Lemma nullspace_frame Q : preserves proj (nullspace svd Q).
Proof.
  unfold nullspace. destruct (svd Q) as [[U Sv] V].
  destruct Sv; [apply preserves_ret|].
  case_bool_decide; repeat preserves_step.
Qed.

Lemma stage_II_frame R jstar Q c z nc :
  preserves proj (stage_II lcp_lemke_regularized svd cf_moby R jstar Q c z nc).
Proof.
  unfold stage_II. repeat preserves_step; try apply nullspace_frame.
  case_bool_decide; repeat preserves_step.
  destruct (solve_qp _ _) as [[[]|e] after]; repeat preserves_step.
Qed.

Hypothesis proj_MU : forall s MU',
  proj (mkFe (ITER s) (v_ s) (f_ s) (first s) MU' (cf s)) = proj s.

Lemma estimate_mu_frame nc : preserves proj (estimate_mu nc).
Proof.
  unfold estimate_mu. apply preserves_for_each. intros i.
  apply preserves_bind; [apply preserves_gets|intros cf0].
  apply preserves_bind; [apply preserves_lift|intros cn].
  apply preserves_bind.
  - destruct (dltb d0 cn).
    + apply preserves_bind; [apply preserves_lift|intros bs].
      apply preserves_bind; [apply preserves_lift|intros bt].
      apply preserves_bind; [apply preserves_gets|intros MU0].
      apply preserves_bind; [apply preserves_lift|intros MU1].
      apply preserves_modify. intros s. apply proj_MU.
    + apply preserves_bind; [apply preserves_gets|intros MU0].
      apply preserves_bind; [apply preserves_lift|intros MU1].
      apply preserves_modify. intros s. apply proj_MU.
  - intros _. repeat preserves_step.
Qed.

End bookkeeping.

Section bookkeeping_run.
Context (lcp_lemke_regularized : Mat -> Vec -> Vec -> bool * Vec).
Context (svd : Mat -> Mat * Vec * Mat) (cf_moby : Vec).

Lemma stage_I_problem_statics v dt N D M (s s' : fe_refs) x :
  stage_I_problem v dt N D M s = (Ret x, s') ->
  ITER s' = ITER s /\ v_ s' = v_ s /\ first s' = first s
  /\ f_ s' = vec_scale dt (f_ s).
Proof.
  unfold stage_I_problem. intros H.
  apply bind_Ret_inv in H as (f0 & s1 & Hm & H). apply gets_inv in Hm as [-> ->].
  apply bind_Ret_inv in H as ([] & s1 & Hm & H). apply modify_inv in Hm as ->.
  apply bind_Ret_inv in H as (v0 & s1 & Hm & H). apply gets_inv in Hm as [-> ->].
  apply bind_Ret_inv in H as (dv & s1 & Hm & H). apply lift_Ret_inv in Hm as [_ ->].
  apply bind_Ret_inv in H as (js & s1 & Hm & H). apply lift_Ret_inv in Hm as [_ ->].
  apply bind_Ret_inv in H as ([] & s1 & Hm & H). apply modify_inv in Hm as ->.
  set (s2 := mkFe _ _ (vec_scale dt _) _ _ _) in H.
  assert (Hrest : forall k : Exec fe_refs (Mat * Vec * qp_refs),
            preserves (fun s => (ITER s, v_ s, first s, f_ s)) k ->
            k s2 = (Ret x, s') ->
            ITER s' = ITER s /\ v_ s' = v_ s /\ first s' = first s
            /\ f_ s' = vec_scale dt (f_ s)).
  { intros k Hk Hrun. apply Hk in Hrun. by injection Hrun as -> -> -> ->. }
  eapply Hrest; [|exact H]. repeat preserves_step.
Qed.

(** X20: a post-event call of [friction_estimation] with at least one
    contact that returns has counted one more iteration, holds the velocity
    of this call as the previous one, has cleared [first], and has scaled
    the stored external force [f_] by [dt] in place. *)
Theorem friction_estimation_bookkeeping v f dt N D M (st st' : fe_refs) err :
  0 < columns N ->
  friction_estimation lcp_lemke_regularized svd cf_moby v f dt N D M true st
    = (Ret err, st') ->
  ITER st' = (ITER st + 1)%Z
  /\ v_ st' = v
  /\ f_ st' = vec_scale dt (f_ st)
  /\ first st' = false.
Proof.
  intros Hnc H.
  apply friction_estimation_post_event in H as (z & s1 & s2 & Hz & Hmu & ->);
    [|done].
  cbn [ITER v_ f_ first].
  pose proof (estimate_mu_frame (fun s => (ITER s, f_ s))
                (fun _ _ => eq_refl) _ _ _ _ Hmu) as Hmu'.
  cbn [ITER f_] in Hmu'. injection Hmu' as -> ->.
  unfold contact_impulses in Hz.
  apply bind_Ret_inv in Hz as ([] & s0 & Hm & Hz). apply modify_inv in Hm as ->.
  apply bind_Ret_inv in Hz as (problem & s0 & HI & Hz).
  apply stage_I_problem_statics in HI as (HIT & _ & _ & Hf).
  cbn [ITER f_] in HIT, Hf.
  assert (Hrest : ITER s1 = ITER s0 /\ f_ s1 = f_ s0).
  { destruct (solve_qp _ _) as [[[]|e] after].
    - pose proof (stage_II_frame lcp_lemke_regularized svd cf_moby
                    (fun s => (ITER s, f_ s)) _ _ _ _ _ _ _ _ _ Hz) as Hr.
      by injection Hr as -> ->.
    - by apply (preserves_ret (fun s => (ITER s, f_ s))) in Hz as [= -> ->].
    - done. }
  destruct Hrest as [-> ->]. by rewrite HIT, Hf.
Qed.

End bookkeeping_run.

Lemma friction_estimation_bookkeeping_witness :
  ITER example_estimated = (ITER example_fe + 1)%Z
  /\ v_ example_estimated = example_v
  /\ f_ example_estimated = vec_scale example_dt (f_ example_fe)
  /\ first example_estimated = false.
Proof.
  apply (friction_estimation_bookkeeping example_lemke_I example_svd
           example_cf_moby example_v [] example_dt example_N example_D example_M
           example_fe example_estimated d0).
  - vm_compute. lia.
  - vm_compute. reflexivity.
Defined.

Section no_estimate.
Context (lcp_lemke_regularized : Mat -> Vec -> Vec -> bool * Vec).
Context (svd : Mat -> Mat * Vec * Mat) (cf_moby : Vec).

(** X21: without a post-event velocity, or without a contact, a call of
    [friction_estimation] estimates nothing: it returns -1 and leaves [MU],
    [cf] and the iteration count as they are; it records the velocity (post
    event) or the external force (otherwise) and clears [first]. *)
Theorem friction_estimation_without_contacts v f dt N D M (post_event : bool)
    (st : fe_refs) :
  post_event = false \/ columns N = 0 ->
  friction_estimation lcp_lemke_regularized svd cf_moby v f dt N D M post_event st
  = (Ret dm1,
     mkFe (ITER st) (if post_event then v else v_ st)
          (if post_event then f_ st else f) false (MU st) (cf st)).
Proof.
  intros Hcase. unfold friction_estimation. destruct post_event.
  - destruct Hcase as [?|Hnc]; [done|]. rewrite Hnc.
    rewrite bool_decide_eq_false_2 by lia. reflexivity.
  - reflexivity.
Qed.

(** X22: when the Stage-I solve fails, a post-event call of
    [friction_estimation] that returns gives -1, and [cf] is nevertheless
    overwritten, with the vector that the failed solve left in [z]. *)
Theorem friction_estimation_stage_I_failure v f dt N D M (st st' s1 : fe_refs)
    (R : Mat) (jstar : Vec) (problem after : qp_refs) (err : double) :
  0 < columns N ->
  stage_I_problem v dt N D M
    (mkFe (ITER st + 1) (v_ st) (f_ st) (first st) (MU st) (cf st))
    = (Ret (R, jstar, problem), s1) ->
  solve_qp lcp_lemke_regularized problem = (Ret false, after) ->
  friction_estimation lcp_lemke_regularized svd cf_moby v f dt N D M true st
    = (Ret err, st') ->
  err = dm1 /\ cf st' = qp_x after.
Proof.
  intros Hnc HI Hsolve H.
  apply friction_estimation_post_event in H as (z & s2 & s3 & Hz & Hmu & ->);
    [|done].
  unfold contact_impulses in Hz. rewrite bind_run in Hz. cbn [modify] in Hz.
  rewrite bind_run, HI in Hz. cbn [fst snd] in Hz. rewrite Hsolve in Hz.
  injection Hz as <- <- <-.
  cbn [cf]. split; [done|].
  pose proof (estimate_mu_frame cf (fun _ _ => eq_refl) _ _ _ _ Hmu) as Hcf.
  exact Hcf.
Qed.

End no_estimate.

Lemma friction_estimation_without_contacts_witness :
  friction_estimation example_lemke_I example_svd example_cf_moby
    example_v [d1] example_dt example_N example_D example_M false example_fe
  = (Ret dm1, mkFe 0 (set_zero 6) [d1] false (mat_zero 1 2) []).
Proof.
  apply (friction_estimation_without_contacts example_lemke_I example_svd
           example_cf_moby example_v [d1] example_dt example_N example_D example_M
           false example_fe).
  by left.
Defined.

Lemma friction_estimation_stage_I_failure_witness :
  cf example_failed = [d0; d0; d0]
  /\ mat_get (MU example_failed) 0 0 = Some S754_nan.
Proof.
  split; [|vm_compute; reflexivity].
  assert (HI : exists R jstar problem s1,
            stage_I_problem example_v example_dt example_N example_D example_M
              (mkFe (ITER example_fe + 1) (v_ example_fe) (f_ example_fe)
                 (first example_fe) (MU example_fe) (cf example_fe))
            = (Ret (R, jstar, problem), s1)
            /\ solve_qp example_lemke_failing problem
               = (Ret false, mkQp (mat_negate (qp_Q problem)) (vec_negate (qp_c problem))
                               (mat_negate (qp_A problem)) (vec_negate (qp_b problem))
                               [d0; d0; d0])).
  { eexists _, _, _, _. split; vm_compute; reflexivity. }
  destruct HI as (R & jstar & problem & s1 & HI & Hsolve).
  refine (proj2 (friction_estimation_stage_I_failure example_lemke_failing
                   example_svd example_cf_moby example_v [] example_dt
                   example_N example_D example_M example_fe example_failed
                   s1 R jstar problem _ dm1 _ HI Hsolve _)).
  - vm_compute. lia.
  - vm_compute. reflexivity.
Defined.

(** * The generic data map *)

Lemma any_cast_same (T : ty) (x : ty_denote T) :
  any_cast T (existT T x) = Some x.
Proof.
  unfold any_cast. cbn [projT1 projT2].
  destruct (decide (T = T)) as [e|Hne]; [|done].
  by rewrite (proof_irrel e eq_refl).
Qed.

Lemma any_cast_other (T T' : ty) (x : ty_denote T') :
  T <> T' -> any_cast T (existT T' x) = None.
Proof.
  intros Hne. unfold any_cast. cbn [projT1 projT2].
  destruct (decide (T' = T)) as [e|_]; [by destruct Hne|done].
Qed.

(** X23: a value of the data map is read back by [get_data<T>] under the
    type it is stored with; asked for under another type, [get_data<T>]
    throws and the two-argument [get_data] answers [false] and leaves the
    caller's variable alone; none of the three changes the robot. *)
Theorem get_data_type_gate (T T' : ty) (n : string) (x : ty_denote T')
    (val : ty_denote T) (r : Robot) :
  _data_map r !! n = Some (existT T' x) ->
  T <> T' ->
  get_data T' n r = (Ret x, r)
  /\ get_data T n r = (Throw TypeMismatch, r)
  /\ get_data_try T n val r = (Ret (false, val), r).
Proof.
  intros Hn Hne. unfold get_data_try, get_data, bind, gets.
  destruct (_data_map r !! n) as [operand|]; [|done]. injection Hn as ->.
  by rewrite any_cast_same, any_cast_other.
Qed.

(** X24: after [remove_data(n)], whether or not the key was there,
    [get_data<T>(n)] throws the not-found error for every type and the
    two-argument [get_data] answers [false]; every other key reads as
    before. *)
Theorem remove_data_then_get (T : ty) (n : string) (val : ty_denote T) (r : Robot) :
  exists r1,
    remove_data n r = (Ret tt, r1)
    /\ get_data T n r1 = (Throw KeyNotFound, r1)
    /\ get_data_try T n val r1 = (Ret (false, val), r1)
    /\ forall T' n', n' <> n -> fst (get_data T' n' r1) = fst (get_data T' n' r).
Proof.
  eexists. split; [reflexivity|].
  unfold get_data_try, get_data, bind, gets.
  cbn [_data_map with_data_map]. rewrite lookup_delete_eq.
  split_and!; try done.
  intros T' n' Hne. rewrite lookup_delete_ne by done.
  destruct (_data_map r !! n') as [operand|]; [|done].
  by destruct (any_cast T' operand).
Qed.

Lemma get_data_type_gate_witness :
  get_data TyString "gait" example_with_data = (Ret "trot", example_with_data)
  /\ get_data TyDouble "gait" example_with_data
     = (Throw TypeMismatch, example_with_data)
  /\ get_data_try TyDouble "gait" d1 example_with_data
     = (Ret (false, d1), example_with_data).
Proof.
  apply (get_data_type_gate TyDouble TyString "gait" "trot" d1 example_with_data).
  - apply lookup_singleton_eq.
  - discriminate.
Defined.

(** * Reading the contacts of the links *)

Lemma contacts_index_entry (link : string) (r : Robot) :
  exists r',
    contacts_index link r = (Ret (default [] (_id_contacts_map r !! link)), r')
    /\ _id_contacts_map r' !! link = Some (default [] (_id_contacts_map r !! link))
    /\ (forall l, l <> link -> _id_contacts_map r' !! l = _id_contacts_map r !! l)
    /\ _link_ids r' = _link_ids r
    /\ controller_phase r' = controller_phase r.
Proof.
  unfold contacts_index, map_index.
  destruct (_id_contacts_map r !! link) as [cs|] eqn:Hl;
    (eexists; split; [reflexivity|]); cbn; [by split_and!|].
  rewrite lookup_insert_eq. split_and!; try done.
  intros l Hne. by rewrite lookup_insert_ne.
Qed.

Lemma get_all_contacts_loop (links : list string) : forall acc r,
  exists r',
    foldM (fun acc link => c <- contacts_index link ;; ret (acc ++ c)) links acc r
    = (Ret (acc ++ concat ((fun l => default [] (_id_contacts_map r !! l)) <$> links)),
       r')
    /\ (forall l, _id_contacts_map r' !! l =
          if decide (l ∈ links) then Some (default [] (_id_contacts_map r !! l))
          else _id_contacts_map r !! l)
    /\ _link_ids r' = _link_ids r
    /\ controller_phase r' = controller_phase r.
Proof.
  induction links as [|link links IH]; intros acc r.
  - exists r. cbn. rewrite app_nil_r. split_and!; try done.
  - cbn [foldM]. rewrite !bind_run.
    destruct (contacts_index_entry link r) as (r1 & -> & He & Hother & Hl & Hp).
    cbn [ret]. destruct (IH (acc ++ default [] (_id_contacts_map r !! link)) r1)
      as (r' & Hrun & Hmap & Hl' & Hp').
    exists r'. rewrite Hrun. split.
    + f_equal. f_equal. rewrite <- app_assoc. f_equal.
      cbn [fmap list_fmap concat]. f_equal. f_equal.
      apply list_fmap_ext. intros _ l _.
      destruct (decide (l = link)) as [->|Hne]; [by rewrite He|by rewrite Hother].
    + split; [|split; congruence]. intros l. rewrite Hmap.
      destruct (decide (l = link)) as [->|Hne].
      * rewrite He. rewrite (decide_True (P := link ∈ link :: links)) by (by left).
        by case_decide.
      * rewrite Hother by done.
        destruct (decide (l ∈ links)) as [Hin|Hin].
        -- by rewrite decide_True by (by right).
        -- rewrite decide_False; [done|]. intros [->|?]%elem_of_cons; done.
Qed.

(** X25: in any phase, [get_all_contacts(contacts)] appends to the vector
    it is given the contacts of the links of [_link_ids], link by link in
    that order, and returns the size of the whole vector; contacts stored
    under an id that is not in [_link_ids] are never returned; and the read
    leaves an entry in the contact map, empty if need be, for every link. *)
Theorem get_all_contacts_appends (contacts : list contact_t) (r : Robot) :
  exists out r',
    get_all_contacts contacts r = (Ret (out, length out), r')
    /\ out = contacts
             ++ concat ((fun l => default [] (_id_contacts_map r !! l)) <$> _link_ids r)
    /\ (forall l, l ∈ _link_ids r -> is_Some (_id_contacts_map r' !! l))
    /\ (forall l, default [] (_id_contacts_map r' !! l)
                  = default [] (_id_contacts_map r !! l))
    /\ controller_phase r' = controller_phase r.
Proof.
  unfold get_all_contacts. rewrite bind_run. cbn [gets]. rewrite bind_run.
  destruct (get_all_contacts_loop (_link_ids r) contacts r)
    as (r' & -> & Hmap & _ & Hp).
  eexists _, r'. split; [reflexivity|]. split; [done|]. split_and!.
  - intros l Hl. rewrite Hmap, decide_True by done. by eexists.
  - intros l. rewrite Hmap. by case_decide.
  - exact Hp.
Qed.

(** * Compiling the joint table *)

Lemma resize_length (js : list (option MobyRobot.joint)) (n : nat) :
  length (MobyRobot.resize js n) = n.
Proof.
  unfold MobyRobot.resize. rewrite length_app, length_take, length_replicate. lia.
Qed.

Lemma movable_cons (j : MobyRobot.joint) (js : list MobyRobot.joint) :
  movable (j :: js)
  = if bool_decide (MobyRobot.q_rows j = 0) then movable js else j :: movable js.
Proof.
  unfold movable. rewrite filter_cons.
  case_bool_decide; case_decide; done.
Qed.

Lemma movable_length (js : list MobyRobot.joint) :
  length (movable js) <= length js.
Proof. apply length_filter. Qed.

(** The first loop stores each movable joint at its coordinate index, counts
    the fixed ones and touches nothing else. *)
Lemma place_loop (js : list MobyRobot.joint) : forall s,
  NoDup (MobyRobot.coord_index <$> movable js) ->
  (forall j, j ∈ movable js ->
     MobyRobot.coord_index j < length (MobyRobot.joints_ s)) ->
  exists s',
    for_each MobyRobot.place js s = (Ret tt, s')
    /\ length (MobyRobot.joints_ s') = length (MobyRobot.joints_ s)
    /\ MobyRobot.NUM_FIXED_JOINTS s'
       = MobyRobot.NUM_FIXED_JOINTS s + (length js - length (movable js))
    /\ MobyRobot.joint_names_ s' = MobyRobot.joint_names_ s
    /\ MobyRobot.links_ s' = MobyRobot.links_ s
    /\ (forall j, j ∈ movable js ->
          MobyRobot.joints_ s' !! MobyRobot.coord_index j = Some (Some j))
    /\ (forall i, i ∉ MobyRobot.coord_index <$> movable js ->
          MobyRobot.joints_ s' !! i = MobyRobot.joints_ s !! i).
Proof.
  induction js as [|j js IH]; intros s Hnd Hlt.
  - exists s. cbn. split_and!; try done; try lia.
    intros j Hj. by apply elem_of_nil in Hj.
  - pose proof (movable_length js) as Hle.
    rewrite movable_cons in Hnd, Hlt |- *.
    cbn [for_each]. rewrite bind_run. unfold MobyRobot.place at 1.
    case_bool_decide as Hq.
    + cbn [modify].
      destruct (IH (MobyRobot.mk (MobyRobot.joints_ s) (MobyRobot.joint_names_ s)
                                 (MobyRobot.NUM_FIXED_JOINTS s + 1)
                                 (MobyRobot.links_ s)) Hnd Hlt)
        as (s' & Hrun & Hlen & Hfix & Hnames & Hlinks & Hin & Hout).
      cbn in Hlen, Hfix, Hnames, Hlinks, Hout.
      exists s'. split_and!; try done. cbn [length]. lia.
    + rewrite bind_run. cbn [gets].
      rewrite bool_decide_true by (apply Hlt; left).
      cbn [modify]. cbn [fmap list_fmap] in Hnd.
      apply NoDup_cons in Hnd as [Hfresh Hnd].
      set (s1 := MobyRobot.mk _ _ _ _).
      assert (Hlen1 : length (MobyRobot.joints_ s1) = length (MobyRobot.joints_ s))
        by (subst s1; cbn; apply length_insert).
      destruct (IH s1 Hnd) as (s' & Hrun & Hlen & Hfix & Hnames & Hlinks & Hin & Hout).
      { intros j' Hj'. rewrite Hlen1. apply Hlt. by right. }
      exists s'. split_and!.
      * done.
      * congruence.
      * rewrite Hfix. subst s1. cbn. lia.
      * rewrite Hnames. by subst s1.
      * rewrite Hlinks. by subst s1.
      * intros j' [->|Hj']%elem_of_cons; [|by apply Hin].
        rewrite Hout by done. subst s1. cbn.
        apply list_lookup_insert_eq. apply Hlt. left.
      * intros i Hi. cbn [fmap list_fmap] in Hi.
        apply not_elem_of_cons in Hi as [Hne Hi].
        rewrite Hout by done. subst s1. cbn.
        by apply list_lookup_insert_ne.
Qed.

(** The second loop appends the names of the joints it finds, index by
    index. *)
Lemma name_loop (l : list nat) : forall s,
  (forall i, i ∈ l ->
     exists j, MobyRobot.joints_ s !! i = Some (Some j) /\ MobyRobot.q_rows j <> 0) ->
  exists s',
    for_each MobyRobot.name_at l s = (Ret tt, s')
    /\ MobyRobot.joints_ s' = MobyRobot.joints_ s
    /\ MobyRobot.NUM_FIXED_JOINTS s' = MobyRobot.NUM_FIXED_JOINTS s
    /\ MobyRobot.links_ s' = MobyRobot.links_ s
    /\ MobyRobot.joint_names_ s'
       = MobyRobot.joint_names_ s ++ (name_of (MobyRobot.joints_ s) <$> l).
Proof.
  induction l as [|i l IH]; intros s Hall.
  - exists s. cbn. split_and!; try done. by rewrite app_nil_r.
  - cbn [for_each]. rewrite bind_run. unfold MobyRobot.name_at at 1.
    rewrite bind_run. cbn [gets].
    destruct (Hall i) as (j & Hj & Hq); [left|].
    rewrite Hj, bool_decide_false by done. cbn [modify].
    set (s1 := MobyRobot.mk _ _ _ _).
    destruct (IH s1) as (s' & Hrun & Hjs & Hfix & Hlinks & Hnames).
    { intros i' Hi'. subst s1. cbn. apply Hall. by right. }
    exists s'. split_and!; try done.
    rewrite Hnames. subst s1. cbn. rewrite <- app_assoc. cbn.
    unfold name_of at 2. by rewrite Hj.
Qed.

(** X26: if the coordinate indices of the movable joints reported by the
    body are 0, 1, ..., k-1 in some order, [compile()] returns, counts the
    fixed joints in [NUM_FIXED_JOINTS], stores the links, and appends k names
    to [joint_names_] (it does not clear the names already there), the name
    of every movable joint standing at that joint's coordinate index among
    the appended names. *)
Theorem compile_orders_joint_names
    (joints : list MobyRobot.joint) (links : list string) (s : MobyRobot.t) :
  MobyRobot.coord_index <$> movable joints ≡ₚ seq 0 (length (movable joints)) ->
  exists names s',
    MobyRobot.compile joints links s = (Ret tt, s')
    /\ MobyRobot.joint_names_ s' = MobyRobot.joint_names_ s ++ names
    /\ length names = length (movable joints)
    /\ (forall j, j ∈ movable joints ->
          names !! MobyRobot.coord_index j = Some (MobyRobot.joint_id j))
    /\ MobyRobot.NUM_FIXED_JOINTS s' = length joints - length (movable joints)
    /\ MobyRobot.links_ s' = links.
Proof.
  intros Hperm.
  pose proof (movable_length joints) as Hle.
  assert (Hnd : NoDup (MobyRobot.coord_index <$> movable joints)).
  { rewrite Hperm. apply NoDup_seq. }
  assert (Hlt : forall j, j ∈ movable joints ->
            MobyRobot.coord_index j < length (movable joints)).
  { intros j Hj.
    assert (Hin : MobyRobot.coord_index j ∈ seq 0 (length (movable joints))).
    { rewrite <- Hperm. by apply list_elem_of_fmap_2. }
    apply elem_of_seq in Hin. lia. }
  unfold MobyRobot.compile. do 2 (rewrite bind_run; cbn [modify]).
  cbn [MobyRobot.joints_ MobyRobot.joint_names_ MobyRobot.links_].
  rewrite bind_run.
  set (s0 := MobyRobot.mk _ _ 0 _).
  assert (Hlen0 : length (MobyRobot.joints_ s0) = length joints)
    by (subst s0; cbn; apply resize_length).
  destruct (place_loop joints s0 Hnd)
    as (s1 & Hrun1 & Hlen1 & Hfix1 & Hnames1 & Hlinks1 & Hin1 & _).
  { intros j Hj. rewrite Hlen0. specialize (Hlt j Hj). lia. }
  rewrite Hrun1. do 2 (rewrite bind_run; cbn [gets]). rewrite bind_run.
  assert (Hk : length (MobyRobot.joints_ s1) - MobyRobot.NUM_FIXED_JOINTS s1
               = length (movable joints)).
  { rewrite Hlen1, Hlen0, Hfix1. subst s0. cbn. lia. }
  rewrite Hk.
  destruct (name_loop (seq 0 (length (movable joints))) s1)
    as (s2 & Hrun2 & Hjs2 & Hfix2 & Hlinks2 & Hnames2).
  { intros i Hi. rewrite <- Hperm in Hi.
    apply list_elem_of_fmap in Hi as (j & -> & Hj).
    exists j. split; [by apply Hin1|].
    unfold movable in Hj. by apply list_elem_of_filter in Hj as [Hq _]. }
  rewrite Hrun2.
  exists (name_of (MobyRobot.joints_ s1) <$> seq 0 (length (movable joints))).
  eexists. split; [reflexivity|]. cbn.
  split; [rewrite Hnames2, Hnames1; by subst s0|].
  split; [by rewrite length_fmap, length_seq|].
  split; [|split; [|done]].
  - intros j Hj. rewrite list_lookup_fmap, lookup_seq_lt by by apply Hlt.
    cbn. unfold name_of. by rewrite (Hin1 j Hj).
  - rewrite Hfix2, Hfix1. subst s0. cbn. lia.
Qed.

Lemma compile_orders_joint_names_witness :
  (MobyRobot.coord_index <$> movable example_joints
     ≡ₚ seq 0 (length (movable example_joints)))
  /\ exists names s',
       MobyRobot.compile example_joints ["body"; "shin"] MobyRobot.fresh = (Ret tt, s')
       /\ MobyRobot.joint_names_ s' = MobyRobot.joint_names_ MobyRobot.fresh ++ names
       /\ length names = length (movable example_joints)
       /\ (forall j, j ∈ movable example_joints ->
             names !! MobyRobot.coord_index j = Some (MobyRobot.joint_id j))
       /\ MobyRobot.NUM_FIXED_JOINTS s'
          = length example_joints - length (movable example_joints)
       /\ MobyRobot.links_ s' = ["body"; "shin"].
Proof.
  assert (H : MobyRobot.coord_index <$> movable example_joints
                ≡ₚ seq 0 (length (movable example_joints))).
  { vm_compute. apply perm_swap. }
  split; [exact H|].
  exact (compile_orders_joint_names example_joints ["body"; "shin"] MobyRobot.fresh H).
Defined.
